(** * DocDB seek engine and plain block decoder

    A shallow embedding of
    - [yb::docdb::SeekToValidKvAtTs], [SeekForward] and
      [PerformRocksDBSeek] (docdb_rocksdb_util.cc),
    - [rocksdb::BytewiseComparatorImpl::Compare] (comparator.cc),
    - [yb::cfile::PlainBlockDecoder::SeekAtOrAfterValue] (plain_block.h),
    over a model of the ordered iterator the seek engine drives. *)

From Stdlib Require Import List ZArith Lia Bool Arith.
From Stdlib Require Import Strings.Byte.
Import ListNotations.

(* ===================================================================== *)
(** ** Byte strings: [Slice] *)
(* ===================================================================== *)

Module Slice.

(** The value of a byte read as [uint8_t], which is how [memcmp] compares. *)
Definition byte_val (b : byte) : Z := Z.of_N (Byte.to_N b).

Definition byte_cmp (x y : byte) : comparison :=
  Z.compare (byte_val x) (byte_val y).

(** [Slice::compare]: [memcmp] over the common length, then the shorter
    slice is the smaller one.  Only the sign of the C++ result is observed
    by the callers, so the result is a [comparison]. *)
Fixpoint compare (a b : list byte) : comparison :=
  match a, b with
  | [], [] => Eq
  | [], _ :: _ => Lt
  | _ :: _, [] => Gt
  | x :: a', y :: b' =>
      match byte_cmp x y with
      | Eq => compare a' b'
      | c => c
      end
  end.

(** [a.compare(b) > 0], [a.compare(b) >= 0] and [a.compare(b) < 0]. *)
Definition gt0 (c : comparison) : bool :=
  match c with Gt => true | _ => false end.
Definition ge0 (c : comparison) : bool :=
  match c with Lt => false | _ => true end.
Definition lt0 (c : comparison) : bool :=
  match c with Lt => true | _ => false end.

(** [Slice::starts_with]. *)
Fixpoint starts_with (a p : list byte) {struct p} : bool :=
  match p, a with
  | [], _ => true
  | _ :: _, [] => false
  | y :: p', x :: a' => Byte.eqb x y && starts_with a' p'
  end.

End Slice.

(** [BytewiseComparatorImpl::Compare] is [a.compare(b)]. *)
Definition BytewiseComparator_Compare (a b : list byte) : comparison :=
  Slice.compare a b.

(* ===================================================================== *)
(** ** The ordered iterator *)
(* ===================================================================== *)

(** The engine iterator of the external interface: [SeekToFirst], [Seek],
    [Next], [Valid], [key], [value].  The keyspace is the list of entries in
    iteration order; the position is an index into it, and the iterator is
    valid while the index is inside the list.  [calls] records the engine
    calls issued so far, oldest first. *)

Inductive Call : Type :=
| CallSeekToFirst
| CallSeek (target : list byte)
| CallNext.

Record Iterator : Type := mkIterator {
  entries : list (list byte * list byte);
  pos : nat;
  calls : list Call
}.

Definition Valid (it : Iterator) : bool := pos it <? length (entries it).

Definition key (it : Iterator) : list byte :=
  match nth_error (entries it) (pos it) with
  | Some e => fst e
  | None => []
  end.

Definition value (it : Iterator) : list byte :=
  match nth_error (entries it) (pos it) with
  | Some e => snd e
  | None => []
  end.

(** Index of the first entry whose key is at or past [target]. *)
Fixpoint lower_bound (l : list (list byte * list byte)) (target : list byte) : nat :=
  match l with
  | [] => 0
  | e :: r =>
      if Slice.lt0 (Slice.compare (fst e) target)
      then S (lower_bound r target)
      else 0
  end.

Definition SeekToFirst (it : Iterator) : Iterator :=
  {| entries := entries it; pos := 0; calls := calls it ++ [CallSeekToFirst] |}.

Definition Seek (it : Iterator) (target : list byte) : Iterator :=
  {| entries := entries it;
     pos := lower_bound (entries it) target;
     calls := calls it ++ [CallSeek target] |}.

Definition Next (it : Iterator) : Iterator :=
  {| entries := entries it; pos := S (pos it); calls := calls it ++ [CallNext] |}.

(** The keyspace of an engine iterator is strictly increasing in byte order. *)
Fixpoint ordered (l : list (list byte * list byte)) : bool :=
  match l with
  | [] => true
  | e :: r =>
      match r with
      | [] => true
      | e' :: _ => Slice.lt0 (Slice.compare (fst e) (fst e')) && ordered r
      end
  end.

(* ===================================================================== *)
(** ** [PerformRocksDBSeek] and [SeekForward] *)
(* ===================================================================== *)

(** The [for] loop of [PerformRocksDBSeek].  [budget] is
    [FLAGS_max_nexts_to_avoid_seek - nexts]: the iteration with
    [nexts < FLAGS_max_nexts_to_avoid_seek] calls [Next], the one with
    [nexts == FLAGS_max_nexts_to_avoid_seek] calls [Seek] and is the last. *)
Fixpoint next_loop (budget : nat) (it : Iterator) (seek_key : list byte) : Iterator :=
  if negb (Valid it) || Slice.ge0 (Slice.compare (key it) seek_key) then it
  else
    match budget with
    | O => Seek it seek_key
    | S b => next_loop b (Next it) seek_key
    end.

(** The body of [PerformRocksDBSeek] after the debug-only block: what the
    call does to the iterator in an optimized build, and in a debug build
    whose assertion holds.  [max_nexts] is [FLAGS_max_nexts_to_avoid_seek]
    (an [int32] flag, 8 by default); the loop body is not entered when it
    is negative. *)
Definition PerformRocksDBSeek (max_nexts : Z) (it : Iterator) (seek_key : list byte)
  : Iterator :=
  if (length seek_key =? 0)%nat then SeekToFirst it
  else if negb (Valid it) || Slice.gt0 (Slice.compare (key it) seek_key)
       then Seek it seek_key
       else if (max_nexts <? 0)%Z then it
            else next_loop (Z.to_nat max_nexts) it seek_key.

Definition default_max_nexts_to_avoid_seek : Z := 8%Z.

(** Modelled from the spec: the macro [ROCKSDB_SEEK] is declared in
    docdb_rocksdb_util.h, which is not among the sources.  It is the engine
    seek of the seek engine: [PerformRocksDBSeek] at the call site's
    [__FILE__] and [__LINE__], which only reach the [VLOG] line. *)
Definition ROCKSDB_SEEK (max_nexts : Z) (it : Iterator) (k : list byte) : Iterator :=
  PerformRocksDBSeek max_nexts it k.

(** [SeekForward(slice, iter)]. *)
Definition SeekForward (max_nexts : Z) (slice : list byte) (it : Iterator) : Iterator :=
  if negb (Valid it) || Slice.ge0 (Slice.compare (key it) slice) then it
  else ROCKSDB_SEEK max_nexts it slice.

(* ===================================================================== *)
(** ** DocHybridTime and its codec *)
(* ===================================================================== *)

Inductive Status : Type :=
| OK
| Corruption
| NotFound.

(** [HybridTime] is a 64-bit unsigned value, [IntraTxnWriteId] a 32-bit one. *)
Definition HybridTime := Z.
Bind Scope Z_scope with HybridTime.

Record DocHybridTime : Type := mkDocHybridTime {
  hybrid_time : HybridTime;
  write_id : Z
}.

Definition kMaxHybridTimeValue : Z := (2 ^ 64 - 1)%Z.
Arguments kMaxHybridTimeValue : simpl never.

(** Modelled from the spec: [kMaxWriteId] (doc_hybrid_time.h is not among
    the sources) is the maximum write-id sentinel, the largest value of the
    32-bit write id. *)
Definition kMaxWriteId : Z := (2 ^ 32 - 1)%Z.
Arguments kMaxWriteId : simpl never.

(** Modelled from the spec: [DocHybridTime::kMin], the smallest possible
    DocHybridTime. *)
Definition DocHybridTime_kMin : DocHybridTime :=
  {| hybrid_time := 0%Z; write_id := 0%Z |}.

Definition DocHybridTime_valid (d : DocHybridTime) : Prop :=
  (0 <= hybrid_time d <= kMaxHybridTimeValue)%Z /\ (0 <= write_id d <= kMaxWriteId)%Z.

Definition DocHybridTime_eqb (a b : DocHybridTime) : bool :=
  (hybrid_time a =? hybrid_time b)%Z && (write_id a =? write_id b)%Z.

(** The total order of DocHybridTime: physical time first, then write id. *)
Definition DocHybridTime_compare (a b : DocHybridTime) : comparison :=
  match (hybrid_time a ?= hybrid_time b)%Z with
  | Eq => (write_id a ?= write_id b)%Z
  | c => c
  end.

Definition byte_of_Z (z : Z) : byte :=
  match Byte.of_N (Z.to_N (z mod 256)%Z) with
  | Some b => b
  | None => x00
  end.

(** Fixed-width big-endian bytes of [v], most significant byte first. *)
Fixpoint be_bytes (n : nat) (v : Z) : list byte :=
  match n with
  | O => []
  | S m => byte_of_Z (v / 256 ^ Z.of_nat m)%Z :: be_bytes m (v mod 256 ^ Z.of_nat m)%Z
  end.

Definition be_value (l : list byte) : Z :=
  fold_left (fun acc b => (acc * 256 + Slice.byte_val b)%Z) l 0%Z.

Definition kHybridTimeBytes : nat := 8.
Definition kWriteIdBytes : nat := 4.
Definition kEncodedDocHybridTimeSize : nat := kHybridTimeBytes + kWriteIdBytes.

(** Modelled from the spec: the DocHybridTime codec (doc_hybrid_time.cc is
    not among the sources).  The encoding is fixed-width and
    monotonic-reversing: every field is stored complemented, most
    significant byte first, so that a larger timestamp is a smaller byte
    string. *)
Definition DocHybridTime_EncodedInDocDbFormat (d : DocHybridTime) : list byte :=
  be_bytes kHybridTimeBytes (kMaxHybridTimeValue - hybrid_time d)%Z
  ++ be_bytes kWriteIdBytes (kMaxWriteId - write_id d)%Z.
Arguments DocHybridTime_EncodedInDocDbFormat : simpl never.

(** Modelled from the spec: [Encode(time, write_id)] fails if the write id
    exceeds its reserved bit width. *)
Definition DocHybridTime_Encode (d : DocHybridTime) : option (list byte) :=
  if ((0 <=? write_id d) && (write_id d <=? kMaxWriteId))%Z
  then Some (DocHybridTime_EncodedInDocDbFormat d)
  else None.

Definition DocHybridTime_DecodeBytes (e : list byte) : DocHybridTime :=
  {| hybrid_time := (kMaxHybridTimeValue - be_value (firstn kHybridTimeBytes e))%Z;
     write_id := (kMaxWriteId - be_value (skipn kHybridTimeBytes e))%Z |}.

(** Modelled from the spec: [DocHybridTime::DecodeFromEnd] reads the
    timestamp from the trailing bytes of a key and fails with Corruption
    ([None]) when they are too short for a DocHybridTime. *)
Definition DocHybridTime_DecodeFromEnd (k : list byte) : option DocHybridTime :=
  if (length k <? kEncodedDocHybridTimeSize)%nat then None
  else Some (DocHybridTime_DecodeBytes
               (skipn (length k - kEncodedDocHybridTimeSize) k)).

(** Modelled from the spec: [DecodeHybridTimeFromEndOfKey] (absent) decodes
    the trailing timestamp of a key. *)
Definition DecodeHybridTimeFromEndOfKey (k : list byte) : option DocHybridTime :=
  DocHybridTime_DecodeFromEnd k.

(** Modelled from the spec: the [ValueType::kHybridTime] tag (value_type.h
    is not among the sources) that precedes an encoded timestamp in a key. *)
Definition kHybridTime : byte := "#"%byte.

(** [AppendDocHybridTime]: the ValueType followed by the encoded timestamp
    (docdb_rocksdb_util.cc, the TODO in [SeekToValidKvAtTs]). *)
Definition AppendDocHybridTime (d : DocHybridTime) (key_bytes : list byte) : list byte :=
  key_bytes ++ kHybridTime :: DocHybridTime_EncodedInDocDbFormat d.

(** Modelled from the spec: [KeyBytes::ReplaceLastHybridTimeForSeek]
    rewrites only the trailing timestamp field of an encoded key, to the
    given time with the maximum write id; Corruption when there is no room
    for a timestamp. *)
Definition ReplaceLastHybridTimeForSeek (key_bytes : list byte) (ht : HybridTime)
  : option (list byte) :=
  if (length key_bytes <? kEncodedDocHybridTimeSize)%nat then None
  else Some (firstn (length key_bytes - kEncodedDocHybridTimeSize) key_bytes
             ++ DocHybridTime_EncodedInDocDbFormat
                  {| hybrid_time := ht; write_id := kMaxWriteId |}).

(** [MonoDelta], a signed duration. *)
Definition MonoDelta := Z.
Bind Scope Z_scope with MonoDelta.

(** Modelled from the spec: [HybridClock::AddPhysicalTimeToHybridTime]
    (hybrid_clock.cc is not among the sources) gives the expiry instant
    [write_time + ttl]. *)
Definition AddPhysicalTimeToHybridTime (ht : HybridTime) (ttl : MonoDelta) : HybridTime :=
  (ht + ttl)%Z.

(* ===================================================================== *)
(** ** SubDocKey and Value, as far as the seek engine uses them *)
(* ===================================================================== *)

(** The parts of doc_key.h, value.h and primitive_value.h that are not among
    the sources: the decoder of the DocKey and sub-path prefix of a key, and
    the decoders of a stored value. *)
Class DocDBCodec : Type := {
  (** A decoded DocKey with its sub-path components. *)
  DocPath : Type;
  (** Decodes the DocKey and the sub-path components at the front of a key;
      returns them with the number of bytes consumed, [None] on Corruption. *)
  DecodeDocPath : list byte -> option (DocPath * nat);
  Value : Type;
  (** [Value(PrimitiveValue(ValueType::kTombstone))]. *)
  Tombstone : Value;
  (** [Value::kMaxTtl], the "never expires" sentinel. *)
  kMaxTtl : MonoDelta;
  (** [Value::DecodeTTL]: the TTL and the bytes after the TTL field. *)
  Value_DecodeTTL : list byte -> option (MonoDelta * list byte);
  (** [Value::Decode]. *)
  Value_Decode : list byte -> option Value
}.

Section SeekEngine.
Context {codec : DocDBCodec}.

Record SubDocKey : Type := mkSubDocKey {
  doc_path : DocPath;
  doc_ht : option DocHybridTime
}.

Definition has_hybrid_time (k : SubDocKey) : bool :=
  match doc_ht k with Some _ => true | None => false end.

(** [SubDocKey::hybrid_time()]; a key without a timestamp holds the
    invalid (maximum) hybrid time. *)
Definition SubDocKey_hybrid_time (k : SubDocKey) : HybridTime :=
  match doc_ht k with
  | Some d => hybrid_time d
  | None => kMaxHybridTimeValue
  end.

(** Modelled from the spec: [SubDocKey::SetHybridTimeForReadPath] reports
    the given instant as the key's timestamp (with the default write id). *)
Definition SetHybridTimeForReadPath (k : SubDocKey) (ht : HybridTime) : SubDocKey :=
  {| doc_path := doc_path k;
     doc_ht := Some {| hybrid_time := ht; write_id := 0%Z |} |}.

(** Modelled from the spec: [SubDocKey::FullyDecodeFrom(bytes,
    require_hybrid_time)].  A key is the DocKey and sub-path components,
    optionally followed by the [kHybridTime] tag and a timestamp; all the
    bytes have to be consumed, and a missing timestamp is Corruption
    unless [require_hybrid_time] is false. *)
Definition FullyDecodeFrom (k : list byte) (require_hybrid_time : bool)
  : option SubDocKey :=
  match DecodeDocPath k with
  | None => None
  | Some (p, n) =>
      match skipn n k with
      | [] =>
          if require_hybrid_time then None
          else Some {| doc_path := p; doc_ht := None |}
      | tag :: e =>
          if Byte.eqb tag kHybridTime
             && (length e =? kEncodedDocHybridTimeSize)%nat
          then Some {| doc_path := p; doc_ht := Some (DocHybridTime_DecodeBytes e) |}
          else None
      end
  end.

(* ------------------------------------------------------------------- *)
(** *** The debug-only block of [PerformRocksDBSeek] *)

(** [true] when the [DCHECK] is not reached or holds, [false] when it
    fails. *)
Definition SeekKeyDCheck (seek_key : list byte) : bool :=
  match DecodeHybridTimeFromEndOfKey seek_key with
  | Some dht =>
      if negb (write_id dht =? kMaxWriteId)%Z
         && negb (DocHybridTime_eqb dht DocHybridTime_kMin)
      then
        match FullyDecodeFrom seek_key false with
        | Some subdoc_key =>
            if has_hybrid_time subdoc_key
            then (write_id dht =? kMaxWriteId)%Z
                 || DocHybridTime_eqb dht DocHybridTime_kMin
            else true
        | None => true
        end
      else true
  | None => true
  end.

Inductive Build : Type :=
| DebugBuild       (* NDEBUG is not defined *)
| OptimizedBuild.  (* NDEBUG is defined *)

(** [PerformRocksDBSeek] with its [#ifndef NDEBUG] block.  A failed
    [DCHECK] ends the process: [None]. *)
Definition PerformRocksDBSeekIn (b : Build) (max_nexts : Z)
           (it : Iterator) (seek_key : list byte) : option Iterator :=
  match b with
  | OptimizedBuild => Some (PerformRocksDBSeek max_nexts it seek_key)
  | DebugBuild =>
      if SeekKeyDCheck seek_key
      then Some (PerformRocksDBSeek max_nexts it seek_key)
      else None
  end.

(* ------------------------------------------------------------------- *)
(** *** [SeekToValidKvAtTs] *)

Inductive LoopExit : Type :=
| LoopNotFound (it : Iterator)
| LoopFailed (it : Iterator) (s : Status)
| LoopBreak (it : Iterator).

(** The [while (true)] loop.  One unit of [fuel] is one iteration; [None]
    when the fuel does not suffice. *)
Fixpoint seek_loop (fuel : nat) (max_nexts : Z) (it : Iterator)
         (search_key : list byte) (ht : HybridTime)
         (seek_key_bytes : list byte) : option LoopExit :=
  match fuel with
  | O => None
  | S fuel' =>
      let it1 := ROCKSDB_SEEK max_nexts it seek_key_bytes in
      if negb (Valid it1) || negb (Slice.starts_with (key it1) search_key)
      then Some (LoopNotFound it1)
      else
        match DocHybridTime_DecodeFromEnd (key it1) with
        | None => Some (LoopFailed it1 Corruption)
        | Some ht_from_found_key =>
            if (hybrid_time ht_from_found_key <=? ht)%Z
            then Some (LoopBreak it1)
            else
              match ReplaceLastHybridTimeForSeek (key it1) ht with
              | None => Some (LoopFailed it1 Corruption)
              | Some seek_key_bytes' =>
                  seek_loop fuel' max_nexts it1 search_key ht seek_key_bytes'
              end
        end
  end.

(** The iterator and the out-parameters after the call.  [is_found] and
    [found_value] may be null pointers: [None]. *)
Record SeekResult : Type := mkSeekResult {
  status : Status;
  iter : Iterator;
  found_key : SubDocKey;
  is_found : option bool;
  found_value : option Value
}.

Definition assign {A : Type} (ptr : option A) (v : A) : option A :=
  match ptr with
  | Some _ => Some v
  | None => None
  end.

Definition SeekToValidKvAtTs (fuel : nat) (max_nexts : Z) (it : Iterator)
           (search_key : list byte) (ht : HybridTime)
           (found_key0 : SubDocKey) (is_found0 : option bool)
           (found_value0 : option Value) : option SeekResult :=
  let is_found1 := assign is_found0 true in
  let seek_key_bytes :=
    AppendDocHybridTime {| hybrid_time := ht; write_id := kMaxWriteId |} search_key in
  match seek_loop fuel max_nexts it search_key ht seek_key_bytes with
  | None => None
  | Some (LoopNotFound it1) =>
      Some (mkSeekResult OK it1 found_key0 (assign is_found1 false) found_value0)
  | Some (LoopFailed it1 s) =>
      Some (mkSeekResult s it1 found_key0 is_found1 found_value0)
  | Some (LoopBreak it1) =>
      match FullyDecodeFrom (key it1) true with
      | None => Some (mkSeekResult Corruption it1 found_key0 is_found1 found_value0)
      | Some fk =>
          match Value_DecodeTTL (value it1) with
          | None => Some (mkSeekResult Corruption it1 fk is_found1 found_value0)
          | Some (ttl, rest) =>
              let expiry := AddPhysicalTimeToHybridTime (SubDocKey_hybrid_time fk) ttl in
              if negb (ttl =? kMaxTtl)%Z && (expiry <? ht)%Z
              then Some (mkSeekResult OK it1 (SetHybridTimeForReadPath fk expiry)
                                      is_found1 (assign found_value0 Tombstone))
              else
                match found_value0 with
                | None => Some (mkSeekResult OK it1 fk is_found1 None)
                | Some _ =>
                    match Value_Decode rest with
                    | None => Some (mkSeekResult Corruption it1 fk is_found1 found_value0)
                    | Some v => Some (mkSeekResult OK it1 fk is_found1 (Some v))
                    end
                end
          end
      end
  end.

(** An amount of fuel that always suffices: one iteration per entry of the
    keyspace, and one more. *)
Definition seek_fuel (it : Iterator) : nat := S (length (entries it)).

End SeekEngine.

(* ===================================================================== *)
(** ** [PlainBlockDecoder::SeekAtOrAfterValue] *)
(* ===================================================================== *)

Module PlainBlockDecoder.

Definition uint32 (z : Z) : Z := (z mod 2 ^ 32)%Z.

(** The decoder after [ParseHeader]: [data_] is the sequence of elements
    that follows the block header, each read through [Decode<CppType>]
    ([CppType] an integer type); [num_elems_] and [cur_idx_] are
    [uint32_t] fields. *)
Record t : Type := mk {
  data_ : list Z;
  num_elems_ : Z;
  cur_idx_ : Z
}.

(** [Decode<CppType>(&data_[kPlainBlockHeaderSize + i * size_of_type])]. *)
Definition elem (d : t) (i : Z) : Z := nth (Z.to_nat i) (data_ d) 0%Z.

(** [ParseHeader] accepts a block only when its size is the header plus
    [num_elems_] elements. *)
Definition parsed (d : t) : Prop := num_elems_ d = Z.of_nat (length (data_ d)).

Inductive SearchExit : Type :=
| Exact (mid : Z)
| Exhausted (at_left : Z).

(** The [while (left != right)] loop, [lo] and [hi] being [left] and
    [right]; one unit of [fuel] per test of the loop condition. *)
Fixpoint search (fuel : nat) (d : t) (target lo hi : Z) : option SearchExit :=
  match fuel with
  | O => None
  | S fuel' =>
      if (lo =? hi)%Z then Some (Exhausted lo)
      else
        let mid := (uint32 (lo + hi) / 2)%Z in
        let mid_key := elem d mid in
        if (mid_key <? target)%Z then search fuel' d target (uint32 (mid + 1)) hi
        else if (target <? mid_key)%Z then search fuel' d target lo mid
             else Some (Exact mid)
  end.

Record SeekOutcome : Type := mkOutcome {
  seek_status : Status;
  decoder : t;
  exact_match : bool
}.

Definition set_cur_idx (d : t) (i : Z) : t :=
  {| data_ := data_ d; num_elems_ := num_elems_ d; cur_idx_ := i |}.

Definition SeekAtOrAfterValue (fuel : nat) (d : t) (target : Z) : option SeekOutcome :=
  match search fuel d target 0%Z (num_elems_ d) with
  | None => None
  | Some (Exact mid) => Some (mkOutcome OK (set_cur_idx d mid) true)
  | Some (Exhausted l) =>
      if (l =? num_elems_ d)%Z
      then Some (mkOutcome NotFound (set_cur_idx d l) false)
      else Some (mkOutcome OK (set_cur_idx d l) false)
  end.

(** Fuel that suffices for any block: the search interval shrinks at every
    iteration. *)
Definition seek_fuel (d : t) : nat := S (length (data_ d)).

(** The block is in sorted order (duplicates allowed). *)
Fixpoint sorted (l : list Z) : bool :=
  match l with
  | [] => true
  | x :: r =>
      match r with
      | [] => true
      | y :: _ => (x <=? y)%Z && sorted r
      end
  end.

Fixpoint strictly_sorted (l : list Z) : bool :=
  match l with
  | [] => true
  | x :: r =>
      match r with
      | [] => true
      | y :: _ => (x <? y)%Z && strictly_sorted r
      end
  end.

End PlainBlockDecoder.

(* ===================================================================== *)
(** ** The SubDocKey encoding *)
(* ===================================================================== *)

Module SubDocKeyEncoding.
Section Encoding.

(** Modelled from the spec: doc_key.cc is not among the sources.  A
    SubDocKey is the tuple (DocKey, sub-path components, optional
    DocHybridTime); its encoding is the concatenation of the encodings of
    the DocKey and of each component by the typed value encoders, with the
    DocHybridTime appended as a suffix. *)
Variables DocKey SubKey : Type.
Variable DocKey_CompareTo : DocKey -> DocKey -> comparison.
Variable SubKey_CompareTo : SubKey -> SubKey -> comparison.
Variable DocKey_Encode : DocKey -> list byte.
Variable SubKey_Encode : SubKey -> list byte.

Record SubDocKey : Type := mkSubDocKey {
  doc_key : DocKey;
  subkeys : list SubKey;
  doc_ht : option DocHybridTime
}.

Definition EncodeHybridTime (t : option DocHybridTime) : list byte :=
  match t with
  | Some d => kHybridTime :: DocHybridTime_EncodedInDocDbFormat d
  | None => []
  end.

(** Modelled from the spec: [SubDocKey::Encode(include_hybrid_time)]. *)
Definition Encode (k : SubDocKey) (include_hybrid_time : bool) : list byte :=
  DocKey_Encode (doc_key k)
  ++ concat (map SubKey_Encode (subkeys k))
  ++ (if include_hybrid_time then EncodeHybridTime (doc_ht k) else []).

(** The order on sub-paths: component by component, a path before its
    extensions (document-tree pre-order). *)
Fixpoint CompareSubKeys (p q : list SubKey) : comparison :=
  match p, q with
  | [], [] => Eq
  | [], _ :: _ => Lt
  | _ :: _, [] => Gt
  | x :: p', y :: q' =>
      match SubKey_CompareTo x y with
      | Eq => CompareSubKeys p' q'
      | c => c
      end
  end.

(** Reverse time: the most recent version first; a key without a
    timestamp before every version. *)
Definition CompareHybridTimeReverse (s t : option DocHybridTime) : comparison :=
  match s, t with
  | None, None => Eq
  | None, Some _ => Lt
  | Some _, None => Gt
  | Some a, Some b => DocHybridTime_compare b a
  end.

(** The (DocKey, path, reverse-DocHybridTime) order. *)
Definition CompareTo (a b : SubDocKey) : comparison :=
  match DocKey_CompareTo (doc_key a) (doc_key b) with
  | Eq =>
      match CompareSubKeys (subkeys a) (subkeys b) with
      | Eq => CompareHybridTimeReverse (doc_ht a) (doc_ht b)
      | c => c
      end
  | c => c
  end.

Definition SubDocKey_valid (k : SubDocKey) : Prop :=
  match doc_ht k with
  | Some d => DocHybridTime_valid d
  | None => True
  end.

End Encoding.

Arguments mkSubDocKey {DocKey SubKey} doc_key subkeys doc_ht.
Arguments doc_key {DocKey SubKey} s.
Arguments subkeys {DocKey SubKey} s.
Arguments doc_ht {DocKey SubKey} s.
Arguments Encode {DocKey SubKey} DocKey_Encode SubKey_Encode k include_hybrid_time.
Arguments CompareSubKeys {SubKey} SubKey_CompareTo p q.
Arguments CompareTo {DocKey SubKey} DocKey_CompareTo SubKey_CompareTo a b.
Arguments SubDocKey_valid {DocKey SubKey} k.

End SubDocKeyEncoding.

(* ===================================================================== *)
(** ** Sample data for the examples *)
(* ===================================================================== *)

(** Sample keyspaces used by the examples below. *)
Definition sample_abc : list (list byte * list byte) :=
  [ (["a"%byte], ["1"%byte]);
    (["b"%byte], ["2"%byte]);
    (["c"%byte], ["3"%byte]);
    (["d"%byte], ["4"%byte]) ].

Definition sample_iter (p : nat) : Iterator :=
  {| entries := sample_abc; pos := p; calls := [] |}.

(** The first probe key of [SeekToValidKvAtTs]: the search key followed by
    the read time with the maximum write id. *)
Definition seek_probe (search_key : list byte) (ht : HybridTime) : list byte :=
  AppendDocHybridTime {| hybrid_time := ht; write_id := kMaxWriteId |} search_key.

(** A small codec for the examples.  The DocKey and sub-path prefix of a key
    is every byte before the first [kHybridTime] tag and is kept as it is; a
    stored value is an optional TTL field (the tag "t" and one byte) followed
    by the payload. *)
Inductive SampleValue : Type :=
| SampleTombstone
| SamplePayload (payload : list byte).

Fixpoint sample_path_length (k : list byte) : nat :=
  match k with
  | [] => 0
  | b :: r => if Byte.eqb b kHybridTime then 0 else S (sample_path_length r)
  end.

Definition sample_kMaxTtl : MonoDelta := (2 ^ 63 - 1)%Z.

Definition sample_codec : DocDBCodec :=
  {| DocPath := list byte;
     DecodeDocPath := fun k =>
       Some (firstn (sample_path_length k) k, sample_path_length k);
     Value := SampleValue;
     Tombstone := SampleTombstone;
     kMaxTtl := sample_kMaxTtl;
     Value_DecodeTTL := fun v =>
       match v with
       | "t"%byte :: n :: rest => Some (Slice.byte_val n, rest)
       | _ => Some (sample_kMaxTtl, v)
       end;
     Value_Decode := fun v => Some (SamplePayload v) |}.

Definition at_time (t : Z) : DocHybridTime := {| hybrid_time := t; write_id := 0%Z |}.

(** Versions of the key "k" written at times 20, 10 and 5, between a version
    of "j" and one of "l". *)
Definition sample_versions : list (list byte * list byte) :=
  [ (AppendDocHybridTime (at_time 7) ["j"%byte], ["0"%byte]);
    (AppendDocHybridTime (at_time 20) ["k"%byte], ["c"%byte]);
    (AppendDocHybridTime (at_time 10) ["k"%byte], ["b"%byte]);
    (AppendDocHybridTime (at_time 5) ["k"%byte], ["a"%byte]);
    (AppendDocHybridTime (at_time 30) ["l"%byte], ["9"%byte]) ].

Definition sample_versions_iter : Iterator :=
  {| entries := sample_versions; pos := 0; calls := [] |}.

Definition sample_found_key0 : @SubDocKey sample_codec :=
  @mkSubDocKey sample_codec ([] : list byte) None.

Definition sample_key_at (p : list byte) (t : Z) : @SubDocKey sample_codec :=
  @mkSubDocKey sample_codec p (Some (at_time t)).

(** The value written at time 100 with a TTL of 50. *)
Definition sample_ttl_iter : Iterator :=
  {| entries := [ (AppendDocHybridTime (at_time 100) ["k"%byte],
                   ["t"%byte; "2"%byte; "v"%byte]) ];
     pos := 0; calls := [] |}.

(** The keyspace of the comment in [SeekToValidKvAtTs]: no init marker for
    "a", a.b written at 20 and a.c written at 10. *)
Definition sample_subdocument_iter : Iterator :=
  {| entries := [ (AppendDocHybridTime (at_time 20) ["a"%byte; "b"%byte], ["x"%byte]);
                  (AppendDocHybridTime (at_time 10) ["a"%byte; "c"%byte], ["y"%byte]) ];
     pos := 0; calls := [] |}.

(** Plain blocks. *)
Definition sample_block : PlainBlockDecoder.t :=
  PlainBlockDecoder.mk [1; 3; 5; 7]%Z 4%Z 0%Z.

Definition sample_block_with_duplicates : PlainBlockDecoder.t :=
  PlainBlockDecoder.mk [5; 5; 5]%Z 3%Z 0%Z.

(** Sample typed value encoders: a DocKey is one byte followed by the group
    end "!", a sub-path component is the tag "$" followed by one byte. *)
Definition sample_DocKey_Encode (k : byte) : list byte := [k; "!"%byte].
Definition sample_SubKey_Encode (s : byte) : list byte := ["$"%byte; s].

Definition sample_subdoc_key (k : byte) (p : list byte) (t : option Z)
  : SubDocKeyEncoding.SubDocKey byte byte :=
  SubDocKeyEncoding.mkSubDocKey k p (option_map at_time t).

(* ===================================================================== *)
(** * Facts about byte strings *)
(* ===================================================================== *)

Module SliceFacts.
Import Slice.

Lemma byte_val_range (b : byte) : (0 <= byte_val b < 256)%Z.
Proof.
  unfold byte_val. pose proof (Byte.to_N_bounded b). lia.
Qed.

Lemma byte_val_inj (a b : byte) : byte_val a = byte_val b -> a = b.
Proof.
  unfold byte_val. intros H.
  apply N2Z.inj in H.
  assert (Some a = Some b) as E.
  { rewrite <- (Byte.of_to_N a), <- (Byte.of_to_N b), H. reflexivity. }
  now inversion E.
Qed.

Lemma byte_cmp_refl (x : byte) : byte_cmp x x = Eq.
Proof. apply Z.compare_refl. Qed.

Lemma byte_cmp_eq (x y : byte) : byte_cmp x y = Eq -> x = y.
Proof. unfold byte_cmp. intros H. apply Z.compare_eq in H. now apply byte_val_inj. Qed.

Lemma byte_cmp_antisym (x y : byte) : byte_cmp y x = CompOpp (byte_cmp x y).
Proof. apply Z.compare_antisym. Qed.

Lemma compare_refl (a : list byte) : compare a a = Eq.
Proof. induction a as [|x a IH]; simpl; [|rewrite byte_cmp_refl]; auto. Qed.

Lemma compare_eq (a : list byte) : forall b, compare a b = Eq -> a = b.
Proof.
  induction a as [|x a IH]; intros [|y b]; simpl; try discriminate; auto.
  destruct (byte_cmp x y) eqn:E; try discriminate.
  intros H. apply byte_cmp_eq in E. f_equal; auto.
Qed.

Lemma compare_antisym (a : list byte) : forall b, compare b a = CompOpp (compare a b).
Proof.
  induction a as [|x a IH]; intros [|y b]; simpl; auto.
  rewrite (byte_cmp_antisym x y).
  destruct (byte_cmp x y); simpl; auto.
Qed.

Lemma compare_gt_lt (a b : list byte) : compare a b = Gt <-> compare b a = Lt.
Proof.
  rewrite (compare_antisym a b). destruct (compare a b); simpl; split; congruence.
Qed.

Lemma compare_lt_trans (a : list byte) :
  forall b c, compare a b = Lt -> compare b c = Lt -> compare a c = Lt.
Proof.
  induction a as [|x a IH]; intros [|y b] [|z c]; simpl; try discriminate; auto.
  unfold byte_cmp.
  destruct (Z.compare_spec (byte_val x) (byte_val y)) as [E1|L1|G1]; try discriminate;
    destruct (Z.compare_spec (byte_val y) (byte_val z)) as [E2|L2|G2]; try discriminate;
    intros H1 H2.
  - rewrite E1, E2, Z.compare_refl. eauto.
  - rewrite E1. apply Z.compare_lt_iff in L2. now rewrite L2.
  - rewrite <- E2. apply Z.compare_lt_iff in L1. now rewrite L1.
  - assert (byte_val x < byte_val z)%Z as L by lia.
    apply Z.compare_lt_iff in L. now rewrite L.
Qed.

Lemma compare_le_lt_trans (a b c : list byte) :
  compare a b <> Gt -> compare b c = Lt -> compare a c = Lt.
Proof.
  intros H1 H2. destruct (compare a b) eqn:E; try congruence.
  - apply compare_eq in E. now subst.
  - eapply compare_lt_trans; eauto.
Qed.

Lemma compare_lt_le_trans (a b c : list byte) :
  compare a b = Lt -> compare b c <> Gt -> compare a c = Lt.
Proof.
  intros H1 H2. destruct (compare b c) eqn:E; try congruence.
  - apply compare_eq in E. now subst.
  - eapply compare_lt_trans; eauto.
Qed.

Lemma compare_le_trans (a b c : list byte) :
  compare a b <> Gt -> compare b c <> Gt -> compare a c <> Gt.
Proof.
  intros H1 H2. destruct (compare a b) eqn:E; try congruence.
  - apply compare_eq in E. now subst.
  - rewrite (compare_lt_le_trans a b c E H2). discriminate.
Qed.

Lemma compare_lt_irrefl (a : list byte) : compare a a <> Lt.
Proof. rewrite compare_refl. discriminate. Qed.

(** A common prefix does not take part in the comparison. *)
Lemma compare_app (p a b : list byte) : compare (p ++ a) (p ++ b) = compare a b.
Proof. induction p as [|x p IH]; simpl; auto. now rewrite byte_cmp_refl. Qed.

Lemma compare_nil_l (a : list byte) : compare [] a <> Gt.
Proof. destruct a; simpl; discriminate. Qed.

Lemma compare_app_nil (a b : list byte) : compare a (a ++ b) <> Gt.
Proof.
  rewrite <- (app_nil_r a) at 1. rewrite compare_app. apply compare_nil_l.
Qed.

Lemma starts_with_app (p r : list byte) : starts_with (p ++ r) p = true.
Proof.
  induction p as [|x p IH]; simpl; auto.
  rewrite IH, (Byte.byte_dec_lb (eq_refl x)). reflexivity.
Qed.

Lemma starts_with_inv (p : list byte) :
  forall a, starts_with a p = true -> exists r, a = p ++ r.
Proof.
  induction p as [|y p IH]; intros a H; simpl in *.
  - now exists a.
  - destruct a as [|x a]; try discriminate.
    apply andb_true_iff in H as [H1 H2].
    apply Byte.byte_dec_bl in H1. subst.
    destruct (IH _ H2) as [r ->]. now exists r.
Qed.

Lemma starts_with_trans (a p q : list byte) :
  starts_with a p = true -> starts_with p q = true -> starts_with a q = true.
Proof.
  intros H1 H2.
  apply starts_with_inv in H1 as [r ->]. apply starts_with_inv in H2 as [s ->].
  rewrite <- app_assoc. apply starts_with_app.
Qed.

(** A string between two strings with a common prefix has that prefix. *)
Lemma between_starts_with (p : list byte) :
  forall x y k,
    compare (p ++ x) k <> Gt -> compare k (p ++ y) <> Gt ->
    starts_with k p = true.
Proof.
  induction p as [|b p IH]; intros x y k H1 H2; simpl in *; auto.
  destruct k as [|c k]; simpl in *; try congruence.
  unfold byte_cmp in *.
  destruct (Z.compare_spec (byte_val b) (byte_val c)) as [E|L|G]; try congruence.
  - apply byte_val_inj in E. subst c.
    rewrite Z.compare_refl in H2.
    rewrite (Byte.byte_dec_lb (eq_refl b)). simpl. eauto.
  - assert ((byte_val c ?= byte_val b)%Z = Gt) as E by (apply Z.compare_gt_iff; lia).
    rewrite E in H2. congruence.
Qed.

(** Strings of the same length compare as their extensions do. *)
Lemma compare_app_same_length (a : list byte) :
  forall b x y, length a = length b -> compare a b <> Eq ->
    compare (a ++ x) (b ++ y) = compare a b.
Proof.
  induction a as [|c a IH]; intros [|d b] x y Hl Hne; simpl in *; try discriminate;
    try congruence.
  destruct (byte_cmp c d); auto.
Qed.

Lemma ge0_not_lt (c : comparison) : ge0 c = true <-> c <> Lt.
Proof. destruct c; simpl; split; congruence. Qed.

Lemma lt0_lt (c : comparison) : lt0 c = true <-> c = Lt.
Proof. destruct c; simpl; split; congruence. Qed.

Lemma gt0_gt (c : comparison) : gt0 c = true <-> c = Gt.
Proof. destruct c; simpl; split; congruence. Qed.

End SliceFacts.

(* ===================================================================== *)
(** * Facts about the iterator *)
(* ===================================================================== *)

Section IteratorFacts.
Import Slice SliceFacts.

Lemma ordered_tail e r : ordered (e :: r) = true -> ordered r = true.
Proof.
  simpl. destruct r; auto. intros H. now apply andb_true_iff in H.
Qed.

Lemma ordered_head_lt e r :
  ordered (e :: r) = true ->
  forall e', In e' r -> compare (fst e) (fst e') = Lt.
Proof.
  revert e. induction r as [|e1 r IH]; intros e H e' Hin; simpl in Hin; [tauto|].
  simpl in H. apply andb_true_iff in H as [H1 H2]. apply lt0_lt in H1.
  destruct Hin as [->|Hin]; auto.
  eapply compare_lt_trans; eauto.
Qed.

Lemma lower_bound_le_length l k : lower_bound l k <= length l.
Proof.
  induction l as [|e r IH]; simpl; auto.
  destruct (lt0 (compare (fst e) k)); lia.
Qed.

(** Every entry before the lower bound is strictly before the target. *)
Lemma lower_bound_before l k :
  forall i e, nth_error l i = Some e -> i < lower_bound l k ->
              compare (fst e) k = Lt.
Proof.
  induction l as [|e0 r IH]; intros i e Hn Hi; simpl in *; [lia|].
  destruct (lt0 (compare (fst e0) k)) eqn:E; [|lia].
  destruct i as [|i]; simpl in Hn.
  - inversion Hn; subst. now apply lt0_lt.
  - apply (IH i); auto. lia.
Qed.

(** The entry at the lower bound is at or past the target. *)
Lemma lower_bound_at l k :
  forall e, nth_error l (lower_bound l k) = Some e -> compare (fst e) k <> Lt.
Proof.
  induction l as [|e0 r IH]; intros e Hn; simpl in *; [discriminate|].
  destruct (lt0 (compare (fst e0) k)) eqn:E; simpl in Hn; auto.
  inversion Hn; subst. intros C. apply lt0_lt in C. congruence.
Qed.

Lemma lower_bound_sorted_lt l k :
  ordered l = true ->
  forall i e, nth_error l i = Some e -> compare (fst e) k = Lt ->
              i < lower_bound l k.
Proof.
  induction l as [|e0 r IH]; intros Ho i e Hn Hc; [destruct i; discriminate|].
  assert (compare (fst e0) k = Lt) as H0.
  { destruct i as [|i]; simpl in Hn.
    - now inversion Hn; subst.
    - apply nth_error_In in Hn.
      eapply compare_lt_trans; [eapply ordered_head_lt; eauto|auto]. }
  simpl. apply lt0_lt in H0. rewrite H0.
  destruct i as [|i]; [lia|]. simpl in Hn.
  apply ordered_tail in Ho. specialize (IH Ho i e Hn Hc). lia.
Qed.

Lemma lower_bound_sorted_le l k :
  ordered l = true ->
  forall i e, nth_error l i = Some e -> compare (fst e) k <> Gt ->
              i <= lower_bound l k.
Proof.
  induction l as [|e0 r IH]; intros Ho i e Hn Hc; [destruct i; discriminate|].
  destruct i as [|i]; [lia|]. simpl in Hn.
  assert (compare (fst e0) k = Lt) as H0.
  { apply nth_error_In in Hn.
    eapply compare_lt_le_trans; [eapply ordered_head_lt; eauto|auto]. }
  simpl. apply lt0_lt in H0. rewrite H0.
  apply ordered_tail in Ho. specialize (IH Ho i e Hn Hc). lia.
Qed.

Lemma lower_bound_nil l : lower_bound l [] = 0.
Proof.
  destruct l as [|e r]; simpl; auto.
  destruct (fst e); reflexivity.
Qed.

Lemma Valid_entry it :
  Valid it = true ->
  exists e, nth_error (entries it) (pos it) = Some e
            /\ key it = fst e /\ value it = snd e.
Proof.
  unfold Valid, key, value. intros H. apply Nat.ltb_lt in H.
  destruct (nth_error (entries it) (pos it)) as [e|] eqn:E.
  - exists e. auto.
  - apply nth_error_None in E. lia.
Qed.

Lemma Valid_false_pos it : Valid it = false -> length (entries it) <= pos it.
Proof. unfold Valid. intros H. now apply Nat.ltb_ge in H. Qed.

Lemma iter_Next_entries n it : entries (Nat.iter n Next it) = entries it.
Proof. induction n; simpl; auto. Qed.

Lemma iter_Next_pos n it : pos (Nat.iter n Next it) = n + pos it.
Proof. induction n; simpl; auto. Qed.

Lemma next_loop_entries b : forall it k, entries (next_loop b it k) = entries it.
Proof.
  induction b as [|b IH]; intros it k; simpl;
    destruct (negb (Valid it) || ge0 (compare (key it) k)); auto.
  now rewrite IH.
Qed.

Lemma PerformRocksDBSeek_entries m it k :
  entries (PerformRocksDBSeek m it k) = entries it.
Proof.
  unfold PerformRocksDBSeek.
  destruct (length k =? 0); auto.
  destruct (negb (Valid it) || gt0 (compare (key it) k)); auto.
  destruct (m <? 0)%Z; auto. apply next_loop_entries.
Qed.

(** Stepping from a position at or before the lower bound stops exactly at
    the lower bound, with or without the final [Seek]. *)
Lemma next_loop_pos b :
  forall it k,
    ordered (entries it) = true ->
    pos it <= lower_bound (entries it) k ->
    pos (next_loop b it k) = lower_bound (entries it) k.
Proof.
  induction b as [|b IH]; intros it k Ho Hp; simpl.
  all: destruct (Valid it) eqn:V; simpl.
  all: try (apply Valid_false_pos in V;
            pose proof (lower_bound_le_length (entries it) k); lia).
  all: destruct (Valid_entry it V) as (e & Hn & Hk & _).
  all: destruct (ge0 (compare (key it) k)) eqn:G; auto.
  all: try (apply ge0_not_lt in G;
            destruct (Nat.eq_dec (pos it) (lower_bound (entries it) k)); auto;
            exfalso; apply G; rewrite Hk;
            apply (lower_bound_before (entries it) k _ _ Hn); lia).
  assert (compare (key it) k = Lt) as L by (destruct (compare (key it) k); simpl in G; congruence).
  rewrite IH; simpl; auto.
  rewrite Hk in L. pose proof (lower_bound_sorted_lt _ k Ho _ _ Hn L). lia.
Qed.

Lemma PerformRocksDBSeek_pos m it k :
  ordered (entries it) = true -> (0 <= m)%Z ->
  pos (PerformRocksDBSeek m it k) = lower_bound (entries it) k.
Proof.
  intros Ho Hm. unfold PerformRocksDBSeek.
  destruct k as [|c k'] eqn:K; simpl length; cbv iota beta.
  - simpl. now rewrite lower_bound_nil.
  - change (S (length k') =? 0) with false. cbv iota.
    destruct (Valid it) eqn:V; simpl; auto.
    destruct (gt0 (compare (key it) (c :: k'))) eqn:G; auto.
    destruct (m <? 0)%Z eqn:M; [apply Z.ltb_lt in M; lia|].
    apply next_loop_pos; auto.
    destruct (Valid_entry it V) as (e & Hn & Hk & _).
    apply (lower_bound_sorted_le _ (c :: k') Ho _ _ Hn).
    rewrite <- Hk. intros C. apply gt0_gt in C. congruence.
Qed.

Lemma same_position_same_view (a b : Iterator) :
  entries a = entries b -> pos a = pos b ->
  Valid a = Valid b /\ key a = key b /\ value a = value b.
Proof. unfold Valid, key, value. intros -> ->. auto. Qed.

End IteratorFacts.

(* ===================================================================== *)
(** * [PerformRocksDBSeek] and [SeekForward]: results *)
(* ===================================================================== *)

Section SeekFacts.
Import Slice SliceFacts.

(** C3.  On the keyspace of an engine iterator (strictly increasing keys)
    and with a non-negative step bound, [PerformRocksDBSeek] leaves the
    iterator where a single native [Seek(seek_key)] leaves it, whatever
    branch is taken and whether or not the step budget is exhausted: same
    position, same validity, same current key and value. *)
Theorem PerformRocksDBSeek_same_position_as_Seek
        (max_nexts : Z) (it : Iterator) (seek_key : list byte) :
  ordered (entries it) = true ->
  (0 <= max_nexts)%Z ->
  let r := PerformRocksDBSeek max_nexts it seek_key in
  let s := Seek it seek_key in
  entries r = entries s /\ pos r = pos s /\
  Valid r = Valid s /\ key r = key s /\ value r = value s.
Proof.
  intros Ho Hm r s.
  assert (entries r = entries s) as He
      by (unfold r, s; now rewrite PerformRocksDBSeek_entries).
  assert (pos r = pos s) as Hp
      by (unfold r, s; now rewrite PerformRocksDBSeek_pos).
  pose proof (same_position_same_view r s He Hp). tauto.
Qed.

Lemma PerformRocksDBSeek_same_position_as_Seek_witness :
  (pos (PerformRocksDBSeek 1 (sample_iter 0) ["d"%byte]) = 3
   /\ calls (PerformRocksDBSeek 1 (sample_iter 0) ["d"%byte])
      = [CallNext; CallSeek ["d"%byte]])
  /\ pos (PerformRocksDBSeek 1 (sample_iter 0) ["d"%byte])
     = pos (Seek (sample_iter 0) ["d"%byte]).
Proof.
  split; [split; reflexivity|].
  apply (PerformRocksDBSeek_same_position_as_Seek 1 (sample_iter 0) ["d"%byte]).
  - reflexivity.
  - lia.
Defined.

(** With a negative [FLAGS_max_nexts_to_avoid_seek] the loop is not
    entered: a valid iterator at or before a non-empty seek key is left as
    it is, without an engine call. *)
Lemma PerformRocksDBSeek_negative_flag m it k :
  (m < 0)%Z -> Valid it = true -> k <> [] -> compare (key it) k <> Gt ->
  PerformRocksDBSeek m it k = it.
Proof.
  intros Hm V Hk C. unfold PerformRocksDBSeek.
  destruct k as [|b k]; [congruence|]. cbn [length Nat.eqb]. rewrite V.
  assert (gt0 (compare (key it) (b :: k)) = false) as ->
      by (destruct (compare (key it) (b :: k)); simpl; congruence).
  cbn [negb orb]. destruct (Z.ltb_spec m 0); [reflexivity|lia].
Qed.

(** C3 as stated fails: the flag is a signed integer, and with a negative
    value an iterator before the seek key stays where it is, while a native
    [Seek] moves it to the key. *)
Lemma PerformRocksDBSeek_negative_flag_differs_from_Seek :
  ordered (entries (sample_iter 0)) = true
  /\ pos (PerformRocksDBSeek (-1) (sample_iter 0) ["c"%byte]) = 0
  /\ key (PerformRocksDBSeek (-1) (sample_iter 0) ["c"%byte]) = ["a"%byte]
  /\ pos (Seek (sample_iter 0) ["c"%byte]) = 2
  /\ key (Seek (sample_iter 0) ["c"%byte]) = ["c"%byte].
Proof. repeat split. Qed.

Lemma next_loop_steps b :
  forall it k,
  exists n,
    n <= b
    /\ (forall j, j < n ->
          Valid (Nat.iter j Next it) = true
          /\ compare (key (Nat.iter j Next it)) k = Lt)
    /\ ((( Valid (Nat.iter n Next it) = false
           \/ compare (key (Nat.iter n Next it)) k <> Lt)
         /\ next_loop b it k = Nat.iter n Next it)
        \/ (n = b
            /\ Valid (Nat.iter n Next it) = true
            /\ compare (key (Nat.iter n Next it)) k = Lt
            /\ next_loop b it k = Seek (Nat.iter n Next it) k)).
Proof.
  induction b as [|b IH]; intros it k; simpl.
  - exists 0. simpl. split; [lia|]. split; [intros; lia|].
    destruct (Valid it) eqn:V; simpl; [|left; auto].
    destruct (compare (key it) k) eqn:C; simpl;
      [left; split; [right; congruence|auto] | right; auto
      | left; split; [right; congruence|auto]].
  - destruct (Valid it) eqn:V; simpl.
    2:{ exists 0. simpl. split; [lia|]. split; [intros; lia|]. left. auto. }
    destruct (compare (key it) k) eqn:C; simpl.
    1,3: exists 0; simpl; split; [lia|]; split; [intros; lia|];
         left; split; [right; congruence|auto].
    destruct (IH (Next it) k) as (n & Hn & Hall & Hend).
    exists (S n). split; [lia|]. split.
    + intros [|j] Hj; [simpl; auto|].
      rewrite Nat.iter_succ_r. apply Hall. lia.
    + rewrite !Nat.iter_succ_r.
      destruct Hend as [H|(-> & H)]; [left|right]; auto.
Qed.

(** C4 (amended).  [PerformRocksDBSeek] has three branches.  An empty seek
    key repositions to the first key.  Otherwise, an iterator that is
    invalid or positioned strictly after the seek key is sought natively at
    once.  Otherwise (valid and at or before the seek key) the iterator is
    advanced [n <= max_nexts] times by [Next], every position passed being
    strictly before the seek key, and the loop stops either at the first
    position that is invalid or at or past the seek key, or, with the
    budget used up ([n = max_nexts]) and the target not reached, with
    exactly one native seek. *)
Theorem PerformRocksDBSeek_three_branches
        (max_nexts : Z) (it : Iterator) (seek_key : list byte) :
  (0 <= max_nexts)%Z ->
  (seek_key = [] -> PerformRocksDBSeek max_nexts it seek_key = SeekToFirst it)
  /\ (seek_key <> [] ->
      Valid it = false \/ compare (key it) seek_key = Gt ->
      PerformRocksDBSeek max_nexts it seek_key = Seek it seek_key)
  /\ (seek_key <> [] ->
      Valid it = true -> compare (key it) seek_key <> Gt ->
      exists n,
        (Z.of_nat n <= max_nexts)%Z
        /\ (forall j, j < n ->
              Valid (Nat.iter j Next it) = true
              /\ compare (key (Nat.iter j Next it)) seek_key = Lt)
        /\ ((( Valid (Nat.iter n Next it) = false
               \/ compare (key (Nat.iter n Next it)) seek_key <> Lt)
             /\ PerformRocksDBSeek max_nexts it seek_key = Nat.iter n Next it)
            \/ (Z.of_nat n = max_nexts
                /\ Valid (Nat.iter n Next it) = true
                /\ compare (key (Nat.iter n Next it)) seek_key = Lt
                /\ PerformRocksDBSeek max_nexts it seek_key
                   = Seek (Nat.iter n Next it) seek_key))).
Proof.
  intros Hm. unfold PerformRocksDBSeek. repeat split.
  - intros ->. reflexivity.
  - intros Hne H. destruct seek_key as [|c k]; [congruence|]. simpl length.
    change (S (length k) =? 0) with false. cbv iota.
    destruct H as [->| ->]; simpl; auto. now rewrite orb_true_r.
  - intros Hne V C. destruct seek_key as [|c k]; [congruence|]. simpl length.
    change (S (length k) =? 0) with false. cbv iota.
    rewrite V. simpl negb. cbv iota.
    assert (gt0 (compare (key it) (c :: k)) = false) as G
        by (destruct (compare (key it) (c :: k)); simpl; congruence).
    rewrite G. simpl orb. cbv iota.
    destruct (max_nexts <? 0)%Z eqn:M; [apply Z.ltb_lt in M; lia|].
    destruct (next_loop_steps (Z.to_nat max_nexts) it (c :: k))
      as (n & Hn & Hall & Hend).
    exists n. split; [lia|]. split; [exact Hall|].
    destruct Hend as [H|(Hb & H)]; [left; exact H|right].
    split; [lia|exact H].
Qed.

Lemma PerformRocksDBSeek_three_branches_witness :
  PerformRocksDBSeek 8 (sample_iter 2) ["a"%byte] = Seek (sample_iter 2) ["a"%byte].
Proof.
  apply (PerformRocksDBSeek_three_branches 8 (sample_iter 2) ["a"%byte]).
  - lia.
  - discriminate.
  - right. reflexivity.
Defined.

(** C4 as stated fails: an iterator positioned before a non-empty seek key
    is not sought natively at once, it is stepped; and one positioned
    after the seek key is not stepped, it is sought at once. *)
Lemma PerformRocksDBSeek_at_or_before_is_stepped :
  (["c"%byte] <> []
   /\ Valid (sample_iter 0) = true
   /\ compare (key (sample_iter 0)) ["c"%byte] = Lt
   /\ calls (PerformRocksDBSeek default_max_nexts_to_avoid_seek (sample_iter 0) ["c"%byte])
      = [CallNext; CallNext]
   /\ PerformRocksDBSeek default_max_nexts_to_avoid_seek (sample_iter 0) ["c"%byte]
      <> Seek (sample_iter 0) ["c"%byte])
  /\ (Valid (sample_iter 2) = true
      /\ compare (key (sample_iter 2)) ["a"%byte] = Gt
      /\ calls (PerformRocksDBSeek default_max_nexts_to_avoid_seek (sample_iter 2) ["a"%byte])
         = [CallSeek ["a"%byte]]).
Proof.
  repeat split; try reflexivity; discriminate.
Qed.

Lemma next_loop_pos_ge b :
  forall it k, ordered (entries it) = true -> pos it <= pos (next_loop b it k).
Proof.
  induction b as [|b IH]; intros it k Ho; simpl.
  all: destruct (Valid it) eqn:V; simpl; auto.
  all: destruct (compare (key it) k) eqn:C; simpl; auto.
  - destruct (Valid_entry it V) as (e & Hn & Hk & _). rewrite Hk in C.
    pose proof (lower_bound_sorted_lt _ k Ho _ _ Hn C). lia.
  - specialize (IH (Next it) k Ho). simpl in IH. lia.
Qed.

(** C7.  [SeekForward] never moves the iterator backward.  With the
    iterator at a key at or after the target the call changes nothing; it
    calls the engine seek only when the iterator is valid and its key is
    strictly before the target; and the position after the call is never
    before the position before it. *)
Theorem SeekForward_never_moves_backward
        (max_nexts : Z) (target : list byte) (it : Iterator) :
  ordered (entries it) = true ->
  (Valid it = true -> compare (key it) target <> Lt ->
   SeekForward max_nexts target it = it)
  /\ (SeekForward max_nexts target it <> it ->
      Valid it = true /\ compare (key it) target = Lt
      /\ SeekForward max_nexts target it = ROCKSDB_SEEK max_nexts it target)
  /\ pos it <= pos (SeekForward max_nexts target it).
Proof.
  intros Ho. unfold SeekForward. repeat split.
  - intros V C. rewrite V. simpl.
    destruct (compare (key it) target); simpl; congruence.
  - destruct (Valid it); simpl in *; congruence.
  - destruct (Valid it); simpl in *; try congruence.
    destruct (compare (key it) target); simpl in *; congruence.
  - destruct (Valid it); simpl in *; try congruence.
    destruct (compare (key it) target); simpl in *; congruence.
  - destruct (Valid it) eqn:V; simpl; auto.
    destruct (compare (key it) target) eqn:C; simpl; auto.
    unfold ROCKSDB_SEEK, PerformRocksDBSeek.
    destruct target as [|c t].
    { destruct (key it); simpl in C; discriminate. }
    simpl length. change (S (length t) =? 0) with false. cbv iota.
    rewrite V, C. simpl.
    destruct (max_nexts <? 0)%Z; auto.
    now apply next_loop_pos_ge.
Qed.

Lemma SeekForward_never_moves_backward_witness :
  SeekForward 8 ["b"%byte] (sample_iter 2) = sample_iter 2
  /\ pos (sample_iter 1) <= pos (SeekForward 8 ["d"%byte] (sample_iter 1)).
Proof.
  split.
  - apply (SeekForward_never_moves_backward 8 ["b"%byte] (sample_iter 2));
      [reflexivity|reflexivity|discriminate].
  - apply (SeekForward_never_moves_backward 8 ["d"%byte] (sample_iter 1)).
    reflexivity.
Defined.

(** C10.  On an invalid (exhausted) iterator [SeekForward] returns at once:
    no engine call is made and the iterator stays invalid, whatever the
    target and whatever keys the keyspace holds. *)
Theorem SeekForward_invalid_iterator_untouched
        (max_nexts : Z) (target : list byte) (it : Iterator) :
  Valid it = false ->
  SeekForward max_nexts target it = it
  /\ calls (SeekForward max_nexts target it) = calls it
  /\ Valid (SeekForward max_nexts target it) = false.
Proof.
  intros V. unfold SeekForward. rewrite V. simpl. auto.
Qed.

Lemma SeekForward_invalid_iterator_untouched_witness :
  Valid (sample_iter 4) = false
  /\ Valid (Seek (sample_iter 4) ["b"%byte]) = true
  /\ SeekForward 8 ["b"%byte] (sample_iter 4) = sample_iter 4.
Proof.
  split; [reflexivity|]. split; [reflexivity|].
  apply (SeekForward_invalid_iterator_untouched 8 ["b"%byte] (sample_iter 4)).
  reflexivity.
Defined.

End SeekFacts.

(* ===================================================================== *)
(** * Facts about the DocHybridTime codec *)
(* ===================================================================== *)

Section CodecFacts.
Import Slice SliceFacts.
Local Open Scope Z_scope.

Lemma byte_val_byte_of_Z (z : Z) : byte_val (byte_of_Z z) = z mod 256.
Proof.
  unfold byte_of_Z, byte_val.
  pose proof (Z.mod_pos_bound z 256 ltac:(lia)) as Hr.
  destruct (Byte.of_N (Z.to_N (z mod 256))) as [b|] eqn:E.
  - apply Byte.to_of_N in E. rewrite E. lia.
  - apply Byte.of_N_None_iff in E. lia.
Qed.

Lemma byte_of_Z_byte_val (b : byte) : byte_of_Z (byte_val b) = b.
Proof.
  apply byte_val_inj. rewrite byte_val_byte_of_Z.
  pose proof (byte_val_range b). now apply Z.mod_small.
Qed.

Lemma be_bytes_length (n : nat) : forall v, length (be_bytes n v) = n.
Proof. induction n as [|n IH]; intros v; simpl; auto. Qed.

Lemma be_value_cons (b : byte) (l : list byte) :
  be_value (b :: l) = byte_val b * 256 ^ Z.of_nat (length l) + be_value l.
Proof.
  unfold be_value. simpl.
  assert (forall l acc,
             fold_left (fun a c => a * 256 + byte_val c) l acc
             = acc * 256 ^ Z.of_nat (length l)
               + fold_left (fun a c => a * 256 + byte_val c) l 0) as G.
  { clear. induction l as [|c l IH]; intros acc.
    - simpl. lia.
    - cbn [fold_left length]. rewrite (IH (acc * 256 + byte_val c)), (IH (0 * 256 + byte_val c)).
      rewrite Nat2Z.inj_succ, Z.pow_succ_r by lia. lia. }
  apply G.
Qed.

Lemma be_value_range (l : list byte) : 0 <= be_value l < 256 ^ Z.of_nat (length l).
Proof.
  induction l as [|b l IH].
  - unfold be_value. simpl. lia.
  - rewrite be_value_cons. cbn [length].
    rewrite Nat2Z.inj_succ, Z.pow_succ_r by lia.
    pose proof (byte_val_range b). nia.
Qed.

Lemma be_value_be_bytes (n : nat) :
  forall v, 0 <= v < 256 ^ Z.of_nat n -> be_value (be_bytes n v) = v.
Proof.
  induction n as [|n IH]; intros v Hv.
  - simpl in *. unfold be_value. simpl. lia.
  - cbn [be_bytes]. rewrite be_value_cons, be_bytes_length, byte_val_byte_of_Z.
    rewrite Nat2Z.inj_succ, Z.pow_succ_r in Hv by lia.
    assert (0 < 256 ^ Z.of_nat n) as Hp by (apply Z.pow_pos_nonneg; lia).
    rewrite IH by (apply Z.mod_pos_bound; lia).
    rewrite Z.mod_small.
    + pose proof (Z.div_mod v (256 ^ Z.of_nat n)). lia.
    + split; [apply Z.div_pos; lia|apply Z.div_lt_upper_bound; lia].
Qed.

Lemma be_bytes_be_value (l : list byte) : be_bytes (length l) (be_value l) = l.
Proof.
  induction l as [|b l IH]; auto.
  cbn [length be_bytes]. rewrite be_value_cons.
  pose proof (be_value_range l) as Hr. pose proof (byte_val_range b) as Hb.
  assert (0 < 256 ^ Z.of_nat (length l)) as Hp by (apply Z.pow_pos_nonneg; lia).
  assert ((byte_val b * 256 ^ Z.of_nat (length l) + be_value l)
            / 256 ^ Z.of_nat (length l) = byte_val b) as Hq.
  { rewrite Z.add_comm, Z.div_add by lia. rewrite Z.div_small; lia. }
  assert ((byte_val b * 256 ^ Z.of_nat (length l) + be_value l)
            mod 256 ^ Z.of_nat (length l) = be_value l) as Hm.
  { rewrite Z.add_comm, Z.mod_add by lia. apply Z.mod_small; lia. }
  rewrite Hq, Hm, IH, byte_of_Z_byte_val. reflexivity.
Qed.

(** The fixed-width big-endian encoding preserves the order. *)
Lemma be_bytes_compare (n : nat) :
  forall x y, 0 <= x < 256 ^ Z.of_nat n -> 0 <= y < 256 ^ Z.of_nat n ->
              compare (be_bytes n x) (be_bytes n y) = (x ?= y).
Proof.
  induction n as [|n IH]; intros x y Hx Hy.
  - simpl in *. assert (x = y) as -> by lia. now rewrite Z.compare_refl.
  - cbn [be_bytes compare]. unfold byte_cmp. rewrite !byte_val_byte_of_Z.
    rewrite Nat2Z.inj_succ, Z.pow_succ_r in Hx, Hy by lia.
    assert (0 < 256 ^ Z.of_nat n) as Hp by (apply Z.pow_pos_nonneg; lia).
    set (P := 256 ^ Z.of_nat n) in *.
    assert (0 <= x / P < 256) as Hqx
        by (split; [apply Z.div_pos; lia|apply Z.div_lt_upper_bound; lia]).
    assert (0 <= y / P < 256) as Hqy
        by (split; [apply Z.div_pos; lia|apply Z.div_lt_upper_bound; lia]).
    rewrite !Z.mod_small by lia.
    pose proof (Z.div_mod x P ltac:(lia)) as Dx.
    pose proof (Z.div_mod y P ltac:(lia)) as Dy.
    pose proof (Z.mod_pos_bound x P Hp) as Mx.
    pose proof (Z.mod_pos_bound y P Hp) as My.
    destruct (Z.compare_spec (x / P) (y / P)) as [E|L|G].
    + rewrite IH by assumption.
      destruct (Z.compare_spec (x mod P) (y mod P)); symmetry;
        [apply Z.compare_eq_iff|apply Z.compare_lt_iff|apply Z.compare_gt_iff]; nia.
    + symmetry. apply Z.compare_lt_iff. nia.
    + symmetry. apply Z.compare_gt_iff. nia.
Qed.

Lemma pow_kHybridTimeBytes : 256 ^ Z.of_nat kHybridTimeBytes = kMaxHybridTimeValue + 1.
Proof. vm_compute. reflexivity. Qed.

Lemma pow_kWriteIdBytes : 256 ^ Z.of_nat kWriteIdBytes = kMaxWriteId + 1.
Proof. vm_compute. reflexivity. Qed.

Lemma DocHybridTime_encoded_length (d : DocHybridTime) :
  length (DocHybridTime_EncodedInDocDbFormat d) = kEncodedDocHybridTimeSize.
Proof.
  unfold DocHybridTime_EncodedInDocDbFormat.
  now rewrite length_app, !be_bytes_length.
Qed.

Lemma DocHybridTime_decode_encode (d : DocHybridTime) :
  DocHybridTime_valid d ->
  DocHybridTime_DecodeBytes (DocHybridTime_EncodedInDocDbFormat d) = d.
Proof.
  intros [Ht Hw]. destruct d as [t w]. simpl in *.
  unfold DocHybridTime_DecodeBytes, DocHybridTime_EncodedInDocDbFormat.
  cbn [hybrid_time write_id].
  rewrite firstn_app, skipn_app, be_bytes_length.
  replace (kHybridTimeBytes - kHybridTimeBytes)%nat with 0%nat by lia.
  rewrite firstn_all2 by (rewrite be_bytes_length; lia).
  rewrite skipn_all2 by (rewrite be_bytes_length; lia).
  cbn [firstn skipn app]. rewrite app_nil_r.
  rewrite !be_value_be_bytes.
  - f_equal; lia.
  - rewrite pow_kWriteIdBytes. lia.
  - rewrite pow_kHybridTimeBytes. lia.
Qed.

Lemma DocHybridTime_decode_valid (e : list byte) :
  length e = kEncodedDocHybridTimeSize ->
  DocHybridTime_valid (DocHybridTime_DecodeBytes e).
Proof.
  intros He. unfold DocHybridTime_valid, DocHybridTime_DecodeBytes.
  cbn [hybrid_time write_id].
  pose proof (be_value_range (firstn kHybridTimeBytes e)) as H1.
  pose proof (be_value_range (skipn kHybridTimeBytes e)) as H2.
  rewrite length_firstn in H1. rewrite length_skipn in H2. rewrite He in *.
  change (Nat.min kHybridTimeBytes kEncodedDocHybridTimeSize)
    with kHybridTimeBytes in H1.
  change (kEncodedDocHybridTimeSize - kHybridTimeBytes)%nat
    with kWriteIdBytes in H2.
  rewrite pow_kHybridTimeBytes in H1. rewrite pow_kWriteIdBytes in H2. lia.
Qed.

Lemma DocHybridTime_encode_decode (e : list byte) :
  length e = kEncodedDocHybridTimeSize ->
  DocHybridTime_EncodedInDocDbFormat (DocHybridTime_DecodeBytes e) = e.
Proof.
  intros He. unfold DocHybridTime_EncodedInDocDbFormat, DocHybridTime_DecodeBytes.
  cbn [hybrid_time write_id].
  replace (kMaxHybridTimeValue - (kMaxHybridTimeValue - be_value (firstn kHybridTimeBytes e)))
    with (be_value (firstn kHybridTimeBytes e)) by lia.
  replace (kMaxWriteId - (kMaxWriteId - be_value (skipn kHybridTimeBytes e)))
    with (be_value (skipn kHybridTimeBytes e)) by lia.
  assert (length (firstn kHybridTimeBytes e) = kHybridTimeBytes) as L1
      by (rewrite length_firstn, He; reflexivity).
  assert (length (skipn kHybridTimeBytes e) = kWriteIdBytes) as L2
      by (rewrite length_skipn, He; reflexivity).
  rewrite <- L1 at 1. rewrite be_bytes_be_value.
  rewrite <- L2 at 1. rewrite be_bytes_be_value.
  apply firstn_skipn.
Qed.

(** The encoding reverses the order of DocHybridTime. *)
Lemma DocHybridTime_encoding_reverses (a b : DocHybridTime) :
  DocHybridTime_valid a -> DocHybridTime_valid b ->
  compare (DocHybridTime_EncodedInDocDbFormat a) (DocHybridTime_EncodedInDocDbFormat b)
  = DocHybridTime_compare b a.
Proof.
  intros [Hta Hwa] [Htb Hwb].
  unfold DocHybridTime_EncodedInDocDbFormat, DocHybridTime_compare.
  assert (compare (be_bytes kHybridTimeBytes (kMaxHybridTimeValue - hybrid_time a))
                  (be_bytes kHybridTimeBytes (kMaxHybridTimeValue - hybrid_time b))
          = (hybrid_time b ?= hybrid_time a)) as H1.
  { rewrite be_bytes_compare.
    - destruct (Z.compare_spec (hybrid_time b) (hybrid_time a));
        [apply Z.compare_eq_iff|apply Z.compare_lt_iff|apply Z.compare_gt_iff]; lia.
    - rewrite pow_kHybridTimeBytes. lia.
    - rewrite pow_kHybridTimeBytes. lia. }
  assert (compare (be_bytes kWriteIdBytes (kMaxWriteId - write_id a))
                  (be_bytes kWriteIdBytes (kMaxWriteId - write_id b))
          = (write_id b ?= write_id a)) as H2.
  { rewrite be_bytes_compare.
    - destruct (Z.compare_spec (write_id b) (write_id a));
        [apply Z.compare_eq_iff|apply Z.compare_lt_iff|apply Z.compare_gt_iff]; lia.
    - rewrite pow_kWriteIdBytes. lia.
    - rewrite pow_kWriteIdBytes. lia. }
  destruct (hybrid_time b ?= hybrid_time a) eqn:E.
  - apply compare_eq in H1. rewrite H1, compare_app. exact H2.
  - rewrite compare_app_same_length; [exact H1| |congruence].
    now rewrite !be_bytes_length.
  - rewrite compare_app_same_length; [exact H1| |congruence].
    now rewrite !be_bytes_length.
Qed.

Lemma DocHybridTime_compare_eq (a b : DocHybridTime) :
  DocHybridTime_compare a b = Eq -> a = b.
Proof.
  unfold DocHybridTime_compare. destruct a as [ta wa], b as [tb wb]. simpl.
  destruct (Z.compare_spec ta tb) as [E| |]; try discriminate.
  intros H. apply Z.compare_eq in H. congruence.
Qed.

Lemma DocHybridTime_compare_antisym (a b : DocHybridTime) :
  DocHybridTime_compare b a = CompOpp (DocHybridTime_compare a b).
Proof.
  unfold DocHybridTime_compare.
  rewrite (Z.compare_antisym (hybrid_time a) (hybrid_time b)).
  rewrite (Z.compare_antisym (write_id a) (write_id b)).
  destruct (hybrid_time a ?= hybrid_time b); reflexivity.
Qed.

Lemma DocHybridTime_eqb_eq (a b : DocHybridTime) :
  DocHybridTime_eqb a b = true <-> a = b.
Proof.
  unfold DocHybridTime_eqb. destruct a as [ta wa], b as [tb wb]. simpl.
  rewrite andb_true_iff, !Z.eqb_eq. split; [intros [-> ->]; auto|].
  intros H. inversion H. auto.
Qed.

(** Splitting a key that is long enough into its prefix and its trailing
    timestamp field. *)
Lemma key_split (k : list byte) :
  (kEncodedDocHybridTimeSize <= length k)%nat ->
  exists p e, k = p ++ e /\ length e = kEncodedDocHybridTimeSize
              /\ firstn (length k - kEncodedDocHybridTimeSize) k = p
              /\ skipn (length k - kEncodedDocHybridTimeSize) k = e.
Proof.
  intros H.
  exists (firstn (length k - kEncodedDocHybridTimeSize) k),
         (skipn (length k - kEncodedDocHybridTimeSize) k).
  repeat split; auto.
  - symmetry. apply firstn_skipn.
  - rewrite length_skipn. lia.
Qed.

Lemma DecodeFromEnd_app (p e : list byte) :
  length e = kEncodedDocHybridTimeSize ->
  DocHybridTime_DecodeFromEnd (p ++ e) = Some (DocHybridTime_DecodeBytes e).
Proof.
  intros He. unfold DocHybridTime_DecodeFromEnd.
  rewrite length_app, He.
  destruct (Nat.ltb_spec (length p + kEncodedDocHybridTimeSize) kEncodedDocHybridTimeSize);
    [lia|].
  replace (length p + kEncodedDocHybridTimeSize - kEncodedDocHybridTimeSize)%nat
    with (length p + 0)%nat by lia.
  now rewrite skipn_app, Nat.add_0_r, skipn_all, Nat.sub_diag.
Qed.

Lemma DecodeFromEnd_Append (d : DocHybridTime) (sk : list byte) :
  DocHybridTime_valid d ->
  DocHybridTime_DecodeFromEnd (AppendDocHybridTime d sk) = Some d.
Proof.
  intros Hd. unfold AppendDocHybridTime.
  replace (sk ++ kHybridTime :: DocHybridTime_EncodedInDocDbFormat d)
    with ((sk ++ [kHybridTime]) ++ DocHybridTime_EncodedInDocDbFormat d)
    by (now rewrite <- app_assoc).
  rewrite DecodeFromEnd_app by apply DocHybridTime_encoded_length.
  now rewrite DocHybridTime_decode_encode.
Qed.

(** Replacing the trailing timestamp of a key whose timestamp is later than
    the read time gives a strictly larger key. *)
Lemma ReplaceLastHybridTimeForSeek_advances (k : list byte) (ht : HybridTime) d :
  0 <= ht <= kMaxHybridTimeValue ->
  DocHybridTime_DecodeFromEnd k = Some d ->
  ht < hybrid_time d ->
  exists k', ReplaceLastHybridTimeForSeek k ht = Some k' /\ compare k k' = Lt.
Proof.
  intros Hht Hd Hlt. unfold DocHybridTime_DecodeFromEnd in Hd.
  unfold ReplaceLastHybridTimeForSeek.
  destruct (Nat.ltb_spec (length k) kEncodedDocHybridTimeSize) as [|Hlen];
    [discriminate|].
  destruct (key_split k Hlen) as (p & e & Hk & He & Hp & Hs).
  rewrite Hs in Hd. rewrite Hp. inversion Hd as [Hd']. clear Hd.
  eexists. split; [reflexivity|].
  rewrite Hk at 1. rewrite compare_app.
  rewrite <- (DocHybridTime_encode_decode e He).
  rewrite DocHybridTime_encoding_reverses.
  - unfold DocHybridTime_compare. cbn [hybrid_time write_id].
    assert ((ht ?= hybrid_time (DocHybridTime_DecodeBytes e)) = Lt) as C
        by (apply Z.compare_lt_iff; rewrite Hd'; exact Hlt).
    now rewrite C.
  - now apply DocHybridTime_decode_valid.
  - split; cbn [hybrid_time write_id]; [lia|vm_compute; split; discriminate].
Qed.

End CodecFacts.

(* ===================================================================== *)
(** * [SeekToValidKvAtTs]: results *)
(* ===================================================================== *)

Section SeekLoopFacts.
Import Slice SliceFacts.

Lemma ROCKSDB_SEEK_entries m it k : entries (ROCKSDB_SEEK m it k) = entries it.
Proof. apply PerformRocksDBSeek_entries. Qed.

Lemma ROCKSDB_SEEK_pos m it k :
  ordered (entries it) = true -> (0 <= m)%Z ->
  pos (ROCKSDB_SEEK m it k) = lower_bound (entries it) k.
Proof. apply PerformRocksDBSeek_pos. Qed.

(** In a strictly increasing keyspace, a later entry has a larger key. *)
Lemma ordered_nth_lt l :
  ordered l = true ->
  forall i j a b, i < j -> nth_error l i = Some a -> nth_error l j = Some b ->
                  compare (fst a) (fst b) = Lt.
Proof.
  induction l as [|e r IH]; intros Ho i j a b Hij Ha Hb; [destruct i; discriminate|].
  destruct j as [|j]; [lia|]. simpl in Hb.
  destruct i as [|i]; simpl in Ha.
  - inversion Ha; subst. apply nth_error_In in Hb.
    eapply ordered_head_lt; eauto.
  - apply ordered_tail in Ho. apply (IH Ho i j); auto. lia.
Qed.

Lemma seek_loop_fuel_mono fuel :
  forall m it sk ht probe r,
    seek_loop fuel m it sk ht probe = Some r ->
    forall fuel', fuel <= fuel' -> seek_loop fuel' m it sk ht probe = Some r.
Proof.
  induction fuel as [|fuel IH]; intros m it sk ht probe r H fuel' Hle;
    [discriminate|].
  destruct fuel' as [|fuel']; [lia|]. simpl in *.
  destruct (negb (Valid (ROCKSDB_SEEK m it probe))
            || negb (starts_with (key (ROCKSDB_SEEK m it probe)) sk)); auto.
  destruct (DocHybridTime_DecodeFromEnd (key (ROCKSDB_SEEK m it probe))); auto.
  destruct (hybrid_time d <=? ht)%Z; auto.
  destruct (ReplaceLastHybridTimeForSeek (key (ROCKSDB_SEEK m it probe)) ht); auto.
  apply IH with (fuel' := fuel') in H; auto. lia.
Qed.

(** The loop reports not-found only at its exit test: the iterator is
    exhausted or its key does not start with the search key. *)
Lemma seek_loop_not_found_exit fuel :
  forall m it sk ht probe it1,
    seek_loop fuel m it sk ht probe = Some (LoopNotFound it1) ->
    Valid it1 = false \/ starts_with (key it1) sk = false.
Proof.
  induction fuel as [|fuel IH]; intros m it sk ht probe it1 H; [discriminate|].
  cbn [seek_loop] in H.
  destruct (Valid (ROCKSDB_SEEK m it probe)) eqn:V; cbn [negb orb] in H.
  - destruct (starts_with (key (ROCKSDB_SEEK m it probe)) sk) eqn:P; cbn [negb] in H.
    + destruct (DocHybridTime_DecodeFromEnd (key (ROCKSDB_SEEK m it probe)));
        [|discriminate].
      destruct (hybrid_time d <=? ht)%Z; [discriminate|].
      destruct (ReplaceLastHybridTimeForSeek (key (ROCKSDB_SEEK m it probe)) ht);
        [|discriminate].
      eapply IH; eauto.
    + inversion H; subst. auto.
  - inversion H; subst. auto.
Qed.

(** Every iteration that does not leave the loop seeks to a strictly larger
    probe key, so the landing position strictly increases; the loop leaves
    within as many iterations as there are entries at or after the first
    landing position, plus one. *)
Lemma seek_loop_terminates fuel :
  forall m it sk ht probe,
    ordered (entries it) = true -> (0 <= m)%Z ->
    (0 <= ht <= kMaxHybridTimeValue)%Z ->
    length (entries it) - lower_bound (entries it) probe < fuel ->
    exists r, seek_loop fuel m it sk ht probe = Some r.
Proof.
  induction fuel as [|fuel IH]; intros m it sk ht probe Ho Hm Hht Hf; [lia|].
  simpl.
  pose proof (ROCKSDB_SEEK_entries m it probe) as He.
  pose proof (ROCKSDB_SEEK_pos m it probe Ho Hm) as Hp.
  set (it1 := ROCKSDB_SEEK m it probe) in *.
  destruct (Valid it1) eqn:V; simpl; [|eauto].
  destruct (starts_with (key it1) sk); simpl; [|eauto].
  destruct (DocHybridTime_DecodeFromEnd (key it1)) as [d|] eqn:D; [|eauto].
  destruct (Z.leb_spec (hybrid_time d) ht) as [|Hlt]; [eauto|].
  destruct (ReplaceLastHybridTimeForSeek_advances (key it1) ht d Hht D Hlt)
    as (probe' & -> & Hadv).
  apply IH; auto; rewrite He; auto.
  destruct (Valid_entry it1 V) as (e & Hn & Hk & _).
  rewrite He in Hn. rewrite Hk in Hadv.
  pose proof (lower_bound_sorted_lt _ probe' Ho _ _ Hn Hadv) as Hlb.
  unfold Valid in V. apply Nat.ltb_lt in V. rewrite He in V. lia.
Qed.

(** With a negative [FLAGS_max_nexts_to_avoid_seek] the loop does not
    converge: once the iterator is valid on a key under the search key whose
    timestamp is later than the read time, and the engine seek to the probe
    key leaves it there, every further probe key is the same rewritten key
    and every engine seek leaves the iterator in place. *)
Lemma seek_loop_negative_flag_stuck fuel :
  forall m it sk ht probe d,
    (m < 0)%Z -> (0 <= ht <= kMaxHybridTimeValue)%Z ->
    Valid it = true -> starts_with (key it) sk = true ->
    DocHybridTime_DecodeFromEnd (key it) = Some d -> (ht < hybrid_time d)%Z ->
    ROCKSDB_SEEK m it probe = it ->
    seek_loop fuel m it sk ht probe = None.
Proof.
  induction fuel as [|fuel IH]; intros m it sk ht probe d Hm Hht V P D Hlt Hstay;
    [reflexivity|].
  cbn [seek_loop]. rewrite Hstay, V, P, D. cbn [negb orb].
  destruct (Z.leb_spec (hybrid_time d) ht); [lia|].
  destruct (ReplaceLastHybridTimeForSeek_advances (key it) ht d Hht D Hlt)
    as (probe' & -> & Hadv).
  apply (IH m it sk ht probe' d); auto.
  unfold ROCKSDB_SEEK. apply PerformRocksDBSeek_negative_flag; auto.
  - intros ->. destruct (key it); discriminate.
  - rewrite Hadv. discriminate.
Qed.

End SeekLoopFacts.

(* ===================================================================== *)
(** * [SeekToValidKvAtTs]: the keys it walks over *)
(* ===================================================================== *)

(** The bytes of a key before its trailing timestamp: what
    [ReplaceLastHybridTimeForSeek] keeps. *)
Definition stem (k : list byte) : list byte :=
  firstn (length k - kEncodedDocHybridTimeSize) k.

(** A timestamp ends the key: every key under [search_key] ends in a
    timestamp that lies beyond [search_key], and every key of the keyspace
    that starts with the bytes before that timestamp has the same length,
    so that it is those bytes followed by a timestamp. *)
Definition timestamp_ends_key (search_key : list byte)
           (l : list (list byte * list byte)) : bool :=
  forallb (fun e =>
    if Slice.starts_with (fst e) search_key
    then (kEncodedDocHybridTimeSize <=? length (fst e))
         && Slice.starts_with (stem (fst e)) search_key
         && forallb (fun e' =>
              if Slice.starts_with (fst e') (stem (fst e))
              then length (fst e') =? length (fst e)
              else true) l
    else true) l.

(** The exit test of the loop on one key: the key does not start with
    [search_key], or its trailing timestamp is at or before the read time
    (or there is none to decode). *)
Definition stops (search_key : list byte) (ht : HybridTime) (k : list byte) : bool :=
  negb (Slice.starts_with k search_key)
  || match DocHybridTime_DecodeFromEnd k with
     | Some d => (hybrid_time d <=? ht)%Z
     | None => true
     end.

Fixpoint first_stop (search_key : list byte) (ht : HybridTime)
         (l : list (list byte * list byte)) : nat :=
  match l with
  | [] => 0
  | e :: r =>
      if stops search_key ht (fst e) then 0 else S (first_stop search_key ht r)
  end.

(** The reference for the position [SeekToValidKvAtTs] ends on: scan the
    keyspace in order, from the first key at or after the probe key, up to
    the first key on which the loop stops; the end of the keyspace when
    there is none. *)
Definition linear_scan_position (search_key : list byte) (ht : HybridTime)
           (l : list (list byte * list byte)) : nat :=
  lower_bound l (seek_probe search_key ht)
  + first_stop search_key ht (skipn (lower_bound l (seek_probe search_key ht)) l).

(** The iterator a loop exit carries. *)
Definition exit_iter (x : LoopExit) : Iterator :=
  match x with
  | LoopNotFound it => it
  | LoopFailed it _ => it
  | LoopBreak it => it
  end.

Section LinearScanFacts.
Import Slice SliceFacts.

Lemma skipn_nth_error {A : Type} (l : list A) :
  forall i e, nth_error l i = Some e -> skipn i l = e :: skipn (S i) l.
Proof.
  induction l as [|a l IH]; intros [|i] e H; try discriminate.
  - inversion H. reflexivity.
  - cbn [nth_error] in H. cbn [skipn]. now apply IH.
Qed.

(** Entries on which the loop does not stop do not count. *)
Lemma first_stop_skip sk ht l i :
  forall n,
    i + n <= length l ->
    (forall j e, i <= j < i + n -> nth_error l j = Some e ->
                 stops sk ht (fst e) = false) ->
    i + first_stop sk ht (skipn i l)
    = (i + n) + first_stop sk ht (skipn (i + n) l).
Proof.
  induction n as [|n IH]; intros Hlen Hall.
  - now rewrite Nat.add_0_r.
  - rewrite IH; [|lia|intros j e Hj; apply Hall; lia].
    destruct (nth_error l (i + n)) as [e|] eqn:E;
      [|apply nth_error_None in E; lia].
    rewrite (skipn_nth_error l _ _ E). cbn [first_stop].
    rewrite (Hall (i + n) e) by (auto; lia).
    replace (i + S n) with (S (i + n)) by lia. lia.
Qed.

(** The entry the reference position points to, if any, is one on which
    the loop stops. *)
Lemma first_stop_stops sk ht l :
  forall e, nth_error l (first_stop sk ht l) = Some e -> stops sk ht (fst e) = true.
Proof.
  induction l as [|a l IH]; intros e H; [discriminate|].
  cbn [first_stop] in H. destruct (stops sk ht (fst a)) eqn:S.
  - inversion H; subst. exact S.
  - cbn [nth_error] in H. now apply IH.
Qed.

Lemma first_stop_le_length sk ht l : first_stop sk ht l <= length l.
Proof.
  induction l as [|a l IH]; cbn [first_stop length]; [lia|].
  destruct (stops sk ht (fst a)); lia.
Qed.

Lemma stem_length (k : list byte) :
  kEncodedDocHybridTimeSize <= length k ->
  length (stem k) = length k - kEncodedDocHybridTimeSize.
Proof. intros H. unfold stem. rewrite firstn_length_le; lia. Qed.

Lemma stem_app (p e : list byte) :
  length e = kEncodedDocHybridTimeSize -> stem (p ++ e) = p.
Proof.
  intros He. unfold stem. rewrite length_app, He.
  replace (length p + kEncodedDocHybridTimeSize - kEncodedDocHybridTimeSize)
    with (length p + 0) by lia.
  now rewrite firstn_app_2, firstn_O, app_nil_r.
Qed.

(** What [timestamp_ends_key] says of one key under the search key. *)
Lemma timestamp_ends_key_at sk l e :
  timestamp_ends_key sk l = true ->
  In e l -> starts_with (fst e) sk = true ->
  kEncodedDocHybridTimeSize <= length (fst e)
  /\ starts_with (stem (fst e)) sk = true
  /\ (forall e', In e' l -> starts_with (fst e') (stem (fst e)) = true ->
                 exists t, fst e' = stem (fst e) ++ t
                           /\ length t = kEncodedDocHybridTimeSize).
Proof.
  unfold timestamp_ends_key. intros H Hin P.
  rewrite forallb_forall in H. specialize (H e Hin). cbv beta in H. rewrite P in H.
  apply andb_true_iff in H as [H H3]. apply andb_true_iff in H as [H1 H2].
  apply Nat.leb_le in H1. split; [exact H1|]. split; [exact H2|].
  intros e' Hin' P'. rewrite forallb_forall in H3. specialize (H3 e' Hin').
  cbv beta in H3. rewrite P' in H3. apply Nat.eqb_eq in H3.
  destruct (starts_with_inv _ _ P') as [t Ht]. exists t. split; [exact Ht|].
  apply (f_equal (@length byte)) in Ht. rewrite length_app, H3, stem_length in Ht by exact H1.
  lia.
Qed.

(** A key that shares the bytes before the timestamp with the rewritten
    probe key and is below it carries a timestamp later than the read
    time. *)
Lemma below_probe_is_later (p t : list byte) (ht : HybridTime) :
  (0 <= ht <= kMaxHybridTimeValue)%Z ->
  length t = kEncodedDocHybridTimeSize ->
  compare (p ++ t)
          (p ++ DocHybridTime_EncodedInDocDbFormat
                  {| hybrid_time := ht; write_id := kMaxWriteId |}) = Lt ->
  DocHybridTime_DecodeFromEnd (p ++ t) = Some (DocHybridTime_DecodeBytes t)
  /\ (ht < hybrid_time (DocHybridTime_DecodeBytes t))%Z.
Proof.
  intros Hht Ht C. split; [now apply DecodeFromEnd_app|].
  rewrite compare_app in C.
  rewrite <- (DocHybridTime_encode_decode t Ht) in C.
  pose proof (DocHybridTime_decode_valid t Ht) as Hv.
  rewrite DocHybridTime_encoding_reverses in C; auto.
  2:{ split; cbn [hybrid_time write_id]; [lia|vm_compute; split; discriminate]. }
  set (d := DocHybridTime_DecodeBytes t) in *.
  unfold DocHybridTime_compare in C. cbn [hybrid_time write_id] in C.
  destruct Hv as [_ Hw].
  destruct (Z.compare_spec ht (hybrid_time d)) as [E|L|G];
    try discriminate; [|exact L].
  assert (kMaxWriteId < write_id d)%Z by (apply Z.compare_lt_iff; exact C). lia.
Qed.

(** The loop of [SeekToValidKvAtTs] is a linear scan: started with any
    probe key, it ends on the first key at or after the probe key on which
    it stops, or at the end of the keyspace, and it does not fail. *)
Lemma seek_loop_linear_scan fuel :
  forall m it sk ht probe,
    ordered (entries it) = true -> (0 <= m)%Z ->
    (0 <= ht <= kMaxHybridTimeValue)%Z ->
    timestamp_ends_key sk (entries it) = true ->
    length (entries it) - lower_bound (entries it) probe < fuel ->
    exists x,
      seek_loop fuel m it sk ht probe = Some x
      /\ entries (exit_iter x) = entries it
      /\ pos (exit_iter x)
         = lower_bound (entries it) probe
           + first_stop sk ht (skipn (lower_bound (entries it) probe) (entries it))
      /\ x = if Valid (exit_iter x) && starts_with (key (exit_iter x)) sk
             then LoopBreak (exit_iter x)
             else LoopNotFound (exit_iter x).
Proof.
  induction fuel as [|fuel IH]; intros m it sk ht probe Ho Hm Hht Hfmt Hf; [lia|].
  cbn [seek_loop].
  pose proof (ROCKSDB_SEEK_entries m it probe) as He.
  pose proof (ROCKSDB_SEEK_pos m it probe Ho Hm) as Hp.
  set (it1 := ROCKSDB_SEEK m it probe) in *.
  set (es := entries it) in *. set (lb := lower_bound es probe) in *.
  destruct (Valid it1) eqn:V; cbn [negb orb].
  2:{ exists (LoopNotFound it1). cbn [exit_iter]. rewrite V. cbn [andb].
      split; [reflexivity|]. split; [exact He|]. split; [|reflexivity].
      apply Valid_false_pos in V. rewrite He, Hp in V.
      rewrite Hp, skipn_all2 by exact V. cbn [first_stop]. lia. }
  destruct (Valid_entry it1 V) as (e & Hn & Hk & _). rewrite He, Hp in Hn.
  pose proof (skipn_nth_error es lb e Hn) as Hskip.
  destruct (starts_with (key it1) sk) eqn:P; cbn [negb].
  2:{ exists (LoopNotFound it1). cbn [exit_iter]. rewrite V, P. cbn [andb].
      split; [reflexivity|]. split; [exact He|]. split; [|reflexivity].
      rewrite Hp, Hskip. cbn [first_stop]. unfold stops. rewrite <- Hk, P.
      cbn [negb orb]. lia. }
  rewrite Hk in P.
  destruct (timestamp_ends_key_at sk es e Hfmt (nth_error_In _ _ Hn) P)
    as (Hlen & Hstem & Hsame).
  destruct (key_split (fst e) Hlen) as (p & t & Hke & Ht & Hfirst & _).
  fold (stem (fst e)) in Hfirst.
  assert (DocHybridTime_DecodeFromEnd (fst e) = Some (DocHybridTime_DecodeBytes t)) as D
      by (rewrite Hke; now apply DecodeFromEnd_app).
  rewrite Hk, D.
  destruct (Z.leb_spec (hybrid_time (DocHybridTime_DecodeBytes t)) ht) as [Hle|Hgt].
  - exists (LoopBreak it1). cbn [exit_iter]. rewrite V, Hk, P. cbn [andb].
    split; [reflexivity|]. split; [exact He|]. split; [|reflexivity].
    rewrite Hp, Hskip. cbn [first_stop]. unfold stops. rewrite P, D.
    cbn [negb orb]. apply Z.leb_le in Hle. rewrite Hle. lia.
  - destruct (ReplaceLastHybridTimeForSeek_advances (fst e) ht _ Hht D Hgt)
      as (probe' & Hr & Hadv).
    assert (probe' = stem (fst e)
                     ++ DocHybridTime_EncodedInDocDbFormat
                          {| hybrid_time := ht; write_id := kMaxWriteId |}) as Hprobe.
    { unfold ReplaceLastHybridTimeForSeek in Hr.
      destruct (length (fst e) <? kEncodedDocHybridTimeSize); [discriminate|].
      inversion Hr. reflexivity. }
    rewrite Hr.
    pose proof (lower_bound_sorted_lt es probe' Ho _ _ Hn Hadv) as Hlb.
    pose proof (lower_bound_le_length es probe') as Hlb'.
    destruct (IH m it1 sk ht probe') as (x & Hx & Hxe & Hxp & Hxk).
    + now rewrite He.
    + exact Hm.
    + exact Hht.
    + now rewrite He.
    + rewrite He. fold es. assert (lb < length es) by (apply nth_error_Some; congruence).
      lia.
    + exists x. split; [exact Hx|]. split; [congruence|]. split; [|exact Hxk].
      rewrite Hxp, He. fold es.
      set (lb' := lower_bound es probe') in *.
      replace lb' with (lb + (lb' - lb)) by lia.
      symmetry. apply first_stop_skip; [lia|].
      intros j e' Hj Hn'.
      assert (compare (fst e') probe' = Lt) as Hbelow
          by (apply (lower_bound_before es probe' j e' Hn'); lia).
      assert (compare (fst e) (fst e') <> Gt) as Habove.
      { destruct (Nat.eq_dec j lb) as [->|Hne].
        - rewrite Hn in Hn'. inversion Hn'; subst. rewrite compare_refl. discriminate.
        - rewrite (ordered_nth_lt es Ho lb j e e'); auto; [discriminate|lia]. }
      assert (starts_with (fst e') (stem (fst e)) = true) as Pstem.
      { apply between_starts_with
          with (x := t)
               (y := DocHybridTime_EncodedInDocDbFormat
                       {| hybrid_time := ht; write_id := kMaxWriteId |}).
        - rewrite Hfirst, <- Hke. exact Habove.
        - rewrite <- Hprobe, Hbelow. discriminate. }
      destruct (Hsame e' (nth_error_In _ _ Hn') Pstem) as (t' & Hke' & Ht').
      rewrite Hke', Hprobe in Hbelow.
      destruct (below_probe_is_later _ t' ht Hht Ht' Hbelow) as (D' & Hlater).
      unfold stops. rewrite (starts_with_trans _ _ _ Pstem Hstem). cbn [negb orb].
      rewrite Hke', D'. apply Z.leb_gt. exact Hlater.
Qed.

End LinearScanFacts.

Section SeekToValidKvAtTsFacts.
Context {codec : DocDBCodec}.
Import Slice SliceFacts.

Lemma SeekToValidKvAtTs_fuel_mono fuel m it sk ht fk0 isf fv0 r :
  SeekToValidKvAtTs fuel m it sk ht fk0 isf fv0 = Some r ->
  forall fuel', fuel <= fuel' ->
                SeekToValidKvAtTs fuel' m it sk ht fk0 isf fv0 = Some r.
Proof.
  unfold SeekToValidKvAtTs. intros H fuel' Hle.
  destruct (seek_loop fuel m it sk ht _) as [x|] eqn:L; [|discriminate].
  now rewrite (seek_loop_fuel_mono _ _ _ _ _ _ _ L _ Hle).
Qed.

Lemma SeekToValidKvAtTs_of_loop fuel m it sk ht fk0 isf fv0 x :
  seek_loop fuel m it sk ht
            (AppendDocHybridTime {| hybrid_time := ht; write_id := kMaxWriteId |} sk)
  = Some x ->
  exists r, SeekToValidKvAtTs fuel m it sk ht fk0 isf fv0 = Some r.
Proof.
  unfold SeekToValidKvAtTs. intros ->.
  destruct x as [it1|it1 s|it1]; eauto.
  destruct (FullyDecodeFrom (key it1) true); eauto.
  destruct (Value_DecodeTTL (value it1)) as [[ttl rest]|]; eauto.
  destruct (negb (ttl =? kMaxTtl)%Z
            && (AddPhysicalTimeToHybridTime (SubDocKey_hybrid_time s) ttl <? ht)%Z);
    eauto.
  destruct fv0; eauto. destruct (Value_Decode rest); eauto.
Qed.

(** C5 (amended).  With a non-negative [FLAGS_max_nexts_to_avoid_seek],
    the probe-and-reseek loop of [SeekToValidKvAtTs] terminates on every
    finite ordered keyspace: with one unit of fuel per entry and one more
    the call returns a result, the same for any larger amount of fuel.  The
    reason is that an iteration that does not leave the loop has found a key
    whose timestamp is later than the read time; the probe key rewritten by
    [ReplaceLastHybridTimeForSeek] is strictly larger than that key, and the
    next engine seek lands strictly after it. *)
Theorem SeekToValidKvAtTs_terminates
        (max_nexts : Z) (it : Iterator) (search_key : list byte) (ht : HybridTime)
        (found_key0 : SubDocKey) (is_found0 : option bool)
        (found_value0 : option Value) :
  ordered (entries it) = true ->
  (0 <= max_nexts)%Z ->
  (0 <= ht <= kMaxHybridTimeValue)%Z ->
  (exists r, forall fuel, seek_fuel it <= fuel ->
             SeekToValidKvAtTs fuel max_nexts it search_key ht
                               found_key0 is_found0 found_value0 = Some r)
  /\ (forall it1 d,
         entries it1 = entries it ->
         Valid it1 = true ->
         DocHybridTime_DecodeFromEnd (key it1) = Some d ->
         (ht < hybrid_time d)%Z ->
         exists probe,
           ReplaceLastHybridTimeForSeek (key it1) ht = Some probe
           /\ compare (key it1) probe = Lt
           /\ pos it1 < pos (ROCKSDB_SEEK max_nexts it1 probe)).
Proof.
  intros Ho Hm Hht. split.
  - destruct (seek_loop_terminates (seek_fuel it) max_nexts it search_key ht
                (AppendDocHybridTime {| hybrid_time := ht; write_id := kMaxWriteId |}
                                     search_key) Ho Hm Hht) as [x Hx].
    { unfold seek_fuel. lia. }
    destruct (SeekToValidKvAtTs_of_loop _ _ _ _ _ found_key0 is_found0 found_value0 _ Hx)
      as [r Hr].
    exists r. intros fuel Hle. eapply SeekToValidKvAtTs_fuel_mono; eauto.
  - intros it1 d He V D Hlt.
    destruct (ReplaceLastHybridTimeForSeek_advances (key it1) ht d Hht D Hlt)
      as (probe & Hr & Hadv).
    exists probe. repeat split; auto.
    rewrite ROCKSDB_SEEK_pos; auto; [|now rewrite He].
    destruct (Valid_entry it1 V) as (e & Hn & Hk & _).
    rewrite Hk in Hadv. rewrite He in *.
    apply (lower_bound_sorted_lt _ probe Ho _ _ Hn Hadv).
Qed.

Lemma Append_assoc d sk :
  AppendDocHybridTime d sk = (sk ++ [kHybridTime]) ++ DocHybridTime_EncodedInDocDbFormat d.
Proof. unfold AppendDocHybridTime. now rewrite <- app_assoc. Qed.

Lemma Append_starts_with d sk : starts_with (AppendDocHybridTime d sk) sk = true.
Proof. unfold AppendDocHybridTime. apply starts_with_app. Qed.

Lemma seek_probe_compare sk ht d :
  DocHybridTime_valid d -> (0 <= ht <= kMaxHybridTimeValue)%Z ->
  compare (seek_probe sk ht) (AppendDocHybridTime d sk)
  = DocHybridTime_compare d {| hybrid_time := ht; write_id := kMaxWriteId |}.
Proof.
  intros Hd Hht. unfold seek_probe. rewrite !Append_assoc, compare_app.
  apply DocHybridTime_encoding_reverses; auto.
  split; cbn [hybrid_time write_id]; [lia|vm_compute; split; discriminate].
Qed.

Lemma at_or_before_read_time d ht :
  DocHybridTime_valid d ->
  DocHybridTime_compare d {| hybrid_time := ht; write_id := kMaxWriteId |} <> Gt
  <-> (hybrid_time d <= ht)%Z.
Proof.
  intros [_ Hw]. unfold DocHybridTime_compare. cbn [hybrid_time write_id].
  destruct (Z.compare_spec (hybrid_time d) ht) as [E|L|G].
  - split; [lia|]. intros _ C. apply Z.compare_gt_iff in C. lia.
  - split; [lia|discriminate].
  - split; [congruence|lia].
Qed.

Lemma FullyDecodeFrom_trailing_time k b fk d :
  FullyDecodeFrom k b = Some fk -> doc_ht fk = Some d ->
  DocHybridTime_DecodeFromEnd k = Some d.
Proof.
  unfold FullyDecodeFrom. intros H Hd.
  destruct (DecodeDocPath k) as [[p n]|]; [|discriminate].
  destruct (skipn n k) as [|tag e] eqn:S.
  - destruct b; [discriminate|]. inversion H; subst. discriminate.
  - destruct (Byte.eqb tag kHybridTime && (length e =? kEncodedDocHybridTimeSize)) eqn:C;
      [|discriminate].
    apply andb_true_iff in C as [_ C]. apply Nat.eqb_eq in C.
    inversion H; subst. simpl in Hd. inversion Hd; subst.
    rewrite <- (firstn_skipn n k), S.
    replace (firstn n k ++ tag :: e) with ((firstn n k ++ [tag]) ++ e)
      by (now rewrite <- app_assoc).
    now apply DecodeFromEnd_app.
Qed.

Lemma FullyDecodeFrom_required k fk :
  FullyDecodeFrom k true = Some fk -> exists d, doc_ht fk = Some d.
Proof.
  unfold FullyDecodeFrom. intros H.
  destruct (DecodeDocPath k) as [[p n]|]; [|discriminate].
  destruct (skipn n k) as [|tag e]; [discriminate|].
  destruct (Byte.eqb tag kHybridTime && (length e =? kEncodedDocHybridTimeSize));
    [|discriminate].
  inversion H; subst. simpl. eauto.
Qed.

(** Where a timestamp ends the key, the keys that start with the search key
    and the [kHybridTime] tag are the versions of the search key, as soon as
    the keyspace holds one. *)
Lemma versions_under_tag sk l d v :
  timestamp_ends_key sk l = true ->
  In (AppendDocHybridTime d sk, v) l ->
  forall k v', In (k, v') l -> starts_with k (sk ++ [kHybridTime]) = true ->
               exists d', DocHybridTime_valid d' /\ k = AppendDocHybridTime d' sk.
Proof.
  intros Hfmt Hin k v' Hin' P.
  destruct (timestamp_ends_key_at sk l _ Hfmt Hin (Append_starts_with d sk))
    as (_ & _ & Hsame).
  cbn [fst] in Hsame. rewrite Append_assoc in Hsame.
  rewrite stem_app in Hsame by apply DocHybridTime_encoded_length.
  destruct (Hsame (k, v') Hin' P) as (t & Hk & Ht). cbn [fst] in Hk.
  exists (DocHybridTime_DecodeBytes t). split; [now apply DocHybridTime_decode_valid|].
  now rewrite Append_assoc, DocHybridTime_encode_decode.
Qed.

(** Where the first engine seek lands when the keyspace holds a version of
    the search key at or before the read time: on the latest such version. *)
Lemma first_seek_lands_on_latest m it sk ht d v :
  ordered (entries it) = true -> (0 <= m)%Z ->
  (0 <= ht <= kMaxHybridTimeValue)%Z ->
  (forall k v', In (k, v') (entries it) ->
                starts_with k (sk ++ [kHybridTime]) = true ->
                exists d', DocHybridTime_valid d' /\ k = AppendDocHybridTime d' sk) ->
  In (AppendDocHybridTime d sk, v) (entries it) ->
  DocHybridTime_valid d -> (hybrid_time d <= ht)%Z ->
  (forall d' v', In (AppendDocHybridTime d' sk, v') (entries it) ->
                 DocHybridTime_valid d' -> (hybrid_time d' <= ht)%Z ->
                 DocHybridTime_compare d' d <> Gt) ->
  let it1 := ROCKSDB_SEEK m it (seek_probe sk ht) in
  Valid it1 = true /\ key it1 = AppendDocHybridTime d sk /\ value it1 = v.
Proof.
  intros Ho Hm Hht Hall Hin Hd Hle Hmax it1.
  pose proof (ROCKSDB_SEEK_entries m it (seek_probe sk ht)) as He.
  pose proof (ROCKSDB_SEEK_pos m it (seek_probe sk ht) Ho Hm) as Hp.
  fold it1 in He, Hp.
  set (es := entries it) in *. set (probe := seek_probe sk ht) in *.
  set (kt := AppendDocHybridTime d sk) in *.
  destruct (In_nth_error _ _ Hin) as [i Hi].
  assert (compare probe kt <> Gt) as H1.
  { unfold probe, kt. rewrite seek_probe_compare by auto.
    now apply at_or_before_read_time. }
  assert (lower_bound es probe <= i) as H2.
  { destruct (Nat.le_gt_cases (lower_bound es probe) i) as [|Hlt]; auto.
    pose proof (lower_bound_before es probe _ _ Hi Hlt) as C. simpl in C.
    apply compare_gt_lt in C. congruence. }
  assert (i < length es) as Hil by (apply nth_error_Some; congruence).
  destruct (nth_error es (lower_bound es probe)) as [[k0 v0]|] eqn:E0;
    [|apply nth_error_None in E0; lia].
  pose proof (lower_bound_at es probe _ E0) as H3. simpl in H3.
  assert (compare k0 kt <> Gt) as H4.
  { destruct (Nat.eq_dec (lower_bound es probe) i) as [Heq|Hne].
    - rewrite Heq in E0. rewrite E0 in Hi. inversion Hi; subst.
      rewrite compare_refl. discriminate.
    - assert (lower_bound es probe < i) as Hlt by lia.
      pose proof (ordered_nth_lt es Ho _ _ _ _ Hlt E0 Hi) as C. simpl in C.
      congruence. }
  assert (compare probe k0 <> Gt) as H3'.
  { intros C. apply compare_gt_lt in C. congruence. }
  assert (starts_with k0 (sk ++ [kHybridTime]) = true) as H5.
  { apply between_starts_with
      with (x := DocHybridTime_EncodedInDocDbFormat
                   {| hybrid_time := ht; write_id := kMaxWriteId |})
           (y := DocHybridTime_EncodedInDocDbFormat d).
    - unfold probe, seek_probe in H3'. now rewrite Append_assoc in H3'.
    - unfold kt in H4. now rewrite Append_assoc in H4. }
  destruct (Hall k0 v0 (nth_error_In _ _ E0) H5) as (d0 & Hd0 & Hk0).
  assert (hybrid_time d0 <= ht)%Z as H7.
  { apply at_or_before_read_time; auto.
    rewrite <- (seek_probe_compare sk) by auto. unfold probe in H3'. now rewrite <- Hk0. }
  assert (d0 = d) as Hdd.
  { apply DocHybridTime_compare_eq.
    assert (DocHybridTime_compare d0 d <> Gt) as A.
    { apply (Hmax d0 v0); auto. rewrite <- Hk0. apply (nth_error_In _ _ E0). }
    assert (DocHybridTime_compare d d0 <> Gt) as B.
    { rewrite <- (DocHybridTime_encoding_reverses d0 d) by auto.
      rewrite <- (compare_app (sk ++ [kHybridTime])), <- !Append_assoc.
      now rewrite <- Hk0. }
    rewrite (DocHybridTime_compare_antisym d0 d) in B.
    destruct (DocHybridTime_compare d0 d); simpl in *; congruence. }
  subst d0.
  assert (lower_bound es probe = i) as Hlb.
  { destruct (Nat.eq_dec (lower_bound es probe) i) as [|Hne]; auto.
    assert (lower_bound es probe < i) as Hlt by lia.
    pose proof (ordered_nth_lt es Ho _ _ _ _ Hlt E0 Hi) as C. simpl in C.
    rewrite Hk0 in C. unfold kt in C. rewrite compare_refl in C. discriminate. }
  unfold Valid, key, value. rewrite He, Hp, Hlb, Hi. simpl.
  repeat split; auto. now apply Nat.ltb_lt.
Qed.

(** A loop that leaves otherwise than by not-found has a valid iterator on
    a key that starts with the search key. *)
Lemma seek_loop_exit_test fuel :
  forall m it sk ht probe x,
    seek_loop fuel m it sk ht probe = Some x ->
    match x with
    | LoopNotFound it1 => Valid it1 = false \/ starts_with (key it1) sk = false
    | LoopFailed it1 _ => Valid it1 = true /\ starts_with (key it1) sk = true
    | LoopBreak it1 => Valid it1 = true /\ starts_with (key it1) sk = true
    end.
Proof.
  induction fuel as [|fuel IH]; intros m it sk ht probe x H; [discriminate|].
  cbn [seek_loop] in H.
  destruct (Valid (ROCKSDB_SEEK m it probe)) eqn:V; cbn [negb orb] in H.
  2:{ inversion H; subst. auto. }
  destruct (starts_with (key (ROCKSDB_SEEK m it probe)) sk) eqn:P; cbn [negb] in H.
  2:{ inversion H; subst. auto. }
  destruct (DocHybridTime_DecodeFromEnd (key (ROCKSDB_SEEK m it probe))).
  2:{ inversion H; subst. auto. }
  destruct (hybrid_time d <=? ht)%Z.
  { inversion H; subst. auto. }
  destruct (ReplaceLastHybridTimeForSeek (key (ROCKSDB_SEEK m it probe)) ht).
  2:{ inversion H; subst. auto. }
  eapply IH; eauto.
Qed.

(** How the out-parameters follow the exit of the loop. *)
Lemma SeekToValidKvAtTs_exit fuel m it sk ht fk0 b0 fv0 r :
  SeekToValidKvAtTs fuel m it sk ht fk0 (Some b0) (Some fv0) = Some r ->
  exists x,
    seek_loop fuel m it sk ht (seek_probe sk ht) = Some x
    /\ iter r = exit_iter x
    /\ match x with
       | LoopNotFound it1 => r = mkSeekResult OK it1 fk0 (Some false) (Some fv0)
       | _ => is_found r = Some true
       end.
Proof.
  unfold SeekToValidKvAtTs. fold (seek_probe sk ht). intros H.
  destruct (seek_loop fuel m it sk ht (seek_probe sk ht)) as [x|]; [|discriminate].
  exists x. split; [reflexivity|]. cbn [assign] in H.
  destruct x as [it1|it1 s|it1]; cbn [exit_iter].
  - inversion H; subst. auto.
  - inversion H; subst. auto.
  - destruct (FullyDecodeFrom (key it1) true); [|inversion H; subst; auto].
    destruct (Value_DecodeTTL (value it1)) as [[ttl rest]|];
      [|inversion H; subst; auto].
    destruct (negb (ttl =? kMaxTtl)%Z
              && (AddPhysicalTimeToHybridTime (SubDocKey_hybrid_time s) ttl <? ht)%Z);
      [inversion H; subst; auto|].
    destruct (Value_Decode rest); inversion H; subst; auto.
Qed.

(** C1 (amended).  Over an ordered keyspace in which a timestamp ends the
    key, with a non-negative [FLAGS_max_nexts_to_avoid_seek] and a valid
    read time:

    - if the keyspace holds versions of [search_key] at or before the read
      time, [SeekToValidKvAtTs] finds the one with the largest
      DocHybridTime: the iterator ends on that version, the found key is
      its decoding and the found value its payload (the version carrying no
      TTL), with [is_found] true and an OK status;
    - in general the call returns, and the iterator ends where a linear
      scan ends: on the first key at or after the probe key that does not
      start with [search_key] or carries a timestamp at or before the read
      time, or at the end of the keyspace; [is_found] tells whether the
      iterator is valid there on a key that starts with [search_key];
    - when every key that starts with [search_key] carries a timestamp
      later than the read time, the call reports not-found: [is_found]
      false, an OK status, the other out-parameters untouched.

    On any keyspace and for any flag, a call that returns reports not-found
    exactly when it ends with the iterator exhausted or on a key that does
    not start with [search_key], and then with an OK status and the other
    out-parameters untouched. *)
Theorem SeekToValidKvAtTs_finds_latest_version
        (max_nexts : Z) (it : Iterator) (search_key : list byte) (ht : HybridTime)
        (found_key0 : SubDocKey) (is_found0 : bool) (found_value0 : Value) :
  ordered (entries it) = true ->
  (0 <= max_nexts)%Z ->
  (0 <= ht <= kMaxHybridTimeValue)%Z ->
  timestamp_ends_key search_key (entries it) = true ->
  (forall d v,
      In (AppendDocHybridTime d search_key, v) (entries it) ->
      DocHybridTime_valid d ->
      (hybrid_time d <= ht)%Z ->
      (forall d' v', In (AppendDocHybridTime d' search_key, v') (entries it) ->
                     DocHybridTime_valid d' -> (hybrid_time d' <= ht)%Z ->
                     DocHybridTime_compare d' d <> Gt) ->
      forall fk rest payload,
        FullyDecodeFrom (AppendDocHybridTime d search_key) true = Some fk ->
        Value_DecodeTTL v = Some (kMaxTtl, rest) ->
        Value_Decode rest = Some payload ->
        forall fuel, 1 <= fuel ->
        exists it',
          SeekToValidKvAtTs fuel max_nexts it search_key ht
                            found_key0 (Some is_found0) (Some found_value0)
          = Some (mkSeekResult OK it' fk (Some true) (Some payload))
          /\ Valid it' = true
          /\ key it' = AppendDocHybridTime d search_key
          /\ value it' = v
          /\ doc_ht fk = Some d)
  /\ (exists r,
         (forall fuel, seek_fuel it <= fuel ->
                       SeekToValidKvAtTs fuel max_nexts it search_key ht
                                         found_key0 (Some is_found0) (Some found_value0)
                       = Some r)
         /\ entries (iter r) = entries it
         /\ pos (iter r) = linear_scan_position search_key ht (entries it)
         /\ is_found r
            = Some (Valid (iter r) && starts_with (key (iter r)) search_key))
  /\ ((forall k v d, In (k, v) (entries it) -> starts_with k search_key = true ->
                     DocHybridTime_DecodeFromEnd k = Some d ->
                     (ht < hybrid_time d)%Z) ->
      forall fuel, seek_fuel it <= fuel ->
      exists it',
        SeekToValidKvAtTs fuel max_nexts it search_key ht
                          found_key0 (Some is_found0) (Some found_value0)
        = Some (mkSeekResult OK it' found_key0 (Some false) (Some found_value0))
        /\ (Valid it' = false \/ starts_with (key it') search_key = false))
  /\ (forall any_flag fuel r,
         SeekToValidKvAtTs fuel any_flag it search_key ht
                           found_key0 (Some is_found0) (Some found_value0)
         = Some r ->
         (is_found r = Some false
          <-> Valid (iter r) = false \/ starts_with (key (iter r)) search_key = false)
         /\ (is_found r = Some false ->
             r = mkSeekResult OK (iter r) found_key0 (Some false) (Some found_value0))).
Proof.
  intros Ho Hm Hht Hfmt.
  (* where the call ends *)
  assert (exists r,
             (forall fuel, seek_fuel it <= fuel ->
                           SeekToValidKvAtTs fuel max_nexts it search_key ht
                                             found_key0 (Some is_found0)
                                             (Some found_value0) = Some r)
             /\ entries (iter r) = entries it
             /\ pos (iter r) = linear_scan_position search_key ht (entries it)
             /\ is_found r
                = Some (Valid (iter r) && starts_with (key (iter r)) search_key)
             /\ (Valid (iter r) && starts_with (key (iter r)) search_key = false ->
                 r = mkSeekResult OK (iter r) found_key0 (Some false)
                                  (Some found_value0))) as Hscan.
  { destruct (seek_loop_linear_scan (seek_fuel it) max_nexts it search_key ht
                (seek_probe search_key ht) Ho Hm Hht Hfmt)
      as (x & Hx & Hxe & Hxp & Hxk); [unfold seek_fuel; lia|].
    destruct (SeekToValidKvAtTs_of_loop _ _ _ _ _ found_key0 (Some is_found0)
                                        (Some found_value0) _ Hx) as [r Hr].
    destruct (SeekToValidKvAtTs_exit _ _ _ _ _ _ _ _ _ Hr) as (x' & Hx' & Hi & Hk).
    rewrite Hx in Hx'. inversion Hx'; subst x'. clear Hx'.
    exists r. split; [intros fuel Hle; eapply SeekToValidKvAtTs_fuel_mono; eauto|].
    rewrite Hi. split; [exact Hxe|]. split; [exact Hxp|].
    destruct (Valid (exit_iter x) && starts_with (key (exit_iter x)) search_key);
      rewrite Hxk in Hk; rewrite Hxk; cbn [exit_iter] in *.
    - split; [exact Hk|discriminate].
    - rewrite Hk. cbn [is_found iter]. split; [reflexivity|]. intros _. reflexivity. }
  split; [|split; [|split]].
  - intros d v Hin Hd Hle Hmax fk rest payload Hfk Httl Hval fuel Hfuel.
    destruct (first_seek_lands_on_latest max_nexts it search_key ht d v
                Ho Hm Hht (versions_under_tag _ _ _ _ Hfmt Hin) Hin Hd Hle Hmax)
      as (V & K & W).
    exists (ROCKSDB_SEEK max_nexts it (seek_probe search_key ht)).
    repeat split; auto.
    + destruct fuel as [|fuel]; [lia|].
      unfold SeekToValidKvAtTs. fold (seek_probe search_key ht).
      cbn [seek_loop]. rewrite V, K, Append_starts_with. cbn [negb orb].
      rewrite (DecodeFromEnd_Append d search_key Hd).
      destruct (Z.leb_spec (hybrid_time d) ht); [|lia].
      rewrite K, Hfk, W, Httl, Z.eqb_refl. cbn [negb andb assign].
      now rewrite Hval.
    + destruct (FullyDecodeFrom_required _ _ Hfk) as [d' Hd'].
      pose proof (FullyDecodeFrom_trailing_time _ _ _ _ Hfk Hd') as T.
      rewrite (DecodeFromEnd_Append d search_key Hd) in T. congruence.
  - destruct Hscan as (r & H1 & H2 & H3 & H4 & _). exists r. auto.
  - intros Hlater fuel Hfuel.
    destruct Hscan as (r & H1 & H2 & H3 & H4 & H5).
    assert (Valid (iter r) && starts_with (key (iter r)) search_key = false) as Hnf.
    { destruct (Valid (iter r)) eqn:V; [|reflexivity].
      destruct (starts_with (key (iter r)) search_key) eqn:P; [|reflexivity].
      exfalso.
      destruct (Valid_entry _ V) as (e & Hn & Hk & _).
      rewrite H2, H3 in Hn. unfold linear_scan_position in Hn.
      pose proof (nth_error_In _ _ Hn) as Hin.
      rewrite <- nth_error_skipn in Hn.
      pose proof (first_stop_stops _ _ _ _ Hn) as Hs.
      rewrite Hk in P. unfold stops in Hs. rewrite P in Hs. cbn [negb orb] in Hs.
      destruct (timestamp_ends_key_at _ _ _ Hfmt Hin P) as (Hlen & _).
      unfold DocHybridTime_DecodeFromEnd in Hs.
      destruct (Nat.ltb_spec (length (fst e)) kEncodedDocHybridTimeSize) as [|_];
        [lia|].
      apply Z.leb_le in Hs.
      assert (ht < hybrid_time
                     (DocHybridTime_DecodeBytes
                        (skipn (length (fst e) - kEncodedDocHybridTimeSize) (fst e))))%Z.
      { apply (Hlater (fst e) (snd e)); auto.
        - now rewrite <- surjective_pairing.
        - unfold DocHybridTime_DecodeFromEnd.
          destruct (Nat.ltb_spec (length (fst e)) kEncodedDocHybridTimeSize);
            [lia|reflexivity]. }
      lia. }
    exists (iter r). split.
    + rewrite (H1 fuel Hfuel). f_equal. now apply H5.
    + apply andb_false_iff in Hnf. exact Hnf.
  - intros any_flag fuel r Hr.
    destruct (SeekToValidKvAtTs_exit _ _ _ _ _ _ _ _ _ Hr) as (x & Hx & Hi & Hk).
    pose proof (seek_loop_exit_test _ _ _ _ _ _ _ Hx) as Ht.
    rewrite Hi. destruct x as [it1|it1 s|it1]; cbn [exit_iter] in *.
    + subst r. cbn [is_found]. split; [tauto|]. intros _. reflexivity.
    + destruct Ht as [V P]. rewrite Hk, V, P.
      split; [split; [discriminate|intros [?|?]; discriminate]|discriminate].
    + destruct Ht as [V P]. rewrite Hk, V, P.
      split; [split; [discriminate|intros [?|?]; discriminate]|discriminate].
Qed.

(** C2.  When the loop of [SeekToValidKvAtTs] has found a value and the
    value carries a TTL, the expiry instant is the write time of the found
    key plus the TTL.  With the read time strictly past the expiry instant
    the call returns a tombstone in place of the stored payload and reports
    the expiry instant as the timestamp of the found key; with the read time
    at or before the expiry instant it returns the stored payload, and the
    found key keeps its write time. *)
Theorem SeekToValidKvAtTs_ttl_expiry
        (fuel : nat) (max_nexts : Z) (it : Iterator) (search_key : list byte)
        (ht : HybridTime) (found_key0 : SubDocKey) (is_found0 : option bool)
        (found_value0 : Value)
        (it1 : Iterator) (fk : SubDocKey) (ttl : MonoDelta) (rest : list byte) :
  seek_loop fuel max_nexts it search_key ht (seek_probe search_key ht)
  = Some (LoopBreak it1) ->
  FullyDecodeFrom (key it1) true = Some fk ->
  Value_DecodeTTL (value it1) = Some (ttl, rest) ->
  ttl <> kMaxTtl ->
  exists write_time,
    DocHybridTime_DecodeFromEnd (key it1) = Some write_time
    /\ doc_ht fk = Some write_time
    /\ let expiry := (hybrid_time write_time + ttl)%Z in
       ((expiry < ht)%Z ->
        SeekToValidKvAtTs fuel max_nexts it search_key ht
                          found_key0 is_found0 (Some found_value0)
        = Some (mkSeekResult OK it1 (SetHybridTimeForReadPath fk expiry)
                             (assign is_found0 true) (Some Tombstone))
        /\ SubDocKey_hybrid_time (SetHybridTimeForReadPath fk expiry) = expiry)
       /\ ((ht <= expiry)%Z ->
           forall payload, Value_Decode rest = Some payload ->
           SeekToValidKvAtTs fuel max_nexts it search_key ht
                             found_key0 is_found0 (Some found_value0)
           = Some (mkSeekResult OK it1 fk (assign is_found0 true) (Some payload))
           /\ SubDocKey_hybrid_time fk = hybrid_time write_time).
Proof.
  intros Hloop Hfk Httl Hne.
  destruct (FullyDecodeFrom_required _ _ Hfk) as [w Hw].
  pose proof (FullyDecodeFrom_trailing_time _ _ _ _ Hfk Hw) as T.
  exists w. split; [exact T|]. split; [exact Hw|].
  assert (SubDocKey_hybrid_time fk = hybrid_time w) as Hwt
      by (unfold SubDocKey_hybrid_time; now rewrite Hw).
  assert ((ttl =? kMaxTtl)%Z = false) as Hq by (now apply Z.eqb_neq).
  cbv zeta. split.
  - intros Hexp. split; [|reflexivity].
    unfold SeekToValidKvAtTs. fold (seek_probe search_key ht).
    rewrite Hloop, Hfk, Httl, Hq. unfold AddPhysicalTimeToHybridTime. rewrite Hwt.
    destruct (Z.ltb_spec (hybrid_time w + ttl) ht); [|lia]. reflexivity.
  - intros Hlive payload Hval. split; [|exact Hwt].
    unfold SeekToValidKvAtTs. fold (seek_probe search_key ht).
    rewrite Hloop, Hfk, Httl, Hq. unfold AddPhysicalTimeToHybridTime. rewrite Hwt.
    destruct (Z.ltb_spec (hybrid_time w + ttl) ht); [lia|].
    cbn [negb andb]. now rewrite Hval.
Qed.

(** C9.  A seek key that fully decodes as a SubDocKey carrying a
    DocHybridTime which is neither [kMin] nor has the maximum write id makes
    the debug-build assertion fail.  Whenever the call returns, in either
    build, it has done to the iterator exactly what the seek proper does
    with the seek key it was given: the validation changes neither.  An
    optimized build performs no check and always returns. *)
Theorem PerformRocksDBSeek_debug_validation
        (max_nexts : Z) (it : Iterator) (seek_key : list byte) :
  (forall subdoc_key d,
      FullyDecodeFrom seek_key false = Some subdoc_key ->
      doc_ht subdoc_key = Some d ->
      d <> DocHybridTime_kMin ->
      write_id d <> kMaxWriteId ->
      SeekKeyDCheck seek_key = false
      /\ PerformRocksDBSeekIn DebugBuild max_nexts it seek_key = None)
  /\ (forall b it',
         PerformRocksDBSeekIn b max_nexts it seek_key = Some it' ->
         it' = PerformRocksDBSeek max_nexts it seek_key)
  /\ PerformRocksDBSeekIn OptimizedBuild max_nexts it seek_key
     = Some (PerformRocksDBSeek max_nexts it seek_key).
Proof.
  assert (forall subdoc_key d,
             FullyDecodeFrom seek_key false = Some subdoc_key ->
             doc_ht subdoc_key = Some d ->
             d <> DocHybridTime_kMin ->
             write_id d <> kMaxWriteId ->
             SeekKeyDCheck seek_key = false) as Hfires.
  { intros subdoc_key d Hdec Hht Hmin Hwid.
    unfold SeekKeyDCheck, DecodeHybridTimeFromEndOfKey.
    rewrite (FullyDecodeFrom_trailing_time _ _ _ _ Hdec Hht), Hdec.
    unfold has_hybrid_time. rewrite Hht.
    assert ((write_id d =? kMaxWriteId)%Z = false) as -> by (now apply Z.eqb_neq).
    assert (DocHybridTime_eqb d DocHybridTime_kMin = false) as ->.
    { destruct (DocHybridTime_eqb d DocHybridTime_kMin) eqn:E; auto.
      apply DocHybridTime_eqb_eq in E. congruence. }
    reflexivity. }
  split; [|split].
  - intros subdoc_key d Hdec Hht Hmin Hwid.
    pose proof (Hfires subdoc_key d Hdec Hht Hmin Hwid) as F.
    split; [exact F|]. unfold PerformRocksDBSeekIn. now rewrite F.
  - intros b it'. unfold PerformRocksDBSeekIn.
    destruct b; [destruct (SeekKeyDCheck seek_key)|]; congruence.
  - reflexivity.
Qed.

End SeekToValidKvAtTsFacts.

(* ===================================================================== *)
(** * [SeekToValidKvAtTs] on sample keyspaces *)
(* ===================================================================== *)

Section Samples.
Import Slice SliceFacts.

Lemma Append_inj d d' sk sk' :
  DocHybridTime_valid d -> DocHybridTime_valid d' ->
  AppendDocHybridTime d sk = AppendDocHybridTime d' sk' -> d = d'.
Proof.
  intros Hd Hd' H. apply (f_equal DocHybridTime_DecodeFromEnd) in H.
  rewrite !DecodeFromEnd_Append in H by assumption. congruence.
Qed.

Lemma at_time_valid t :
  (0 <= t <= kMaxHybridTimeValue)%Z -> DocHybridTime_valid (at_time t).
Proof.
  intros H. split; cbn [at_time hybrid_time write_id]; [exact H|].
  vm_compute. split; discriminate.
Qed.

Lemma small_time t : (0 <= t <= 1000)%Z -> (0 <= t <= kMaxHybridTimeValue)%Z.
Proof.
  intros H. assert (1000 <= kMaxHybridTimeValue)%Z by (vm_compute; discriminate). lia.
Qed.

Lemma sample_versions_time d v :
  In (AppendDocHybridTime d ["k"%byte], v) sample_versions ->
  DocHybridTime_valid d ->
  d = at_time 7 \/ d = at_time 20 \/ d = at_time 10 \/ d = at_time 5 \/ d = at_time 30.
Proof.
  unfold sample_versions. cbn [In].
  intros [H|[H|[H|[H|[H|[]]]]]] Hd; apply (f_equal fst) in H; cbn [fst] in H;
    apply Append_inj in H; auto; try (apply at_time_valid, small_time; lia);
    subst; tauto.
Qed.

(** The versions of "k" written at 20, 10 and 5 and, below "k", the key
    "kx" written at 1. *)
Definition sample_versions_and_child_iter : Iterator :=
  {| entries := [ (AppendDocHybridTime (at_time 20) ["k"%byte], ["c"%byte]);
                  (AppendDocHybridTime (at_time 10) ["k"%byte], ["b"%byte]);
                  (AppendDocHybridTime (at_time 5) ["k"%byte], ["a"%byte]);
                  (AppendDocHybridTime (at_time 1) ["k"%byte; "x"%byte], ["z"%byte]) ];
     pos := 0; calls := [] |}.

Lemma SeekToValidKvAtTs_finds_latest_version_witness :
  (exists it',
      SeekToValidKvAtTs (codec := sample_codec) 1 8 sample_versions_iter ["k"%byte] 12
                        sample_found_key0 (Some false) (Some SampleTombstone)
      = Some (mkSeekResult OK it' (sample_key_at ["k"%byte] 10) (Some true)
                           (Some (SamplePayload ["b"%byte])))
      /\ Valid it' = true
      /\ key it' = AppendDocHybridTime (at_time 10) ["k"%byte]
      /\ value it' = ["b"%byte]
      /\ doc_ht (sample_key_at ["k"%byte] 10) = Some (at_time 10))
  /\ (exists r,
         (forall fuel, seek_fuel sample_subdocument_iter <= fuel ->
                       SeekToValidKvAtTs (codec := sample_codec) fuel 8
                                         sample_subdocument_iter ["a"%byte] 15
                                         sample_found_key0 (Some false)
                                         (Some SampleTombstone)
                       = Some r)
         /\ entries (iter r) = entries sample_subdocument_iter
         /\ pos (iter r)
            = linear_scan_position ["a"%byte] 15 (entries sample_subdocument_iter)
         /\ is_found r
            = Some (Valid (iter r) && starts_with (key (iter r)) ["a"%byte])).
Proof.
  split.
  - refine (proj1 (SeekToValidKvAtTs_finds_latest_version
                     (codec := sample_codec) 8 sample_versions_iter ["k"%byte] 12
                     sample_found_key0 false SampleTombstone _ _ _ _)
                  (at_time 10) ["b"%byte] _ _ _ _
                  (sample_key_at ["k"%byte] 10) ["b"%byte] (SamplePayload ["b"%byte])
                  _ _ _ 1 _).
    + reflexivity.
    + lia.
    + apply small_time. lia.
    + vm_compute. reflexivity.
    + right. right. left. reflexivity.
    + apply at_time_valid, small_time. lia.
    + cbn [at_time hybrid_time]. lia.
    + intros d' v' Hin Hd' Hle.
      destruct (sample_versions_time d' v' Hin Hd') as [->|[->|[->|[->| ->]]]];
        cbn [at_time hybrid_time] in Hle; try lia; vm_compute; discriminate.
    + reflexivity.
    + reflexivity.
    + reflexivity.
    + lia.
  - refine (proj1 (proj2 (SeekToValidKvAtTs_finds_latest_version
                            (codec := sample_codec) 8 sample_subdocument_iter
                            ["a"%byte] 15 sample_found_key0 false SampleTombstone
                            _ _ _ _))).
    + reflexivity.
    + lia.
    + apply small_time. lia.
    + vm_compute. reflexivity.
Defined.

(** C1 as stated fails: the flag is a signed integer, and with a negative
    value the engine seek leaves a valid iterator before the probe key where
    it is; here on a key that does not start with the search key, so the
    read at 12 reports not-found although the version written at 10 is in
    the keyspace. *)
Lemma SeekToValidKvAtTs_negative_flag_misses_version :
  In (AppendDocHybridTime (at_time 10) ["k"%byte], ["b"%byte])
     (entries sample_versions_iter)
  /\ ordered (entries sample_versions_iter) = true
  /\ timestamp_ends_key ["k"%byte] (entries sample_versions_iter) = true
  /\ SeekToValidKvAtTs (codec := sample_codec) (seek_fuel sample_versions_iter) (-1)
                       sample_versions_iter ["k"%byte] 12
                       sample_found_key0 (Some true) (Some SampleTombstone)
     = Some (mkSeekResult OK sample_versions_iter sample_found_key0 (Some false)
                          (Some SampleTombstone)).
Proof.
  split; [right; right; left; reflexivity|].
  split; [reflexivity|]. split; vm_compute; reflexivity.
Qed.

(** The three reads of the seek-correctness property. *)
Example read_at_12_returns_version_10 :
  option_map (fun r => (status r, found_key r, is_found r, found_value r))
    (SeekToValidKvAtTs (codec := sample_codec) (seek_fuel sample_versions_iter) 8
                       sample_versions_iter ["k"%byte] 12
                       sample_found_key0 (Some false) (Some SampleTombstone))
  = Some (OK, sample_key_at ["k"%byte] 10, Some true, Some (SamplePayload ["b"%byte])).
Proof. vm_compute. reflexivity. Qed.

Example read_at_20_returns_version_20 :
  option_map (fun r => (status r, found_key r, is_found r, found_value r))
    (SeekToValidKvAtTs (codec := sample_codec) (seek_fuel sample_versions_iter) 8
                       sample_versions_iter ["k"%byte] 20
                       sample_found_key0 (Some false) (Some SampleTombstone))
  = Some (OK, sample_key_at ["k"%byte] 20, Some true, Some (SamplePayload ["c"%byte])).
Proof. vm_compute. reflexivity. Qed.

Example read_at_3_returns_not_found :
  option_map (fun r => (status r, found_key r, is_found r, found_value r, key (iter r)))
    (SeekToValidKvAtTs (codec := sample_codec) (seek_fuel sample_versions_iter) 8
                       sample_versions_iter ["k"%byte] 3
                       sample_found_key0 (Some true) (Some SampleTombstone))
  = Some (OK, sample_found_key0, Some false, Some SampleTombstone,
          AppendDocHybridTime (at_time 30) ["l"%byte]).
Proof. vm_compute. reflexivity. Qed.

Lemma SeekToValidKvAtTs_ttl_expiry_witness :
  SeekToValidKvAtTs (codec := sample_codec) 1 8 sample_ttl_iter ["k"%byte] 151
                    sample_found_key0 (Some false) (Some (SamplePayload []))
  = Some (mkSeekResult OK
            (ROCKSDB_SEEK 8 sample_ttl_iter (seek_probe ["k"%byte] 151))
            (SetHybridTimeForReadPath (sample_key_at ["k"%byte] 100) 150)
            (Some true) (Some SampleTombstone))
  /\ SubDocKey_hybrid_time (SetHybridTimeForReadPath (sample_key_at ["k"%byte] 100) 150)
     = 150%Z.
Proof.
  destruct (SeekToValidKvAtTs_ttl_expiry
              (codec := sample_codec) 1 8 sample_ttl_iter ["k"%byte] 151
              sample_found_key0 (Some false) (SamplePayload [])
              (ROCKSDB_SEEK 8 sample_ttl_iter (seek_probe ["k"%byte] 151))
              (sample_key_at ["k"%byte] 100) 50 ["v"%byte])
    as (w & Hw & _ & Hexp & _).
  - vm_compute. reflexivity.
  - vm_compute. reflexivity.
  - vm_compute. reflexivity.
  - vm_compute. discriminate.
  - assert (w = at_time 100) as -> by (vm_compute in Hw; inversion Hw; reflexivity).
    apply Hexp. cbn [at_time hybrid_time]. lia.
Defined.

(** The TTL property at its boundary: live at 150, a tombstone at 151. *)
Example ttl_live_at_150 :
  option_map (fun r => (status r, found_key r, is_found r, found_value r))
    (SeekToValidKvAtTs (codec := sample_codec) 1 8 sample_ttl_iter ["k"%byte] 150
                       sample_found_key0 (Some false) (Some SampleTombstone))
  = Some (OK, sample_key_at ["k"%byte] 100, Some true, Some (SamplePayload ["v"%byte])).
Proof. vm_compute. reflexivity. Qed.

Example ttl_tombstone_at_151 :
  option_map (fun r => (status r, found_key r, is_found r, found_value r))
    (SeekToValidKvAtTs (codec := sample_codec) 1 8 sample_ttl_iter ["k"%byte] 151
                       sample_found_key0 (Some false) (Some (SamplePayload [])))
  = Some (OK, @mkSubDocKey sample_codec ["k"%byte]
                               (Some {| hybrid_time := 150; write_id := 0 |}),
          Some true, Some SampleTombstone).
Proof. vm_compute. reflexivity. Qed.

Lemma SeekToValidKvAtTs_terminates_witness :
  exists r, forall fuel, seek_fuel sample_subdocument_iter <= fuel ->
    SeekToValidKvAtTs (codec := sample_codec) fuel 8 sample_subdocument_iter
                      ["a"%byte] 15 sample_found_key0 (Some false) (Some SampleTombstone)
    = Some r.
Proof.
  apply (SeekToValidKvAtTs_terminates (codec := sample_codec) 8 sample_subdocument_iter
           ["a"%byte] 15 sample_found_key0 (Some false) (Some SampleTombstone)).
  - reflexivity.
  - lia.
  - apply small_time. lia.
Defined.

(** C5 as stated fails: the flag is a signed integer, and with a negative
    value the loop does not terminate on the keyspace of the source comment.
    The first engine seek finds a.b written at 20; the seek to a.b at the
    read time 15 leaves the iterator on a.b, and so does every seek after
    it: the call returns for no amount of fuel. *)
Lemma SeekToValidKvAtTs_negative_flag_never_returns :
  ~ exists fuel r,
      SeekToValidKvAtTs (codec := sample_codec) fuel (-1) sample_subdocument_iter
                        ["a"%byte] 15 sample_found_key0 (Some false)
                        (Some SampleTombstone)
      = Some r.
Proof.
  intros (fuel & r & H).
  assert (seek_loop fuel (-1) sample_subdocument_iter ["a"%byte] 15
                    (seek_probe ["a"%byte] 15) = None) as L.
  { destruct fuel as [|fuel]; [reflexivity|].
    cbn [seek_loop].
    set (it1 := ROCKSDB_SEEK (-1) sample_subdocument_iter (seek_probe ["a"%byte] 15)).
    assert (Valid it1 = true) as V by reflexivity.
    assert (key it1 = AppendDocHybridTime (at_time 20) ["a"%byte; "b"%byte]) as K
        by reflexivity.
    assert (DocHybridTime_DecodeFromEnd (key it1) = Some (at_time 20)) as D.
    { rewrite K. apply DecodeFromEnd_Append, at_time_valid, small_time. lia. }
    assert (starts_with (key it1) ["a"%byte] = true) as P
        by (rewrite K; reflexivity).
    rewrite V, P, D. cbn [negb orb at_time hybrid_time].
    destruct (Z.leb_spec 20 15); [lia|].
    destruct (ReplaceLastHybridTimeForSeek_advances
                (key it1) 15 (at_time 20) (small_time 15 ltac:(lia)) D ltac:(cbn; lia))
      as (probe & -> & Hadv).
    assert (ROCKSDB_SEEK (-1) it1 probe = it1) as Hstay.
    { unfold ROCKSDB_SEEK. apply PerformRocksDBSeek_negative_flag.
      - lia.
      - exact V.
      - intros ->. rewrite K in Hadv. discriminate.
      - rewrite Hadv. discriminate. }
    assert (15 < hybrid_time (at_time 20))%Z as Hlater
        by (cbn [at_time hybrid_time]; lia).
    exact (seek_loop_negative_flag_stuck fuel (-1) it1 ["a"%byte] 15 probe (at_time 20)
             ltac:(lia) (small_time 15 ltac:(lia)) V P D Hlater Hstay). }
  unfold SeekToValidKvAtTs in H. fold (seek_probe ["a"%byte] 15) in H.
  rewrite L in H. discriminate.
Qed.

(** Below the versions of "k", which are all later than the read time 3,
    the key "kx" written at 1 is found. *)
Example read_at_3_finds_key_below :
  option_map (fun r => (status r, found_key r, is_found r, found_value r, pos (iter r)))
    (SeekToValidKvAtTs (codec := sample_codec)
                       (seek_fuel sample_versions_and_child_iter) 8
                       sample_versions_and_child_iter ["k"%byte] 3
                       sample_found_key0 (Some false) (Some SampleTombstone))
  = Some (OK, sample_key_at ["k"%byte; "x"%byte] 1, Some true,
          Some (SamplePayload ["z"%byte]), 3)
  /\ linear_scan_position ["k"%byte] 3 (entries sample_versions_and_child_iter) = 3.
Proof. split; vm_compute; reflexivity. Qed.

(** Why a timestamp has to end the key: between the versions of "k" written
    at 20 and at 10, a key that goes on after the timestamp 11 and ends in
    bytes that read as the time 0.  The read at 12 lands on it, takes it for
    a version at or before the read time, and fails to decode it. *)
Definition sample_key_after_timestamp_iter : Iterator :=
  {| entries := [ (AppendDocHybridTime (at_time 20) ["k"%byte], ["c"%byte]);
                  (AppendDocHybridTime (at_time 11) ["k"%byte]
                   ++ DocHybridTime_EncodedInDocDbFormat (at_time 0), ["m"%byte]);
                  (AppendDocHybridTime (at_time 10) ["k"%byte], ["b"%byte]) ];
     pos := 0; calls := [] |}.

Example read_lands_on_key_after_timestamp :
  ordered (entries sample_key_after_timestamp_iter) = true
  /\ timestamp_ends_key ["k"%byte] (entries sample_key_after_timestamp_iter) = false
  /\ option_map (fun r => (status r, is_found r, pos (iter r)))
       (SeekToValidKvAtTs (codec := sample_codec)
                          (seek_fuel sample_key_after_timestamp_iter) 8
                          sample_key_after_timestamp_iter ["k"%byte] 12
                          sample_found_key0 (Some false) (Some SampleTombstone))
     = Some (Corruption, Some true, 1).
Proof. repeat split; vm_compute; reflexivity. Qed.

(** On the keyspace of the source comment the scan starts on a.b and ends
    on a.c. *)
Example subdocument_read_is_a_linear_scan :
  timestamp_ends_key ["a"%byte] (entries sample_subdocument_iter) = true
  /\ lower_bound (entries sample_subdocument_iter) (seek_probe ["a"%byte] 15) = 0
  /\ linear_scan_position ["a"%byte] 15 (entries sample_subdocument_iter) = 1.
Proof. repeat split; vm_compute; reflexivity. Qed.

(** The example of the source comment: the first engine seek finds a.b
    written at 20, which is too new; the second one, to a.b at the read time
    15, steps to a.c written at 10. *)
Example subdocument_read_skips_newer_descendant :
  option_map (fun r => (status r, found_key r, is_found r, found_value r,
                        calls (iter r)))
    (SeekToValidKvAtTs (codec := sample_codec) (seek_fuel sample_subdocument_iter) 8
                       sample_subdocument_iter ["a"%byte] 15
                       sample_found_key0 (Some false) (Some SampleTombstone))
  = Some (OK, sample_key_at ["a"%byte; "c"%byte] 10, Some true,
          Some (SamplePayload ["y"%byte]),
          [CallSeek (seek_probe ["a"%byte] 15); CallNext]).
Proof. vm_compute. reflexivity. Qed.

Lemma PerformRocksDBSeek_debug_validation_witness :
  PerformRocksDBSeekIn (codec := sample_codec) DebugBuild 8 sample_versions_iter
    (AppendDocHybridTime {| hybrid_time := 7; write_id := 3 |} ["k"%byte]) = None.
Proof.
  apply (proj1 (PerformRocksDBSeek_debug_validation (codec := sample_codec) 8
                  sample_versions_iter
                  (AppendDocHybridTime {| hybrid_time := 7; write_id := 3 |} ["k"%byte]))
               (@mkSubDocKey sample_codec ["k"%byte]
                             (Some {| hybrid_time := 7; write_id := 3 |}))
               {| hybrid_time := 7; write_id := 3 |}).
  - vm_compute. reflexivity.
  - reflexivity.
  - discriminate.
  - vm_compute. discriminate.
Defined.

End Samples.

(* ===================================================================== *)
(** * [PlainBlockDecoder::SeekAtOrAfterValue]: results *)
(* ===================================================================== *)

Section PlainBlockFacts.
Import PlainBlockDecoder.
Local Open Scope Z_scope.

Lemma sorted_head_le x r :
  sorted (x :: r) = true -> forall y, In y r -> x <= y.
Proof.
  revert x. induction r as [|z r IH]; intros x H y Hin; [destruct Hin|].
  cbn [sorted] in H. apply andb_true_iff in H as [H1 H2]. apply Z.leb_le in H1.
  destruct Hin as [->|Hin]; auto.
  specialize (IH z H2 y Hin). lia.
Qed.

Lemma sorted_tail x r : sorted (x :: r) = true -> sorted r = true.
Proof.
  cbn [sorted]. destruct r; auto. intros H. now apply andb_true_iff in H.
Qed.

Lemma sorted_nth l :
  sorted l = true ->
  forall i j, (i <= j < length l)%nat -> nth i l 0 <= nth j l 0.
Proof.
  induction l as [|x r IH]; intros Hs i j Hij; [simpl in Hij; lia|].
  destruct j as [|j].
  - assert (i = 0%nat) as -> by lia. lia.
  - destruct i as [|i]; cbn [nth].
    + eapply sorted_head_le; eauto. apply nth_In. simpl in Hij. lia.
    + apply IH; [eapply sorted_tail; eauto|]. simpl in Hij. lia.
Qed.

Lemma strictly_sorted_head_lt x r :
  strictly_sorted (x :: r) = true -> forall y, In y r -> x < y.
Proof.
  revert x. induction r as [|z r IH]; intros x H y Hin; [destruct Hin|].
  cbn [strictly_sorted] in H. apply andb_true_iff in H as [H1 H2]. apply Z.ltb_lt in H1.
  destruct Hin as [->|Hin]; auto.
  specialize (IH z H2 y Hin). lia.
Qed.

Lemma strictly_sorted_nth l :
  strictly_sorted l = true ->
  forall i j, (i < j < length l)%nat -> nth i l 0 < nth j l 0.
Proof.
  induction l as [|x r IH]; intros Hs i j Hij; [simpl in Hij; lia|].
  destruct j as [|j]; [lia|].
  destruct i as [|i]; cbn [nth].
  - eapply strictly_sorted_head_lt; eauto. apply nth_In. simpl in Hij. lia.
  - apply IH; [|simpl in Hij; lia].
    cbn [strictly_sorted] in Hs. destruct r; auto.
    now apply andb_true_iff in Hs.
Qed.

Lemma strictly_sorted_sorted l : strictly_sorted l = true -> sorted l = true.
Proof.
  induction l as [|x r IH]; auto. cbn [strictly_sorted sorted].
  destruct r as [|y r]; auto. intros H. apply andb_true_iff in H as [H1 H2].
  apply Z.ltb_lt in H1. rewrite (IH H2), andb_true_r. apply Z.leb_le. lia.
Qed.

Lemma elem_sorted d :
  sorted (data_ d) = true -> parsed d ->
  forall i j, 0 <= i <= j -> j < num_elems_ d -> elem d i <= elem d j.
Proof.
  intros Hs Hp i j Hij Hj. unfold elem. apply sorted_nth; auto.
  unfold parsed in Hp. lia.
Qed.

(** The loop invariant of the binary search: everything before [lo] is
    smaller than the target, everything from [hi] on is larger. *)
Lemma search_spec d target :
  sorted (data_ d) = true -> parsed d -> num_elems_ d <= 2 ^ 31 ->
  forall fuel lo hi,
    0 <= lo <= hi -> hi <= num_elems_ d ->
    hi - lo < Z.of_nat fuel ->
    (forall i, 0 <= i < lo -> elem d i < target) ->
    (forall i, hi <= i < num_elems_ d -> target < elem d i) ->
    exists r,
      search fuel d target lo hi = Some r
      /\ match r with
         | Exact mid => 0 <= mid < num_elems_ d /\ elem d mid = target
         | Exhausted l =>
             0 <= l <= num_elems_ d
             /\ (forall i, 0 <= i < l -> elem d i < target)
             /\ (forall i, l <= i < num_elems_ d -> target < elem d i)
         end.
Proof.
  intros Hs Hp Hn. induction fuel as [|fuel IH]; intros lo hi Hlo Hhi Hf Hbelow Habove;
    [lia|].
  cbn [search].
  destruct (Z.eqb_spec lo hi) as [->|Hne].
  - eexists. split; [reflexivity|]. repeat split; auto; lia.
  - assert (uint32 (lo + hi) = lo + hi) as Hu.
    { unfold uint32. apply Z.mod_small. lia. }
    rewrite Hu.
    assert (lo <= (lo + hi) / 2 < hi) as Hmid.
    { split; [apply Z.div_le_lower_bound; lia|apply Z.div_lt_upper_bound; lia]. }
    set (mid := (lo + hi) / 2) in *.
    assert (uint32 (mid + 1) = mid + 1) as Hu1.
    { unfold uint32. apply Z.mod_small. lia. }
    cbv zeta.
    destruct (Z.ltb_spec (elem d mid) target) as [Hlt|Hge].
    + rewrite Hu1. apply IH; auto; try lia.
      intros i Hi. pose proof (elem_sorted d Hs Hp i mid). lia.
    + destruct (Z.ltb_spec target (elem d mid)) as [Hgt|Hle].
      * apply IH; auto; try lia.
        intros i Hi. pose proof (elem_sorted d Hs Hp mid i). lia.
      * eexists. split; [reflexivity|]. split; lia.
Qed.

Lemma search_fuel_mono d target fuel :
  forall lo hi r,
    search fuel d target lo hi = Some r ->
    forall fuel', (fuel <= fuel')%nat -> search fuel' d target lo hi = Some r.
Proof.
  induction fuel as [|fuel IH]; intros lo hi r H fuel' Hle; [discriminate|].
  destruct fuel' as [|fuel']; [lia|]. cbn [search] in *.
  destruct (lo =? hi); auto. cbv zeta in *.
  destruct (elem d (uint32 (lo + hi) / 2) <? target);
    [apply IH with (fuel' := fuel') in H; auto; lia|].
  destruct (target <? elem d (uint32 (lo + hi) / 2)); auto.
  apply IH with (fuel' := fuel') in H; auto; lia.
Qed.

Lemma In_elem d x :
  parsed d -> (In x (data_ d) <-> exists i, 0 <= i < num_elems_ d /\ elem d i = x).
Proof.
  unfold parsed, elem. intros Hp. split.
  - intros Hin. destruct (In_nth _ _ 0 Hin) as (n & Hn & Hx).
    exists (Z.of_nat n). rewrite Nat2Z.id. split; auto. lia.
  - intros (i & Hi & Hx). rewrite <- Hx. apply nth_In. lia.
Qed.

(** C8 (amended).  On a parsed block in sorted order with at most 2^31
    elements the search returns, and: the status is NotFound exactly when
    every stored element is strictly less than the target, and OK otherwise;
    [exact_match] is true exactly when an element equal to the target is
    present; on OK the decoder is positioned inside the block, at an element
    that is at or after the target, with no larger element before it; without
    an exact match every element before the position is strictly less than
    the target (the position is the smallest index at or after the target);
    with an exact match the element at the position is the target, and it is
    the smallest such index when the elements are distinct. *)
Theorem SeekAtOrAfterValue_sorted_block (d : t) (target : Z) :
  sorted (data_ d) = true ->
  parsed d ->
  num_elems_ d <= 2 ^ 31 ->
  exists out,
    (forall fuel, (seek_fuel d <= fuel)%nat ->
                  SeekAtOrAfterValue fuel d target = Some out)
    /\ decoder out = set_cur_idx d (cur_idx_ (decoder out))
    /\ (seek_status out = NotFound <-> (forall x, In x (data_ d) -> x < target))
    /\ (seek_status out <> NotFound -> seek_status out = OK)
    /\ (exact_match out = true <-> In target (data_ d))
    /\ (seek_status out = OK ->
        let idx := cur_idx_ (decoder out) in
        0 <= idx < num_elems_ d
        /\ target <= elem d idx
        /\ (forall i, 0 <= i < idx -> elem d i <= target)
        /\ (exact_match out = false -> forall i, 0 <= i < idx -> elem d i < target)
        /\ (exact_match out = true -> elem d idx = target)
        /\ (strictly_sorted (data_ d) = true ->
            forall i, 0 <= i < idx -> elem d i < target)).
Proof.
  intros Hs Hp Hn.
  destruct (search_spec d target Hs Hp Hn (seek_fuel d) 0 (num_elems_ d))
    as (r & Hr & Hspec); unfold parsed, seek_fuel in *; try lia.
  assert (forall fuel, (S (length (data_ d)) <= fuel)%nat ->
                       search fuel d target 0 (num_elems_ d) = Some r) as Hall
      by (intros fuel Hfuel; eapply search_fuel_mono; eauto).
  fold (parsed d) in Hp.
  unfold SeekAtOrAfterValue.
  destruct r as [mid|l].
  - destruct Hspec as [Hm Hem].
    exists (mkOutcome OK (set_cur_idx d mid) true).
    split; [intros fuel Hfuel; now rewrite (Hall fuel Hfuel)|].
    cbn [seek_status decoder exact_match set_cur_idx cur_idx_].
    split; [reflexivity|].
    split; [split; [discriminate|]|].
    { intros Hless. assert (In target (data_ d)) as Hin
          by (apply In_elem; eauto).
      specialize (Hless _ Hin). lia. }
    split; [auto|].
    split; [split; [intros _; apply In_elem; eauto|auto]|].
    intros _. split; [exact Hm|]. split; [lia|].
    split; [intros i Hi; pose proof (elem_sorted d Hs Hp i mid); lia|].
    split; [discriminate|]. split; [auto|].
    intros Hss i Hi. unfold elem in *. rewrite <- Hem.
    apply strictly_sorted_nth; auto. unfold parsed in Hp. lia.
  - destruct Hspec as (Hl & Hb & Ha).
    destruct (Z.eqb_spec l (num_elems_ d)) as [E|Hne].
    + exists (mkOutcome NotFound (set_cur_idx d l) false).
      split; [intros fuel Hfuel; rewrite (Hall fuel Hfuel);
              destruct (Z.eqb_spec l (num_elems_ d)); congruence|].
      cbn [seek_status decoder exact_match set_cur_idx cur_idx_].
      split; [reflexivity|].
      split; [split; [|reflexivity]|].
      { intros _ x Hin. apply In_elem in Hin; auto.
        destruct Hin as (i & Hi & <-). apply Hb. lia. }
      split; [congruence|].
      split; [split; [discriminate|]|discriminate].
      intros Hin. apply In_elem in Hin; auto. destruct Hin as (i & Hi & Hx).
      specialize (Hb i ltac:(lia)). lia.
    + exists (mkOutcome OK (set_cur_idx d l) false).
      split; [intros fuel Hfuel; rewrite (Hall fuel Hfuel);
              destruct (Z.eqb_spec l (num_elems_ d)); congruence|].
      cbn [seek_status decoder exact_match set_cur_idx cur_idx_].
      split; [reflexivity|].
      split; [split; [discriminate|]|].
      { intros Hless. assert (In (elem d l) (data_ d)) as Hin
            by (apply In_elem; auto; exists l; split; [lia|reflexivity]).
        specialize (Hless _ Hin). specialize (Ha l ltac:(lia)). lia. }
      split; [auto|].
      split; [split; [discriminate|]|].
      { intros Hin. apply In_elem in Hin; auto. destruct Hin as (i & Hi & Hx).
        destruct (Z.lt_ge_cases i l) as [L|G];
          [specialize (Hb i ltac:(lia))|specialize (Ha i ltac:(lia))]; lia. }
      intros _. split; [lia|]. split; [specialize (Ha l ltac:(lia)); lia|].
      split; [intros i Hi; specialize (Hb i Hi); lia|].
      split; [intros _ i Hi; apply Hb; lia|]. split; [discriminate|].
      intros _ i Hi. apply Hb. lia.
Qed.

End PlainBlockFacts.

Section PlainBlockSamples.
Import PlainBlockDecoder.
Local Open Scope Z_scope.

Lemma SeekAtOrAfterValue_sorted_block_witness :
  exists out,
    SeekAtOrAfterValue (seek_fuel sample_block) sample_block 4 = Some out
    /\ (seek_status out = OK -> 0 <= cur_idx_ (decoder out) < 4).
Proof.
  destruct (SeekAtOrAfterValue_sorted_block sample_block 4)
    as (out & Hout & _ & _ & _ & _ & Hpos).
  - reflexivity.
  - reflexivity.
  - vm_compute. discriminate.
  - exists out. split; [apply Hout; apply Nat.le_refl|].
    intros Hok. apply (Hpos Hok).
Defined.

Example seek_between_elements :
  SeekAtOrAfterValue (seek_fuel sample_block) sample_block 4
  = Some (mkOutcome OK (set_cur_idx sample_block 2) false).
Proof. reflexivity. Qed.

Example seek_past_last_element :
  SeekAtOrAfterValue (seek_fuel sample_block) sample_block 8
  = Some (mkOutcome NotFound (set_cur_idx sample_block 4) false).
Proof. reflexivity. Qed.

(** C8 as stated fails on a sorted block with equal elements: the search
    stops at the first probe that holds the target, here index 1, although
    index 0 already holds an element at or after the target. *)
Lemma SeekAtOrAfterValue_not_smallest_index_on_duplicates :
  sorted (data_ sample_block_with_duplicates) = true
  /\ parsed sample_block_with_duplicates
  /\ SeekAtOrAfterValue (seek_fuel sample_block_with_duplicates)
                        sample_block_with_duplicates 5
     = Some (mkOutcome OK (set_cur_idx sample_block_with_duplicates 1) true)
  /\ ~ (forall i, 0 <= i -> 5 <= elem sample_block_with_duplicates i -> 1 <= i).
Proof.
  repeat split.
  intros H.
  assert (5 <= elem sample_block_with_duplicates 0) as H0 by (vm_compute; discriminate).
  specialize (H 0 ltac:(lia) H0). lia.
Qed.

End PlainBlockSamples.

(* ===================================================================== *)
(** * The SubDocKey encoding preserves the order *)
(* ===================================================================== *)

Section SubDocKeyOrder.
Import Slice SliceFacts.

Variables DocKey SubKey : Type.
Variable DocKey_CompareTo : DocKey -> DocKey -> comparison.
Variable SubKey_CompareTo : SubKey -> SubKey -> comparison.
Variable DocKey_Encode : DocKey -> list byte.
Variable SubKey_Encode : SubKey -> list byte.

(** The comparisons of the components are total orders. *)
Hypothesis DocKey_CompareTo_eq : forall a b, DocKey_CompareTo a b = Eq -> a = b.
Hypothesis DocKey_CompareTo_antisym :
  forall a b, DocKey_CompareTo b a = CompOpp (DocKey_CompareTo a b).
Hypothesis SubKey_CompareTo_eq : forall a b, SubKey_CompareTo a b = Eq -> a = b.
Hypothesis SubKey_CompareTo_antisym :
  forall a b, SubKey_CompareTo b a = CompOpp (SubKey_CompareTo a b).

(** The typed value encoders are ordering-preserving, whatever is appended
    after the encoded value. *)
Hypothesis DocKey_Encode_ordered :
  forall a b x y, DocKey_CompareTo a b = Lt ->
                  compare (DocKey_Encode a ++ x) (DocKey_Encode b ++ y) = Lt.
Hypothesis SubKey_Encode_ordered :
  forall a b x y, SubKey_CompareTo a b = Lt ->
                  compare (SubKey_Encode a ++ x) (SubKey_Encode b ++ y) = Lt.

(** An encoded component starts with a type tag above [kHybridTime]. *)
Hypothesis SubKey_Encode_tag :
  forall s, exists b r, SubKey_Encode s = b :: r
                        /\ (byte_val kHybridTime < byte_val b)%Z.

Local Abbreviation SubDocKey := (SubDocKeyEncoding.SubDocKey DocKey SubKey).
Local Abbreviation Encode := (SubDocKeyEncoding.Encode DocKey_Encode SubKey_Encode).
Local Abbreviation CompareTo :=
  (SubDocKeyEncoding.CompareTo DocKey_CompareTo SubKey_CompareTo).
Local Abbreviation CompareSubKeys := (SubDocKeyEncoding.CompareSubKeys SubKey_CompareTo).
Local Abbreviation EncodeHybridTime := SubDocKeyEncoding.EncodeHybridTime.
Local Abbreviation CompareHybridTimeReverse := SubDocKeyEncoding.CompareHybridTimeReverse.

Let valid_time (t : option DocHybridTime) : Prop :=
  match t with Some d => DocHybridTime_valid d | None => True end.

Lemma CompareSubKeys_eq p : forall q, CompareSubKeys p q = Eq -> p = q.
Proof.
  induction p as [|x p IH]; intros [|y q]; simpl; try discriminate; auto.
  destruct (SubKey_CompareTo x y) eqn:E; try discriminate.
  intros H. apply SubKey_CompareTo_eq in E. f_equal; auto.
Qed.

Lemma CompareSubKeys_antisym p :
  forall q, CompareSubKeys q p = CompOpp (CompareSubKeys p q).
Proof.
  induction p as [|x p IH]; intros [|y q]; simpl; auto.
  rewrite (SubKey_CompareTo_antisym x y).
  destruct (SubKey_CompareTo x y); simpl; auto.
Qed.

Lemma CompareHybridTimeReverse_eq s t : CompareHybridTimeReverse s t = Eq -> s = t.
Proof.
  destruct s as [a|], t as [b|]; cbn [SubDocKeyEncoding.CompareHybridTimeReverse];
    intros H; try discriminate H; auto.
  apply DocHybridTime_compare_eq in H. congruence.
Qed.

Lemma CompareHybridTimeReverse_antisym s t :
  CompareHybridTimeReverse t s = CompOpp (CompareHybridTimeReverse s t).
Proof.
  destruct s as [a|], t as [b|]; cbn [SubDocKeyEncoding.CompareHybridTimeReverse CompOpp];
    auto.
  apply DocHybridTime_compare_antisym.
Qed.

Lemma CompareTo_eq (a b : SubDocKey) : CompareTo a b = Eq -> a = b.
Proof.
  unfold SubDocKeyEncoding.CompareTo. destruct a as [ka pa ta], b as [kb pb tb]. simpl.
  destruct (DocKey_CompareTo ka kb) eqn:E1; try discriminate.
  destruct (CompareSubKeys pa pb) eqn:E2; try discriminate.
  intros E3. apply DocKey_CompareTo_eq in E1. apply CompareSubKeys_eq in E2.
  apply CompareHybridTimeReverse_eq in E3. congruence.
Qed.

Lemma CompareTo_antisym (a b : SubDocKey) : CompareTo b a = CompOpp (CompareTo a b).
Proof.
  unfold SubDocKeyEncoding.CompareTo.
  rewrite (DocKey_CompareTo_antisym (SubDocKeyEncoding.doc_key a)),
          (CompareSubKeys_antisym (SubDocKeyEncoding.subkeys a)),
          (CompareHybridTimeReverse_antisym (SubDocKeyEncoding.doc_ht a)).
  destruct (DocKey_CompareTo _ _); simpl; auto.
  destruct (CompareSubKeys _ _); simpl; auto.
Qed.

Lemma EncodeHybridTime_lt s t :
  valid_time s -> valid_time t ->
  CompareHybridTimeReverse s t = Lt ->
  compare (EncodeHybridTime s) (EncodeHybridTime t) = Lt.
Proof.
  destruct s as [a|], t as [b|];
    cbn [SubDocKeyEncoding.EncodeHybridTime SubDocKeyEncoding.CompareHybridTimeReverse
         valid_time compare];
    intros Ha Hb H; try discriminate H; try reflexivity.
  rewrite byte_cmp_refl. now rewrite DocHybridTime_encoding_reverses.
Qed.

Lemma subkeys_lt p :
  forall q s t,
    CompareSubKeys p q = Lt ->
    compare (concat (map SubKey_Encode p) ++ EncodeHybridTime s)
            (concat (map SubKey_Encode q) ++ EncodeHybridTime t) = Lt.
Proof.
  induction p as [|x p IH]; intros [|y q] s t H;
    cbn [SubDocKeyEncoding.CompareSubKeys] in H; try discriminate H.
  - cbn [map concat app].
    destruct (SubKey_Encode_tag y) as (b & r & -> & Hb).
    destruct s as [a|]; cbn [SubDocKeyEncoding.EncodeHybridTime app compare]; auto.
    unfold byte_cmp. apply Z.compare_lt_iff in Hb. now rewrite Hb.
  - cbn [map concat]. rewrite <- !app_assoc.
    destruct (SubKey_CompareTo x y) eqn:E; try discriminate H.
    + apply SubKey_CompareTo_eq in E. subst y. rewrite compare_app. now apply IH.
    + now apply SubKey_Encode_ordered.
Qed.

Lemma Encode_lt (a b : SubDocKey) :
  SubDocKeyEncoding.SubDocKey_valid a -> SubDocKeyEncoding.SubDocKey_valid b ->
  CompareTo a b = Lt -> compare (Encode a true) (Encode b true) = Lt.
Proof.
  unfold SubDocKeyEncoding.CompareTo, SubDocKeyEncoding.Encode,
    SubDocKeyEncoding.SubDocKey_valid.
  destruct a as [ka pa ta], b as [kb pb tb].
  cbn [SubDocKeyEncoding.doc_key SubDocKeyEncoding.subkeys SubDocKeyEncoding.doc_ht].
  intros Ha Hb H.
  destruct (DocKey_CompareTo ka kb) eqn:E1; try discriminate H.
  - apply DocKey_CompareTo_eq in E1. subst kb. rewrite compare_app.
    destruct (CompareSubKeys pa pb) eqn:E2; try discriminate H.
    + apply CompareSubKeys_eq in E2. subst pb. rewrite compare_app.
      now apply EncodeHybridTime_lt.
    + now apply subkeys_lt.
  - now apply DocKey_Encode_ordered.
Qed.

(** C6.  The SubDocKey encoding is strictly order-preserving: the byte-wise
    comparison of two encoded SubDocKeys is their comparison in the
    (DocKey, sub-path, reverse-DocHybridTime) order; in particular the
    encoding of A is below the encoding of B exactly when A precedes B. *)
Theorem SubDocKey_Encode_order_preserving (a b : SubDocKey) :
  SubDocKeyEncoding.SubDocKey_valid a ->
  SubDocKeyEncoding.SubDocKey_valid b ->
  compare (Encode a true) (Encode b true) = CompareTo a b
  /\ (compare (Encode a true) (Encode b true) = Lt <-> CompareTo a b = Lt).
Proof.
  intros Ha Hb.
  assert (compare (Encode a true) (Encode b true) = CompareTo a b) as H.
  { destruct (CompareTo a b) eqn:E.
    - apply CompareTo_eq in E. subst b. apply compare_refl.
    - now apply Encode_lt.
    - apply compare_gt_lt. apply Encode_lt; auto.
      rewrite CompareTo_antisym, E. reflexivity. }
  split; [exact H|]. now rewrite H.
Qed.

End SubDocKeyOrder.

(* ===================================================================== *)
(** * The SubDocKey encoding on sample encoders *)
(* ===================================================================== *)

Section SubDocKeySamples.
Import Slice SliceFacts.

Lemma sample_DocKey_Encode_ordered a b x y :
  byte_cmp a b = Lt ->
  compare (sample_DocKey_Encode a ++ x) (sample_DocKey_Encode b ++ y) = Lt.
Proof.
  intros H. unfold sample_DocKey_Encode. cbn [app compare]. now rewrite H.
Qed.

Lemma sample_SubKey_Encode_ordered a b x y :
  byte_cmp a b = Lt ->
  compare (sample_SubKey_Encode a ++ x) (sample_SubKey_Encode b ++ y) = Lt.
Proof.
  intros H. unfold sample_SubKey_Encode. cbn [app compare].
  now rewrite byte_cmp_refl, H.
Qed.

Lemma sample_SubKey_Encode_tag s :
  exists b r, sample_SubKey_Encode s = b :: r
              /\ (byte_val kHybridTime < byte_val b)%Z.
Proof. exists "$"%byte, [s]. split; reflexivity. Qed.

Lemma SubDocKey_Encode_order_preserving_witness :
  compare
    (SubDocKeyEncoding.Encode sample_DocKey_Encode sample_SubKey_Encode
       (sample_subdoc_key "a" ["x"%byte] (Some 20%Z)) true)
    (SubDocKeyEncoding.Encode sample_DocKey_Encode sample_SubKey_Encode
       (sample_subdoc_key "a" ["x"%byte] (Some 10%Z)) true) = Lt
  <-> SubDocKeyEncoding.CompareTo byte_cmp byte_cmp
        (sample_subdoc_key "a" ["x"%byte] (Some 20%Z))
        (sample_subdoc_key "a" ["x"%byte] (Some 10%Z)) = Lt.
Proof.
  apply (SubDocKey_Encode_order_preserving
           byte byte byte_cmp byte_cmp sample_DocKey_Encode sample_SubKey_Encode
           byte_cmp_eq byte_cmp_antisym byte_cmp_eq byte_cmp_antisym
           sample_DocKey_Encode_ordered sample_SubKey_Encode_ordered
           sample_SubKey_Encode_tag).
  - apply at_time_valid, small_time. lia.
  - apply at_time_valid, small_time. lia.
Defined.

(** Pre-order with the most recent version first: a node before its
    versions, a later version before an earlier one, the versions of a node
    before its children. *)
Example encoded_order_of_a_document :
  map (fun ab =>
         compare
           (SubDocKeyEncoding.Encode sample_DocKey_Encode sample_SubKey_Encode (fst ab) true)
           (SubDocKeyEncoding.Encode sample_DocKey_Encode sample_SubKey_Encode (snd ab) true))
      [ (sample_subdoc_key "a" [] None, sample_subdoc_key "a" [] (Some 20%Z));
        (sample_subdoc_key "a" [] (Some 20%Z), sample_subdoc_key "a" [] (Some 10%Z));
        (sample_subdoc_key "a" [] (Some 10%Z), sample_subdoc_key "a" ["x"%byte] (Some 30%Z));
        (sample_subdoc_key "a" ["x"%byte] (Some 30%Z),
         sample_subdoc_key "a" ["x"%byte; "y"%byte] (Some 40%Z));
        (sample_subdoc_key "a" ["x"%byte; "y"%byte] (Some 40%Z),
         sample_subdoc_key "b" [] (Some 50%Z)) ]
  = [Lt; Lt; Lt; Lt; Lt].
Proof. vm_compute. reflexivity. Qed.

End SubDocKeySamples.

(* ===================================================================== *)
(** * Further operations of the cited files *)
(* ===================================================================== *)

(* ===================================================================== *)
(** ** comparator.cc: separators, successors and the reverse comparator *)
(* ===================================================================== *)

Module Comparator.

(** The value of a character of [start], a [char] of a [std::string], after the
    promotion to [int] that [==] applies: [char] is a signed type on x86-64
    and an unsigned one on ARM, so the platform's choice is a parameter. *)
Definition char_value (char_is_signed : bool) (b : byte) : Z :=
  if char_is_signed && (128 <=? Slice.byte_val b)%Z
  then (Slice.byte_val b - 256)%Z
  else Slice.byte_val b.

(** The [while] loop of [FindShortestSeparator]: [diff_index] when the loop
    ends.  The loop stops at the end of the shorter string or at the first
    position where [start[diff_index] == limit[diff_index]] is false; the
    left operand is a [char], the right one a [uint8_t]. *)
Fixpoint diff_index (char_is_signed : bool) (start limit : list byte) : nat :=
  match start, limit with
  | x :: start', y :: limit' =>
      if (char_value char_is_signed x =? Slice.byte_val y)%Z
      then S (diff_index char_is_signed start' limit')
      else O
  | _, _ => O
  end.

(** [BytewiseComparatorImpl::FindShortestSeparator(start, limit)]; the result
    is the new content of [*start].  [Compare] is the virtual [Compare] of
    the comparator the call is made on; the [assert] is compiled in a debug
    build only, and a failed [assert] ends the process: [None]. *)
Definition FindShortestSeparator
           (Compare : list byte -> list byte -> comparison) (b : Build)
           (char_is_signed : bool) (start limit : list byte) : option (list byte) :=
  let min_length := Nat.min (length start) (length limit) in
  let di := diff_index char_is_signed start limit in
  if (min_length <=? di)%nat then Some start
  else
    let diff_byte := Slice.byte_val (nth di start x00) in
    if ((diff_byte <? 255) && (diff_byte + 1 <? Slice.byte_val (nth di limit x00)))%Z
    then
      let start' := firstn di start ++ [byte_of_Z (diff_byte + 1)] in
      match b with
      | OptimizedBuild => Some start'
      | DebugBuild =>
          if Slice.lt0 (Compare start' limit) then Some start' else None
      end
    else Some start.

(** [BytewiseComparatorImpl::FindShortSuccessor(key)]: the first byte that
    is not 0xff is incremented and the key is cut after it; a run of 0xff is
    left alone. *)
Fixpoint FindShortSuccessor (key : list byte) : list byte :=
  match key with
  | [] => []
  | b :: rest =>
      if (Slice.byte_val b =? 255)%Z then b :: FindShortSuccessor rest
      else [byte_of_Z (Slice.byte_val b + 1)]
  end.

(** [ReverseBytewiseComparatorImpl::Compare] is [-a.compare(b)]; it inherits
    [FindShortestSeparator] and [FindShortSuccessor]. *)
Definition Reverse_Compare (a b : list byte) : comparison :=
  CompOpp (Slice.compare a b).

End Comparator.

Section ComparatorFacts.
Import Slice SliceFacts Comparator.

Lemma byte_eqb_refl (x : byte) : Byte.eqb x x = true.
Proof. now apply Byte.byte_dec_lb. Qed.

Lemma byte_eqb_false_cmp (x y : byte) : Byte.eqb x y = false -> byte_cmp x y <> Eq.
Proof.
  intros H C. apply byte_cmp_eq in C. subst. rewrite byte_eqb_refl in H. discriminate.
Qed.

Lemma byte_val_succ (b : byte) :
  (byte_val b < 255)%Z -> byte_val (byte_of_Z (byte_val b + 1)) = (byte_val b + 1)%Z.
Proof.
  intros H. rewrite byte_val_byte_of_Z. pose proof (byte_val_range b).
  apply Z.mod_small. lia.
Qed.

(** The bytes that [FindShortestSeparator] writes to [*start] before its
    [assert], if it writes any. *)
Definition shortened (char_is_signed : bool) (start limit : list byte)
  : option (list byte) :=
  let di := diff_index char_is_signed start limit in
  if (Nat.min (length start) (length limit) <=? di)%nat then None
  else
    let diff_byte := byte_val (nth di start x00) in
    if ((diff_byte <? 255) && (diff_byte + 1 <? byte_val (nth di limit x00)))%Z
    then Some (firstn di start ++ [byte_of_Z (diff_byte + 1)])
    else None.

Lemma FindShortestSeparator_shortened Compare b cs start limit :
  FindShortestSeparator Compare b cs start limit
  = match shortened cs start limit with
    | None => Some start
    | Some start' =>
        match b with
        | OptimizedBuild => Some start'
        | DebugBuild => if lt0 (Compare start' limit) then Some start' else None
        end
    end.
Proof.
  unfold FindShortestSeparator, shortened. cbv zeta.
  destruct (Nat.min (length start) (length limit)
            <=? diff_index cs start limit)%nat; auto.
  destruct ((byte_val (nth (diff_index cs start limit) start x00) <? 255)
            && (byte_val (nth (diff_index cs start limit) start x00) + 1
                <? byte_val (nth (diff_index cs start limit) limit x00)))%Z; auto.
Qed.

(** The test of the prefix loop holds only on equal bytes, and on equal
    bytes it fails exactly for a byte of 0x80 or more read as a signed
    [char]. *)
Lemma char_value_eq cs (x y : byte) :
  (char_value cs x =? byte_val y)%Z = true -> x = y.
Proof.
  unfold char_value. intros H. apply Z.eqb_eq in H.
  pose proof (byte_val_range x). pose proof (byte_val_range y).
  destruct (cs && (128 <=? byte_val x)%Z); [lia|]. now apply byte_val_inj.
Qed.

Lemma shortened_cons cs x start limit :
  (char_value cs x =? byte_val x)%Z = true ->
  shortened cs (x :: start) (x :: limit)
  = option_map (cons x) (shortened cs start limit).
Proof.
  intros E. unfold shortened. cbn [diff_index length]. rewrite E.
  rewrite <- Nat.succ_min_distr. cbn [Nat.leb nth firstn app].
  destruct (Nat.min (length start) (length limit) <=? diff_index cs start limit)%nat; auto.
  destruct ((byte_val (nth (diff_index cs start limit) start x00) <? 255)
            && (byte_val (nth (diff_index cs start limit) start x00) + 1
                <? byte_val (nth (diff_index cs start limit) limit x00)))%Z; auto.
Qed.

Lemma shortened_stop cs x y start limit :
  (char_value cs x =? byte_val y)%Z = false ->
  shortened cs (x :: start) (y :: limit)
  = if ((byte_val x <? 255) && (byte_val x + 1 <? byte_val y))%Z
    then Some [byte_of_Z (byte_val x + 1)]
    else None.
Proof.
  intros E. unfold shortened. cbn [diff_index length Nat.min]. rewrite E.
  cbn [Nat.leb nth firstn app]. reflexivity.
Qed.

(** What is written is shorter than or as long as [start], strictly above
    [start] and strictly below [limit]. *)
Lemma shortened_spec cs start :
  forall limit start',
    shortened cs start limit = Some start' ->
    compare start start' = Lt
    /\ compare start' limit = Lt
    /\ (length start' <= length start)%nat.
Proof.
  induction start as [|x start IH]; intros limit start' H.
  - unfold shortened in H. cbn in H. discriminate.
  - destruct limit as [|y limit].
    + unfold shortened in H. cbn [length diff_index Nat.min Nat.leb] in H.
      discriminate.
    + destruct (char_value cs x =? byte_val y)%Z eqn:E.
      * pose proof (char_value_eq cs x y E) as <-.
        rewrite (shortened_cons cs x start limit E) in H.
        destruct (shortened cs start limit) as [s|] eqn:S; [|discriminate].
        cbn [option_map] in H. inversion H; subst start'.
        destruct (IH limit s S) as (H1 & H2 & H3).
        cbn [compare length]. rewrite byte_cmp_refl.
        split; [exact H1|]. split; [exact H2|lia].
      * rewrite (shortened_stop cs x y start limit E) in H.
        destruct ((byte_val x <? 255) && (byte_val x + 1 <? byte_val y))%Z eqn:C;
          [|discriminate].
        inversion H; subst start'.
        apply andb_true_iff in C as [C1 C2].
        apply Z.ltb_lt in C1. apply Z.ltb_lt in C2.
        cbn [compare length]. unfold byte_cmp. rewrite (byte_val_succ x C1).
        assert ((byte_val x ?= byte_val x + 1)%Z = Lt) as L1
            by (apply Z.compare_lt_iff; lia).
        assert ((byte_val x + 1 ?= byte_val y)%Z = Lt) as L2
            by (apply Z.compare_lt_iff; lia).
        rewrite L1, L2. split; [reflexivity|]. split; [reflexivity|lia].
Qed.

(** X1.  On the bytewise comparator, in a debug or an optimized build and
    whether [char] is signed or not, [FindShortestSeparator] returns: the
    [assert] in the code cannot fail.  It never makes [start] smaller or
    longer, and whenever it changes [start] the new value is strictly above
    the old one and strictly below [limit].  For [start < limit] the result
    is a separator, [start <= result < limit]. *)
Theorem FindShortestSeparator_separates
        (b : Build) (char_is_signed : bool) (start limit : list byte) :
  exists r,
    FindShortestSeparator BytewiseComparator_Compare b char_is_signed start limit
    = Some r
    /\ compare start r <> Gt
    /\ (length r <= length start)%nat
    /\ (r <> start -> compare start r = Lt /\ compare r limit = Lt)
    /\ (compare start limit = Lt -> compare r limit = Lt).
Proof.
  rewrite FindShortestSeparator_shortened.
  destruct (shortened char_is_signed start limit) as [s|] eqn:S.
  - destruct (shortened_spec char_is_signed start limit s S) as (H1 & H2 & H3).
    exists s. unfold BytewiseComparator_Compare. rewrite H2. cbn [lt0].
    split; [now destruct b|]. split; [congruence|]. split; [exact H3|].
    split; auto.
  - exists start. split; [reflexivity|]. rewrite compare_refl.
    split; [discriminate|]. split; [lia|]. split; [congruence|auto].
Qed.

Lemma shortened_prefix cs start :
  forall r, shortened cs start (start ++ r) = None.
Proof.
  induction start as [|x start IH]; intros r.
  - unfold shortened. cbn. reflexivity.
  - cbn [app]. destruct (char_value cs x =? byte_val x)%Z eqn:E.
    + rewrite (shortened_cons cs x start (start ++ r) E), IH. reflexivity.
    + rewrite (shortened_stop cs x x start (start ++ r) E).
      destruct (Z.ltb_spec (byte_val x + 1) (byte_val x)); [lia|].
      now rewrite andb_false_r.
Qed.

(** Nothing is written unless [start] is bytewise before [limit]. *)
Lemma shortened_only_below cs start limit :
  compare start limit <> Lt -> shortened cs start limit = None.
Proof.
  intros H. destruct (shortened cs start limit) as [s|] eqn:S; auto.
  destruct (shortened_spec cs start limit s S) as (H1 & H2 & _).
  exfalso. apply H. eapply compare_lt_trans; eauto.
Qed.

(** X2.  [FindShortestSeparator] does not shorten if one string is a prefix
    of the other: on any comparator, in either build and whether [char] is
    signed or not, it returns and leaves [start] unchanged. *)
Theorem FindShortestSeparator_prefix_unchanged
        (Compare : list byte -> list byte -> comparison) (b : Build)
        (char_is_signed : bool) (start limit : list byte) :
  starts_with limit start = true \/ starts_with start limit = true ->
  FindShortestSeparator Compare b char_is_signed start limit = Some start.
Proof.
  intros H. rewrite FindShortestSeparator_shortened.
  assert (shortened char_is_signed start limit = None) as ->; [|reflexivity].
  destruct H as [H|H]; apply starts_with_inv in H as [r Hr].
  - subst limit. apply shortened_prefix.
  - subst start. apply shortened_only_below. intros C.
    apply compare_gt_lt in C. apply (compare_app_nil limit r). exact C.
Qed.

Lemma FindShortestSeparator_prefix_unchanged_witness :
  FindShortestSeparator Reverse_Compare DebugBuild true
                        ["a"%byte; "b"%byte] ["a"%byte; "b"%byte; "z"%byte]
  = Some ["a"%byte; "b"%byte].
Proof.
  apply (FindShortestSeparator_prefix_unchanged
           Reverse_Compare DebugBuild true
           ["a"%byte; "b"%byte] ["a"%byte; "b"%byte; "z"%byte]).
  left. reflexivity.
Defined.

(** X3.  [FindShortSuccessor] never makes the key smaller or longer, and it
    leaves the key unchanged exactly when the key is a run of 0xff bytes;
    otherwise the result is strictly above the key. *)
Theorem FindShortSuccessor_at_or_after (key : list byte) :
  compare key (FindShortSuccessor key) <> Gt
  /\ (length (FindShortSuccessor key) <= length key)%nat
  /\ (FindShortSuccessor key = key <-> Forall (fun b => byte_val b = 255%Z) key)
  /\ (FindShortSuccessor key <> key -> compare key (FindShortSuccessor key) = Lt).
Proof.
  induction key as [|b key (H1 & H2 & H3 & H4)]; cbn [FindShortSuccessor].
  - repeat split; auto; try discriminate; congruence.
  - destruct (Z.eqb_spec (byte_val b) 255) as [E|Hne].
    + cbn [compare length]. rewrite byte_cmp_refl. repeat split; auto; try lia.
      * intros Heq. constructor; auto. apply H3. congruence.
      * intros Hall. inversion Hall; subst. f_equal. now apply H3.
      * intros Hd. apply H4. congruence.
    + pose proof (byte_val_range b) as Hr.
      assert (byte_val b < 255)%Z as Hlt by lia.
      cbn [compare length]. unfold byte_cmp. rewrite (byte_val_succ b Hlt).
      assert ((byte_val b ?= byte_val b + 1)%Z = Lt) as L
          by (apply Z.compare_lt_iff; lia).
      rewrite L. repeat split; try discriminate; try lia.
      * intros Heq. exfalso. inversion Heq as [[Hb Hk]].
        apply (f_equal byte_val) in Hb. rewrite (byte_val_succ b Hlt) in Hb. lia.
      * intros Hall. inversion Hall; subst. lia.
Qed.

(** X4.  The reverse comparator orders two keys the way the bytewise
    comparator orders them swapped. *)
Theorem Reverse_Compare_swaps (a b : list byte) :
  Reverse_Compare a b = BytewiseComparator_Compare b a.
Proof.
  unfold Reverse_Compare, BytewiseComparator_Compare. symmetry. apply compare_antisym.
Qed.

(** X5.  Under the reverse comparator, which inherits the bytewise
    [FindShortestSeparator], a call with [start] before [limit] in the
    reverse order returns and never changes [start], in either build and
    whether [char] is signed or not: the [assert], which would compare in
    the reverse order, is not reached. *)
Theorem FindShortestSeparator_reverse_unchanged
        (b : Build) (char_is_signed : bool) (start limit : list byte) :
  Reverse_Compare start limit = Lt ->
  FindShortestSeparator Reverse_Compare b char_is_signed start limit = Some start.
Proof.
  unfold Reverse_Compare at 1. intros H.
  assert (compare start limit = Gt) as G
      by (destruct (compare start limit); simpl in H; congruence).
  rewrite FindShortestSeparator_shortened.
  rewrite shortened_only_below by congruence. reflexivity.
Qed.

Lemma FindShortestSeparator_reverse_unchanged_witness :
  FindShortestSeparator Reverse_Compare DebugBuild true
                        ["d"%byte; "x"%byte] ["a"%byte]
  = Some ["d"%byte; "x"%byte].
Proof.
  apply (FindShortestSeparator_reverse_unchanged
           DebugBuild true ["d"%byte; "x"%byte] ["a"%byte]).
  reflexivity.
Defined.

Lemma FindShortestSeparator_separates_witness :
  exists r,
    FindShortestSeparator BytewiseComparator_Compare DebugBuild true
                          [x80; "b"%byte; "c"%byte] [x80; "x"%byte]
    = Some r
    /\ compare [x80; "b"%byte; "c"%byte] r <> Gt
    /\ (length r <= 3)%nat
    /\ (r <> [x80; "b"%byte; "c"%byte] ->
        compare [x80; "b"%byte; "c"%byte] r = Lt
        /\ compare r [x80; "x"%byte] = Lt)
    /\ (compare [x80; "b"%byte; "c"%byte] [x80; "x"%byte] = Lt ->
        compare r [x80; "x"%byte] = Lt).
Proof.
  exact (FindShortestSeparator_separates
           DebugBuild true [x80; "b"%byte; "c"%byte] [x80; "x"%byte]).
Defined.

Lemma FindShortSuccessor_at_or_after_witness :
  compare [xff; "a"%byte; "b"%byte] (FindShortSuccessor [xff; "a"%byte; "b"%byte]) = Lt.
Proof.
  apply (proj2 (proj2 (proj2 (FindShortSuccessor_at_or_after
                                [xff; "a"%byte; "b"%byte])))).
  intros H. vm_compute in H. discriminate H.
Defined.

Example shortest_separator_shortens :
  FindShortestSeparator BytewiseComparator_Compare DebugBuild true
                        ["a"%byte; "b"%byte; "c"%byte] ["a"%byte; "x"%byte]
  = Some ["a"%byte; "c"%byte].
Proof. reflexivity. Qed.

(** A common byte of 0x80 or more ends the prefix loop where [char] is
    signed: [start] is then left as it is, although a shorter separator
    exists, which is the one found where [char] is unsigned. *)
Example shortest_separator_after_high_byte :
  FindShortestSeparator BytewiseComparator_Compare DebugBuild true
                        [x80; "a"%byte] [x80; "x"%byte]
  = Some [x80; "a"%byte]
  /\ FindShortestSeparator BytewiseComparator_Compare DebugBuild false
                           [x80; "a"%byte] [x80; "x"%byte]
     = Some [x80; "b"%byte].
Proof. split; reflexivity. Qed.

(** The [assert] calls the virtual [Compare]: on the reverse comparator a
    call with [start] bytewise before [limit] that shortens [start] fails it
    in a debug build. *)
Example shortest_separator_reverse_assert :
  FindShortestSeparator Reverse_Compare DebugBuild true
                        ["a"%byte; "b"%byte; "c"%byte] ["a"%byte; "x"%byte]
  = None
  /\ FindShortestSeparator Reverse_Compare OptimizedBuild true
                           ["a"%byte; "b"%byte; "c"%byte] ["a"%byte; "x"%byte]
     = Some ["a"%byte; "c"%byte].
Proof. split; reflexivity. Qed.

Example short_successor_skips_ff :
  FindShortSuccessor [xff; "a"%byte; "b"%byte] = [xff; "b"%byte].
Proof. reflexivity. Qed.

End ComparatorFacts.

(* ===================================================================== *)
(** ** docdb_rocksdb_util.cc: more on the seek functions *)
(* ===================================================================== *)

Section SeekPastSubKeyDef.
Variables DocKey SubKey : Type.
Variable DocKey_Encode : DocKey -> list byte.
Variable SubKey_Encode : SubKey -> list byte.

(** [SeekPastSubKey(sub_doc_key, iter)]: the key without its timestamp,
    followed by [DocHybridTime::kMin], is the target of a [SeekForward]. *)
Definition SeekPastSubKey (max_nexts : Z)
           (sub_doc_key : SubDocKeyEncoding.SubDocKey DocKey SubKey)
           (it : Iterator) : Iterator :=
  let key_bytes :=
    SubDocKeyEncoding.Encode DocKey_Encode SubKey_Encode sub_doc_key false in
  SeekForward max_nexts (AppendDocHybridTime DocHybridTime_kMin key_bytes) it.

End SeekPastSubKeyDef.

Arguments SeekPastSubKey {DocKey SubKey} DocKey_Encode SubKey_Encode max_nexts sub_doc_key it.

Section MoreSeekFacts.
Import Slice SliceFacts.

Lemma next_loop_calls b :
  forall it k,
  exists n tail,
    calls (next_loop b it k) = calls it ++ repeat CallNext n ++ tail
    /\ n <= b
    /\ (tail = [] \/ tail = [CallSeek k]).
Proof.
  induction b as [|b IH]; intros it k; cbn [next_loop].
  - destruct (negb (Valid it) || ge0 (compare (key it) k)).
    + exists 0, []. cbn [repeat app]. rewrite app_nil_r. auto.
    + exists 0, [CallSeek k]. cbn [repeat app Seek calls]. auto.
  - destruct (negb (Valid it) || ge0 (compare (key it) k)).
    + exists 0, []. cbn [repeat app]. rewrite app_nil_r.
      split; [reflexivity|]. split; [lia|auto].
    + destruct (IH (Next it) k) as (n & tail & Hc & Hn & Ht).
      exists (S n), tail. split; [|split; [lia|exact Ht]].
      rewrite Hc. cbn [Next calls repeat]. now rewrite <- app_assoc.
Qed.

(** X6.  The cost of one [PerformRocksDBSeek]: it appends to the engine
    calls at most [max_nexts] calls of [Next], followed by at most one call
    of [Seek] or [SeekToFirst], and nothing else. *)
Theorem PerformRocksDBSeek_call_budget
        (max_nexts : Z) (it : Iterator) (seek_key : list byte) :
  (0 <= max_nexts)%Z ->
  exists n tail,
    calls (PerformRocksDBSeek max_nexts it seek_key)
    = calls it ++ repeat CallNext n ++ tail
    /\ (Z.of_nat n <= max_nexts)%Z
    /\ (tail = [] \/ tail = [CallSeek seek_key] \/ tail = [CallSeekToFirst]).
Proof.
  intros Hm. unfold PerformRocksDBSeek.
  destruct (length seek_key =? 0).
  - exists 0, [CallSeekToFirst]. cbn [repeat app SeekToFirst calls].
    split; [reflexivity|]. split; [lia|auto].
  - destruct (negb (Valid it) || gt0 (compare (key it) seek_key)).
    + exists 0, [CallSeek seek_key]. cbn [repeat app Seek calls].
      split; [reflexivity|]. split; [lia|auto].
    + destruct (max_nexts <? 0)%Z eqn:M; [apply Z.ltb_lt in M; lia|].
      destruct (next_loop_calls (Z.to_nat max_nexts) it seek_key)
        as (n & tail & Hc & Hn & Ht).
      exists n, tail. split; [exact Hc|]. split; [lia|]. tauto.
Qed.

Lemma PerformRocksDBSeek_call_budget_witness :
  exists n tail,
    calls (PerformRocksDBSeek 1 (sample_iter 0) ["d"%byte])
    = calls (sample_iter 0) ++ repeat CallNext n ++ tail
    /\ (Z.of_nat n <= 1)%Z
    /\ (tail = [] \/ tail = [CallSeek ["d"%byte]] \/ tail = [CallSeekToFirst]).
Proof.
  apply (PerformRocksDBSeek_call_budget 1 (sample_iter 0) ["d"%byte]). lia.
Defined.

Lemma SeekForward_entries m t it : entries (SeekForward m t it) = entries it.
Proof.
  unfold SeekForward.
  destruct (negb (Valid it) || ge0 (compare (key it) t)); auto.
  apply ROCKSDB_SEEK_entries.
Qed.

Lemma lower_bound_le_of_ge l k :
  forall i e, nth_error l i = Some e -> compare (fst e) k <> Lt ->
              lower_bound l k <= i.
Proof.
  intros i e Hn Hc.
  destruct (Nat.le_gt_cases (lower_bound l k) i) as [|Hlt]; auto.
  exfalso. apply Hc. eapply lower_bound_before; eauto.
Qed.

(** Where [SeekForward] leaves a valid iterator. *)
Lemma SeekForward_pos_valid m t it :
  ordered (entries it) = true -> (0 <= m)%Z -> Valid it = true ->
  pos (SeekForward m t it) = Nat.max (pos it) (lower_bound (entries it) t).
Proof.
  intros Ho Hm V. unfold SeekForward. rewrite V. cbn [negb orb].
  destruct (Valid_entry it V) as (e & Hn & Hk & _).
  destruct (compare (key it) t) eqn:C; cbn [ge0].
  - assert (lower_bound (entries it) t <= pos it)
      by (apply (lower_bound_le_of_ge _ _ _ _ Hn); rewrite <- Hk; congruence).
    lia.
  - rewrite ROCKSDB_SEEK_pos by assumption. rewrite Hk in C.
    pose proof (lower_bound_sorted_lt _ t Ho _ _ Hn C). lia.
  - assert (lower_bound (entries it) t <= pos it)
      by (apply (lower_bound_le_of_ge _ _ _ _ Hn); rewrite <- Hk; congruence).
    lia.
Qed.

Lemma at_lower_bound_not_before (it : Iterator) t :
  Valid it = true -> lower_bound (entries it) t <= pos it ->
  ordered (entries it) = true ->
  compare (key it) t <> Lt.
Proof.
  intros V Hle Ho. destruct (Valid_entry it V) as (e & Hn & Hk & _). rewrite Hk.
  intros C. pose proof (lower_bound_sorted_lt _ t Ho _ _ Hn C). lia.
Qed.





(** X26.  With a negative [FLAGS_max_nexts_to_avoid_seek], [SeekForward]
    moves no iterator and issues no engine call, whatever the target: the
    early return leaves the iterator alone, and otherwise the iterator is
    valid and before the target, where the engine seek does not enter its
    loop. *)
Theorem SeekForward_negative_flag_stays
        (max_nexts : Z) (target : list byte) (it : Iterator) :
  (max_nexts < 0)%Z ->
  SeekForward max_nexts target it = it.
Proof.
  intros Hm. unfold SeekForward, ROCKSDB_SEEK.
  destruct (Valid it) eqn:V; cbn [negb orb]; [|reflexivity].
  destruct (compare (key it) target) eqn:C; cbn [ge0]; try reflexivity.
  apply PerformRocksDBSeek_negative_flag; auto.
  - intros ->. destruct (key it); discriminate.
  - rewrite C. discriminate.
Qed.

Lemma SeekForward_negative_flag_stays_witness :
  SeekForward (-1) ["c"%byte] (sample_iter 0) = sample_iter 0.
Proof.
  apply (SeekForward_negative_flag_stays (-1) ["c"%byte] (sample_iter 0)). lia.
Defined.

End MoreSeekFacts.

Section SeekPastSubKeyFacts.
Import Slice SliceFacts.
Variables DocKey SubKey : Type.
Variable DocKey_Encode : DocKey -> list byte.
Variable SubKey_Encode : SubKey -> list byte.

Local Abbreviation EncodeKey := (SubDocKeyEncoding.Encode DocKey_Encode SubKey_Encode).

(** The encoding of a version of a key is the encoding of the key without
    its timestamp, followed by the tag and the timestamp. *)
Lemma Encode_version dk sp t d :
  EncodeKey (SubDocKeyEncoding.mkSubDocKey dk sp (Some d)) true
  = AppendDocHybridTime d (EncodeKey (SubDocKeyEncoding.mkSubDocKey dk sp t) false).
Proof.
  unfold SubDocKeyEncoding.Encode, AppendDocHybridTime.
  cbn [SubDocKeyEncoding.doc_key SubDocKeyEncoding.subkeys SubDocKeyEncoding.doc_ht
       SubDocKeyEncoding.EncodeHybridTime].
  now rewrite app_nil_r, <- app_assoc.
Qed.

Lemma kMin_valid : DocHybridTime_valid DocHybridTime_kMin.
Proof. split; vm_compute; split; discriminate. Qed.

Lemma kMin_is_least d :
  DocHybridTime_valid d -> d <> DocHybridTime_kMin ->
  DocHybridTime_compare DocHybridTime_kMin d = Lt.
Proof.
  intros [Ht Hw] Hne. destruct d as [t w]. cbn [hybrid_time write_id] in *.
  unfold DocHybridTime_compare, DocHybridTime_kMin. cbn [hybrid_time write_id].
  destruct (Z.compare_spec 0 t) as [E|L|G]; [|reflexivity|lia].
  apply Z.compare_lt_iff.
  assert (w <> 0%Z) by (intros ->; apply Hne; unfold DocHybridTime_kMin; congruence).
  lia.
Qed.

(** X9.  With a non-negative [FLAGS_max_nexts_to_avoid_seek],
    [SeekPastSubKey] on a valid iterator over an ordered keyspace skips the
    versions of the key itself: if the iterator is valid after the call,
    every version of [sub_doc_key] with a timestamp other than [kMin] is
    strictly before its position. *)
Theorem SeekPastSubKey_skips_versions
        (max_nexts : Z) (dk : DocKey) (sp : list SubKey) (t : option DocHybridTime)
        (it : Iterator) :
  ordered (entries it) = true ->
  (0 <= max_nexts)%Z ->
  Valid it = true ->
  Valid (SeekPastSubKey DocKey_Encode SubKey_Encode max_nexts
                        (SubDocKeyEncoding.mkSubDocKey dk sp t) it) = true ->
  forall d, DocHybridTime_valid d -> d <> DocHybridTime_kMin ->
            compare (EncodeKey (SubDocKeyEncoding.mkSubDocKey dk sp (Some d)) true)
                    (key (SeekPastSubKey DocKey_Encode SubKey_Encode max_nexts
                                         (SubDocKeyEncoding.mkSubDocKey dk sp t) it))
            = Lt.
Proof.
  intros Ho Hm V V' d Hd Hne. unfold SeekPastSubKey in *. cbv zeta in *.
  set (p := EncodeKey (SubDocKeyEncoding.mkSubDocKey dk sp t) false) in *.
  rewrite (Encode_version dk sp t d). fold p.
  set (r := SeekForward max_nexts (AppendDocHybridTime DocHybridTime_kMin p) it) in *.
  assert (compare (key r) (AppendDocHybridTime DocHybridTime_kMin p) <> Lt) as Hge.
  { pose proof (SeekForward_pos_valid max_nexts
                  (AppendDocHybridTime DocHybridTime_kMin p) it Ho Hm V) as Hp.
    pose proof (SeekForward_entries max_nexts
                  (AppendDocHybridTime DocHybridTime_kMin p) it) as He.
    fold r in Hp, He.
    apply at_lower_bound_not_before; auto; rewrite He; auto. lia. }
  apply compare_lt_le_trans with (b := AppendDocHybridTime DocHybridTime_kMin p).
  - rewrite !Append_assoc, compare_app.
    rewrite DocHybridTime_encoding_reverses by (auto using kMin_valid).
    now apply kMin_is_least.
  - intros C. apply compare_gt_lt in C. congruence.
Qed.

End SeekPastSubKeyFacts.

Definition sample_subkey_versions_iter : Iterator :=
  {| entries :=
       [ (SubDocKeyEncoding.Encode sample_DocKey_Encode sample_SubKey_Encode
            (sample_subdoc_key "a" [] (Some 20%Z)) true, ["x"%byte]);
         (SubDocKeyEncoding.Encode sample_DocKey_Encode sample_SubKey_Encode
            (sample_subdoc_key "a" [] (Some 10%Z)) true, ["y"%byte]);
         (SubDocKeyEncoding.Encode sample_DocKey_Encode sample_SubKey_Encode
            (sample_subdoc_key "a" ["c"%byte] (Some 5%Z)) true, ["z"%byte]) ];
     pos := 0; calls := [] |}.

Lemma SeekPastSubKey_skips_versions_witness :
  Slice.compare
    (SubDocKeyEncoding.Encode sample_DocKey_Encode sample_SubKey_Encode
       (SubDocKeyEncoding.mkSubDocKey "a"%byte [] (Some (at_time 10))) true)
    (key (SeekPastSubKey sample_DocKey_Encode sample_SubKey_Encode 8
            (SubDocKeyEncoding.mkSubDocKey "a"%byte [] None)
            sample_subkey_versions_iter))
  = Lt.
Proof.
  apply (SeekPastSubKey_skips_versions
           byte byte sample_DocKey_Encode sample_SubKey_Encode 8 "a"%byte [] None
           sample_subkey_versions_iter).
  - vm_compute. reflexivity.
  - lia.
  - reflexivity.
  - vm_compute. reflexivity.
  - apply at_time_valid, small_time. lia.
  - discriminate.
Defined.

Example seek_past_subkey_reaches_child :
  key (SeekPastSubKey sample_DocKey_Encode sample_SubKey_Encode 8
         (SubDocKeyEncoding.mkSubDocKey "a"%byte [] None)
         sample_subkey_versions_iter)
  = SubDocKeyEncoding.Encode sample_DocKey_Encode sample_SubKey_Encode
      (sample_subdoc_key "a" ["c"%byte] (Some 5%Z)) true.
Proof. vm_compute. reflexivity. Qed.

Section MoreSeekToValidKvAtTsFacts.
Context {codec : DocDBCodec}.
Import Slice SliceFacts.

(** What holds when the loop is left through [break]. *)
Lemma seek_loop_break_sound fuel :
  forall m it sk ht probe it1,
    seek_loop fuel m it sk ht probe = Some (LoopBreak it1) ->
    entries it1 = entries it
    /\ Valid it1 = true
    /\ starts_with (key it1) sk = true
    /\ exists d, DocHybridTime_DecodeFromEnd (key it1) = Some d
                 /\ (hybrid_time d <= ht)%Z.
Proof.
  induction fuel as [|fuel IH]; intros m it sk ht probe it1 H; [discriminate|].
  cbn [seek_loop] in H.
  pose proof (ROCKSDB_SEEK_entries m it probe) as He.
  destruct (Valid (ROCKSDB_SEEK m it probe)) eqn:V; cbn [negb orb] in H;
    [|discriminate].
  destruct (starts_with (key (ROCKSDB_SEEK m it probe)) sk) eqn:P; cbn [negb] in H;
    [|discriminate].
  destruct (DocHybridTime_DecodeFromEnd (key (ROCKSDB_SEEK m it probe)))
    as [d|] eqn:D; [|discriminate].
  destruct (Z.leb_spec (hybrid_time d) ht) as [Hle|Hgt].
  - inversion H; subst. eauto 10.
  - destruct (ReplaceLastHybridTimeForSeek (key (ROCKSDB_SEEK m it probe)) ht);
      [|discriminate].
    destruct (IH _ _ _ _ _ _ H) as (E1 & R). split; [congruence|exact R].
Qed.

Lemma seek_loop_failed_status fuel :
  forall m it sk ht probe it1 s,
    seek_loop fuel m it sk ht probe = Some (LoopFailed it1 s) -> s = Corruption.
Proof.
  induction fuel as [|fuel IH]; intros m it sk ht probe it1 s H; [discriminate|].
  cbn [seek_loop] in H.
  destruct (negb (Valid (ROCKSDB_SEEK m it probe))
            || negb (starts_with (key (ROCKSDB_SEEK m it probe)) sk));
    [discriminate|].
  destruct (DocHybridTime_DecodeFromEnd (key (ROCKSDB_SEEK m it probe)));
    [|now inversion H].
  destruct (hybrid_time d <=? ht)%Z; [discriminate|].
  destruct (ReplaceLastHybridTimeForSeek (key (ROCKSDB_SEEK m it probe)) ht);
    [|now inversion H].
  eapply IH; eauto.
Qed.

(** X10.  Whatever the keyspace, a call of [SeekToValidKvAtTs] that returns
    OK with [is_found] true leaves the iterator on an entry of the same
    keyspace whose key starts with the search key and whose trailing
    timestamp is at or before the read time: a version later than the read
    time is never returned. *)
Theorem SeekToValidKvAtTs_found_is_at_or_before_read_time
        (fuel : nat) (max_nexts : Z) (it : Iterator) (search_key : list byte)
        (ht : HybridTime) (found_key0 : SubDocKey) (is_found0 : bool)
        (found_value0 : option Value) (r : SeekResult) :
  SeekToValidKvAtTs fuel max_nexts it search_key ht
                    found_key0 (Some is_found0) found_value0 = Some r ->
  status r = OK ->
  is_found r = Some true ->
  entries (iter r) = entries it
  /\ Valid (iter r) = true
  /\ starts_with (key (iter r)) search_key = true
  /\ exists d, DocHybridTime_DecodeFromEnd (key (iter r)) = Some d
               /\ (hybrid_time d <= ht)%Z.
Proof.
  unfold SeekToValidKvAtTs. intros H Hs Hf.
  destruct (seek_loop fuel max_nexts it search_key ht _) as [[it1|it1 s|it1]|] eqn:L;
    [| | |discriminate].
  - inversion H; subst. discriminate.
  - apply seek_loop_failed_status in L. inversion H; subst. discriminate.
  - pose proof (seek_loop_break_sound _ _ _ _ _ _ _ L) as S.
    assert (iter r = it1) as ->; [|exact S].
    destruct (FullyDecodeFrom (key it1) true); [|inversion H; reflexivity].
    destruct (Value_DecodeTTL (value it1)) as [[ttl rest]|]; [|inversion H; reflexivity].
    destruct (negb (ttl =? kMaxTtl)%Z
              && (AddPhysicalTimeToHybridTime (SubDocKey_hybrid_time s) ttl <? ht)%Z);
      [inversion H; reflexivity|].
    destruct found_value0; [|inversion H; reflexivity].
    destruct (Value_Decode rest); inversion H; reflexivity.
Qed.

Lemma DCheck_max_write_id k ht :
  (0 <= ht <= kMaxHybridTimeValue)%Z ->
  DecodeHybridTimeFromEndOfKey k
  = Some {| hybrid_time := ht; write_id := kMaxWriteId |} ->
  SeekKeyDCheck k = true.
Proof.
  intros Hht D. unfold SeekKeyDCheck. rewrite D. cbn [write_id].
  now rewrite Z.eqb_refl.
Qed.

Lemma read_time_valid ht :
  (0 <= ht <= kMaxHybridTimeValue)%Z ->
  DocHybridTime_valid {| hybrid_time := ht; write_id := kMaxWriteId |}.
Proof.
  intros H. split; cbn [hybrid_time write_id]; [exact H|].
  vm_compute. split; discriminate.
Qed.

(** X11.  The seek keys that [SeekToValidKvAtTs] hands to the engine seek
    satisfy the debug-build validation of [PerformRocksDBSeek]: the first
    probe key and every probe key rewritten by
    [ReplaceLastHybridTimeForSeek] end in a timestamp with the maximum write
    id, so a debug build does not stop on them. *)
Theorem SeekToValidKvAtTs_probes_pass_validation
        (max_nexts : Z) (it : Iterator) (search_key : list byte) (ht : HybridTime) :
  (0 <= ht <= kMaxHybridTimeValue)%Z ->
  PerformRocksDBSeekIn DebugBuild max_nexts it (seek_probe search_key ht)
  = Some (PerformRocksDBSeek max_nexts it (seek_probe search_key ht))
  /\ (forall k k',
         ReplaceLastHybridTimeForSeek k ht = Some k' ->
         PerformRocksDBSeekIn DebugBuild max_nexts it k'
         = Some (PerformRocksDBSeek max_nexts it k')).
Proof.
  intros Hht. pose proof (read_time_valid ht Hht) as Hv. split.
  - unfold PerformRocksDBSeekIn.
    rewrite (DCheck_max_write_id (seek_probe search_key ht) ht Hht); auto.
    unfold DecodeHybridTimeFromEndOfKey, seek_probe. now apply DecodeFromEnd_Append.
  - intros k k' Hr. unfold PerformRocksDBSeekIn.
    rewrite (DCheck_max_write_id k' ht Hht); auto.
    unfold ReplaceLastHybridTimeForSeek in Hr.
    destruct (length k <? kEncodedDocHybridTimeSize); [discriminate|].
    inversion Hr. unfold DecodeHybridTimeFromEndOfKey.
    rewrite DecodeFromEnd_app by apply DocHybridTime_encoded_length.
    now rewrite DocHybridTime_decode_encode.
Qed.

End MoreSeekToValidKvAtTsFacts.

Lemma SeekToValidKvAtTs_found_is_at_or_before_read_time_witness :
  exists d,
    DocHybridTime_DecodeFromEnd
      (key (ROCKSDB_SEEK 8 sample_versions_iter (seek_probe ["k"%byte] 12)))
    = Some d /\ (hybrid_time d <= 12)%Z.
Proof.
  apply (SeekToValidKvAtTs_found_is_at_or_before_read_time
           (codec := sample_codec) 1 8 sample_versions_iter ["k"%byte] 12
           sample_found_key0 false (Some SampleTombstone)
           (mkSeekResult OK
              (ROCKSDB_SEEK 8 sample_versions_iter (seek_probe ["k"%byte] 12))
              (sample_key_at ["k"%byte] 10) (Some true)
              (Some (SamplePayload ["b"%byte])))).
  - vm_compute. reflexivity.
  - reflexivity.
  - reflexivity.
Defined.

Lemma SeekToValidKvAtTs_probes_pass_validation_witness :
  PerformRocksDBSeekIn (codec := sample_codec) DebugBuild 8 sample_versions_iter
                       (seek_probe ["k"%byte] 12)
  = Some (PerformRocksDBSeek 8 sample_versions_iter (seek_probe ["k"%byte] 12)).
Proof.
  apply (SeekToValidKvAtTs_probes_pass_validation
           (codec := sample_codec) 8 sample_versions_iter ["k"%byte] 12).
  apply small_time. lia.
Defined.

(* ===================================================================== *)
(** ** plain_block.h: reading values out of a decoded block *)
(* ===================================================================== *)

Module PlainBlockRead.
Import PlainBlockDecoder.

(** [SeekToPositionInBlock(pos)]; an empty block is left alone. *)
Definition SeekToPositionInBlock (d : t) (pos : Z) : t :=
  if (num_elems_ d =? 0)%Z then d else set_cur_idx d pos.

Definition HasNext (d : t) : bool := (cur_idx_ d <? num_elems_ d)%Z.

Definition Count (d : t) : Z := num_elems_ d.

Definition GetCurrentIndex (d : t) : Z := cur_idx_ d.

(** The outcome of [CopyNextValues(n, dst)]: the value left in [*n], the
    values copied to [dst] and the decoder.  The status is always OK. *)
Record CopyResult : Type := mkCopyResult {
  n_out : Z;
  copied : list Z;
  after : t
}.

Definition CopyNextValues (d : t) (n : Z) : CopyResult :=
  if ((n =? 0) || (num_elems_ d <=? cur_idx_ d))%Z
  then mkCopyResult 0%Z [] d
  else
    let max_fetch := Z.min n (uint32 (num_elems_ d - cur_idx_ d)) in
    mkCopyResult max_fetch
                 (firstn (Z.to_nat max_fetch) (skipn (Z.to_nat (cur_idx_ d)) (data_ d)))
                 (set_cur_idx d (uint32 (cur_idx_ d + max_fetch))).

(** The decoder between calls: the header was parsed and the index is
    inside the block or at its end. *)
Definition well_formed (d : t) : Prop :=
  parsed d /\ (0 <= cur_idx_ d <= num_elems_ d)%Z /\ (num_elems_ d < 2 ^ 32)%Z.

End PlainBlockRead.

Section PlainBlockReadFacts.
Import PlainBlockDecoder PlainBlockRead.
Local Open Scope Z_scope.

Lemma firstn_plus {A : Type} (a b : nat) (l : list A) :
  firstn (a + b) l = firstn a l ++ firstn b (skipn a l).
Proof.
  revert l. induction a as [|a IH]; intros l; auto.
  destruct l as [|x l]; cbn [Nat.add firstn skipn app].
  - now rewrite firstn_nil.
  - now rewrite IH.
Qed.

Lemma skipn_plus {A : Type} (a b : nat) (l : list A) :
  skipn (a + b) l = skipn b (skipn a l).
Proof.
  revert l. induction a as [|a IH]; intros l; auto.
  destruct l as [|x l]; cbn [Nat.add skipn]; auto. now rewrite skipn_nil.
Qed.

Lemma CopyNextValues_spec d n :
  well_formed d -> 0 <= n ->
  let r := CopyNextValues d n in
  n_out r = Z.min n (num_elems_ d - cur_idx_ d)
  /\ copied r = firstn (Z.to_nat (n_out r)) (skipn (Z.to_nat (cur_idx_ d)) (data_ d))
  /\ after r = set_cur_idx d (cur_idx_ d + n_out r).
Proof.
  intros (Hp & Hc & Hn) Hn0. unfold CopyNextValues.
  destruct (Z.eqb_spec n 0) as [->|Hne]; cbn [orb].
  - cbn [n_out copied after firstn]. rewrite Z.min_l by lia.
    replace (cur_idx_ d + 0) with (cur_idx_ d) by lia.
    destruct d; auto.
  - destruct (Z.leb_spec (num_elems_ d) (cur_idx_ d)) as [Hle|Hlt].
    + cbn [n_out copied after firstn]. rewrite Z.min_r by lia.
      replace (num_elems_ d - cur_idx_ d) with 0 by lia. cbn [Z.to_nat firstn].
      replace (cur_idx_ d + 0) with (cur_idx_ d) by lia.
      destruct d; auto.
    + cbv zeta. cbn [n_out copied after].
      assert (uint32 (num_elems_ d - cur_idx_ d) = num_elems_ d - cur_idx_ d) as ->
          by (unfold uint32; apply Z.mod_small; lia).
      assert (uint32 (cur_idx_ d + Z.min n (num_elems_ d - cur_idx_ d))
              = cur_idx_ d + Z.min n (num_elems_ d - cur_idx_ d)) as ->
          by (unfold uint32; apply Z.mod_small; lia).
      auto.
Qed.

(** X12.  [CopyNextValues] on a well-formed decoder copies the next
    [min(n, remaining)] values of the block, in order, starting at the
    current index, and advances the index by that many; the index stays
    inside the block, and the block itself is untouched. *)
Theorem CopyNextValues_copies_next_values (d : t) (n : Z) :
  well_formed d ->
  0 <= n ->
  n_out (CopyNextValues d n) = Z.min n (num_elems_ d - cur_idx_ d)
  /\ copied (CopyNextValues d n)
     = firstn (Z.to_nat (n_out (CopyNextValues d n)))
              (skipn (Z.to_nat (cur_idx_ d)) (data_ d))
  /\ Z.of_nat (length (copied (CopyNextValues d n))) = n_out (CopyNextValues d n)
  /\ cur_idx_ (after (CopyNextValues d n)) = cur_idx_ d + n_out (CopyNextValues d n)
  /\ data_ (after (CopyNextValues d n)) = data_ d
  /\ well_formed (after (CopyNextValues d n)).
Proof.
  intros Hw Hn0. destruct (CopyNextValues_spec d n Hw Hn0) as (H1 & H2 & H3).
  destruct Hw as (Hp & Hc & Hn).
  split; [exact H1|]. split; [exact H2|]. split.
  - rewrite H2, length_firstn, length_skipn. unfold parsed in Hp. lia.
  - rewrite H3. cbn [set_cur_idx cur_idx_ data_]. split; [reflexivity|].
    split; [reflexivity|].
    unfold well_formed, parsed. cbn [set_cur_idx num_elems_ data_ cur_idx_].
    unfold parsed in Hp. (split; [|split]); auto; lia.
Qed.

Definition sample_block_at (i : Z) : PlainBlockDecoder.t :=
  PlainBlockDecoder.mk [1; 3; 5; 7] 4 i.

Lemma sample_block_at_well_formed i : 0 <= i <= 4 -> well_formed (sample_block_at i).
Proof.
  intros H. unfold well_formed, parsed, sample_block_at. cbn. (split; [|split]); lia.
Qed.

Lemma CopyNextValues_copies_next_values_witness :
  n_out (CopyNextValues (sample_block_at 1) 10) = Z.min 10 (4 - 1).
Proof.
  apply (CopyNextValues_copies_next_values (sample_block_at 1) 10).
  - apply sample_block_at_well_formed. lia.
  - lia.
Defined.

(** X13.  Two reads in a row are one read of the sum: the values copied by
    [CopyNextValues(n1)] followed by those of [CopyNextValues(n2)] are the
    values copied by [CopyNextValues(n1 + n2)], and the decoder ends in the
    same state. *)
Theorem CopyNextValues_compose (d : t) (n1 n2 : Z) :
  well_formed d ->
  0 <= n1 -> 0 <= n2 ->
  copied (CopyNextValues d (n1 + n2))
  = copied (CopyNextValues d n1) ++ copied (CopyNextValues (after (CopyNextValues d n1)) n2)
  /\ n_out (CopyNextValues d (n1 + n2))
     = n_out (CopyNextValues d n1) + n_out (CopyNextValues (after (CopyNextValues d n1)) n2)
  /\ after (CopyNextValues d (n1 + n2))
     = after (CopyNextValues (after (CopyNextValues d n1)) n2).
Proof.
  intros Hw H1 H2.
  destruct (CopyNextValues_spec d n1 Hw H1) as (A1 & A2 & A3).
  destruct (CopyNextValues_spec d (n1 + n2) Hw ltac:(lia)) as (B1 & B2 & B3).
  assert (well_formed (after (CopyNextValues d n1))) as Hw'.
  { destruct Hw as (Hp & Hc & Hn). rewrite A3. unfold well_formed, parsed in *.
    cbn [set_cur_idx num_elems_ data_ cur_idx_]. (split; [|split]); auto; lia. }
  destruct (CopyNextValues_spec _ n2 Hw' H2) as (C1 & C2 & C3).
  destruct Hw as (Hp & Hc & Hn).
  set (a := n_out (CopyNextValues d n1)) in *.
  set (c := n_out (CopyNextValues d (n1 + n2))) in *.
  set (d1 := after (CopyNextValues d n1)) in *.
  set (b := n_out (CopyNextValues d1 n2)) in *.
  assert (cur_idx_ d1 = cur_idx_ d + a) as F1 by (now rewrite A3).
  assert (num_elems_ d1 = num_elems_ d) as F2 by (now rewrite A3).
  assert (data_ d1 = data_ d) as F3 by (now rewrite A3).
  rewrite F1, F2 in C1. rewrite F1, F3 in C2. rewrite F1 in C3.
  assert (c = a + b) as Hsum by lia.
  assert (0 <= a) by lia. assert (0 <= b) by lia.
  split; [|split; [exact Hsum|]].
  - rewrite B2, A2, C2, Hsum.
    rewrite (Z2Nat.inj_add a b) by lia. rewrite firstn_plus. f_equal. f_equal.
    rewrite (Z2Nat.inj_add (cur_idx_ d) a) by lia.
    rewrite skipn_plus. reflexivity.
  - rewrite B3, C3, A3, Hsum. unfold set_cur_idx. cbn [data_ num_elems_ cur_idx_].
    f_equal. lia.
Qed.

Lemma CopyNextValues_compose_witness :
  copied (CopyNextValues (sample_block_at 0) (1 + 2))
  = copied (CopyNextValues (sample_block_at 0) 1)
    ++ copied (CopyNextValues (after (CopyNextValues (sample_block_at 0) 1)) 2).
Proof.
  apply (CopyNextValues_compose (sample_block_at 0) 1 2).
  - apply sample_block_at_well_formed. lia.
  - lia.
  - lia.
Defined.

(** X14.  [HasNext] tells whether a read can make progress: on a
    well-formed decoder and for [n > 0], [CopyNextValues] copies at least
    one value exactly when [HasNext] holds, and after a read of at least the
    remaining count [HasNext] is false. *)
Theorem HasNext_iff_copy_progress (d : t) (n : Z) :
  well_formed d ->
  0 < n ->
  (HasNext d = true <-> 0 < n_out (CopyNextValues d n))
  /\ (num_elems_ d - cur_idx_ d <= n -> HasNext (after (CopyNextValues d n)) = false).
Proof.
  intros Hw Hn0. destruct (CopyNextValues_spec d n Hw ltac:(lia)) as (H1 & H2 & H3).
  destruct Hw as (Hp & Hc & Hn). unfold HasNext. split.
  - destruct (Z.ltb_spec (cur_idx_ d) (num_elems_ d)); split; intros;
      try lia; auto; try discriminate.
  - intros Hall. rewrite H3. cbn [set_cur_idx cur_idx_ num_elems_].
    apply Z.ltb_ge. lia.
Qed.

Lemma HasNext_iff_copy_progress_witness :
  HasNext (after (CopyNextValues (sample_block_at 1) 3)) = false.
Proof.
  apply (HasNext_iff_copy_progress (sample_block_at 1) 3).
  - apply sample_block_at_well_formed. lia.
  - lia.
  - cbn. lia.
Defined.

(** X15.  Rewinding with [SeekToPositionInBlock(0)] and reading [Count]
    values gives back the whole block, empty or not. *)
Theorem rewind_and_read_whole_block (d : t) :
  well_formed d ->
  copied (CopyNextValues (SeekToPositionInBlock d 0) (Count d)) = data_ d
  /\ HasNext (after (CopyNextValues (SeekToPositionInBlock d 0) (Count d))) = false.
Proof.
  intros (Hp & Hc & Hn). unfold SeekToPositionInBlock, Count.
  destruct (Z.eqb_spec (num_elems_ d) 0) as [E|Hne].
  - unfold CopyNextValues. rewrite E. cbn [Z.eqb orb copied after].
    unfold HasNext. rewrite E. unfold parsed in Hp. rewrite E in Hp.
    destruct (data_ d); [|cbn [length] in Hp; lia].
    split; [reflexivity|]. apply Z.ltb_ge. lia.
  - assert (well_formed (set_cur_idx d 0)) as Hw.
    { unfold well_formed, parsed in *. cbn [set_cur_idx num_elems_ data_ cur_idx_].
      (split; [|split]); auto; lia. }
    destruct (CopyNextValues_spec (set_cur_idx d 0) (num_elems_ d) Hw ltac:(lia))
      as (H1 & H2 & H3).
    cbn [set_cur_idx num_elems_ data_ cur_idx_] in H1, H2, H3.
    split.
    + rewrite H2, H1. cbn [Z.to_nat skipn]. apply firstn_all2.
      unfold parsed in Hp. lia.
    + rewrite H3, H1. unfold HasNext. cbn [set_cur_idx cur_idx_ num_elems_].
      apply Z.ltb_ge. lia.
Qed.

Lemma rewind_and_read_whole_block_witness :
  copied (CopyNextValues (SeekToPositionInBlock (sample_block_at 3) 0)
                         (Count (sample_block_at 3)))
  = [1; 3; 5; 7].
Proof.
  apply (rewind_and_read_whole_block (sample_block_at 3)).
  apply sample_block_at_well_formed. lia.
Defined.

(** Where a successful search leaves the decoder. *)
Lemma SeekAtOrAfterValue_OK_position d target fuel out :
  sorted (data_ d) = true -> parsed d -> num_elems_ d <= 2 ^ 31 ->
  SeekAtOrAfterValue fuel d target = Some out ->
  seek_status out = OK ->
  decoder out = set_cur_idx d (cur_idx_ (decoder out))
  /\ 0 <= cur_idx_ (decoder out) < num_elems_ d
  /\ target <= elem d (cur_idx_ (decoder out)).
Proof.
  intros Hs Hp Hn Hout Hok. unfold SeekAtOrAfterValue in Hout.
  destruct (search fuel d target 0 (num_elems_ d)) as [r|] eqn:Hsr; [|discriminate].
  destruct (search_spec d target Hs Hp Hn (Nat.max fuel (S (length (data_ d))))
                        0 (num_elems_ d)) as (r' & Hr' & Hspec);
    unfold parsed in *; try lia.
  rewrite (search_fuel_mono d target fuel _ _ _ Hsr _ (Nat.le_max_l _ _)) in Hr'.
  inversion Hr'; subst r'. clear Hr'.
  destruct r as [mid|l].
  - inversion Hout; subst. cbn [decoder set_cur_idx cur_idx_].
    destruct Hspec. (split; [|split]); auto; lia.
  - destruct Hspec as (Hl & Hb & Ha).
    destruct (Z.eqb_spec l (num_elems_ d)); inversion Hout; subst;
      cbn [seek_status] in Hok; [discriminate|].
    cbn [decoder set_cur_idx cur_idx_]. specialize (Ha l ltac:(lia)).
    (split; [|split]); auto; lia.
Qed.

(** X16.  Search, then read: after [SeekAtOrAfterValue] has returned OK on
    a sorted block, every value that [CopyNextValues] copies is at or after
    the target, and the read starts at the element the search found. *)
Theorem seek_then_copy_at_or_after_target (d : t) (target : Z) (fuel : nat)
        (out : SeekOutcome) (n : Z) :
  sorted (data_ d) = true ->
  parsed d ->
  num_elems_ d <= 2 ^ 31 ->
  SeekAtOrAfterValue fuel d target = Some out ->
  seek_status out = OK ->
  0 < n ->
  Forall (fun x => target <= x) (copied (CopyNextValues (decoder out) n))
  /\ nth 0 (copied (CopyNextValues (decoder out) n)) 0
     = elem d (cur_idx_ (decoder out)).
Proof.
  intros Hs Hp Hn Hout Hok Hn0.
  destruct (SeekAtOrAfterValue_OK_position d target fuel out Hs Hp Hn Hout Hok)
    as (Hd & Hi & Ht).
  set (idx := cur_idx_ (decoder out)) in *.
  assert (well_formed (decoder out)) as Hw.
  { rewrite Hd. unfold well_formed, parsed in *.
    cbn [set_cur_idx num_elems_ data_ cur_idx_]. (split; [|split]); auto; lia. }
  destruct (CopyNextValues_spec (decoder out) n Hw ltac:(lia)) as (H1 & H2 & H3).
  rewrite Hd in H1, H2. cbn [set_cur_idx num_elems_ data_ cur_idx_] in H1, H2.
  fold idx in H1, H2. rewrite Hd at 1 2. fold idx.
  set (m := n_out (CopyNextValues (set_cur_idx d idx) n)) in *.
  split.
  - rewrite H2. apply Forall_forall. intros x Hx.
    apply (In_nth _ _ 0) in Hx. destruct Hx as (j & Hj & Hx).
    rewrite length_firstn, length_skipn in Hj.
    rewrite nth_firstn in Hx.
    destruct (Nat.ltb_spec j (Z.to_nat m)); [|lia].
    rewrite nth_skipn in Hx. rewrite <- Hx.
    pose proof (elem_sorted d Hs Hp idx (Z.of_nat (Z.to_nat idx + j))) as Hle.
    unfold elem in Hle, Ht. rewrite Nat2Z.id in Hle.
    unfold parsed in Hp. specialize (Hle ltac:(lia) ltac:(lia)). lia.
  - rewrite H2. rewrite nth_firstn.
    destruct (Nat.ltb_spec 0 (Z.to_nat m)); [|lia].
    rewrite nth_skipn, Nat.add_0_r. reflexivity.
Qed.

Lemma seek_then_copy_at_or_after_target_witness :
  Forall (fun x => 4 <= x)
         (copied (CopyNextValues (set_cur_idx sample_block 2) 10)).
Proof.
  apply (seek_then_copy_at_or_after_target
           sample_block 4 (PlainBlockDecoder.seek_fuel sample_block)
           (mkOutcome OK (set_cur_idx sample_block 2) false) 10).
  - reflexivity.
  - reflexivity.
  - vm_compute. discriminate.
  - reflexivity.
  - reflexivity.
  - lia.
Defined.

End PlainBlockReadFacts.

(* ===================================================================== *)
(** ** uuid.h: the comparable encodings of a UUID *)
(* ===================================================================== *)

Module Uuid.

Definition kUuidSize : nat := 16.
Definition kUuidMsbSize : nat := 8.
Definition kUuidLsbSize : nat := kUuidSize - kUuidMsbSize.

(** [boost_uuid_.data] is an array of 16 bytes; [data[i]]. *)
Definition at_ (data : list byte) (i : nat) : byte := nth i data x00.

(** The value of a byte, and the cast [(uint8_t)] of an [int]. *)
Definition val (b : byte) : Z := Slice.byte_val b.
Definition u8 (z : Z) : byte := byte_of_Z z.

(** [toTimestampBytes(output)]: the eight bytes written to [output]. *)
Definition toTimestampBytes (data : list byte) : list byte :=
  [ at_ data 6; at_ data 7; at_ data 4; at_ data 5;
    at_ data 0; at_ data 1; at_ data 2; at_ data 3 ].

(** [fromTimestampBytes(input)]: [tmp] is copied over the first
    [kUuidMsbSize] bytes of [data], the rest stays. *)
Definition fromTimestampBytes (input data : list byte) : list byte :=
  [ at_ input 4; at_ input 5; at_ input 6; at_ input 7;
    at_ input 2; at_ input 3; at_ input 0; at_ input 1 ]
  ++ skipn kUuidMsbSize data.

(** [toVersionFirstBytes(output)]. *)
Definition toVersionFirstBytes (data : list byte) : list byte :=
  [ u8 (Z.lor (Z.land (val (at_ data 6)) 240)
              (Z.shiftr (Z.land (val (at_ data 0)) 240) 4));
    u8 (Z.lor (Z.shiftl (Z.land (val (at_ data 0)) 15) 4)
              (Z.shiftr (Z.land (val (at_ data 1)) 240) 4));
    u8 (Z.lor (Z.shiftl (Z.land (val (at_ data 1)) 15) 4)
              (Z.shiftr (Z.land (val (at_ data 2)) 240) 4));
    u8 (Z.lor (Z.shiftl (Z.land (val (at_ data 2)) 15) 4)
              (Z.shiftr (Z.land (val (at_ data 3)) 240) 4));
    u8 (Z.lor (Z.shiftl (Z.land (val (at_ data 3)) 15) 4)
              (Z.shiftr (Z.land (val (at_ data 4)) 240) 4));
    u8 (Z.lor (Z.shiftl (Z.land (val (at_ data 4)) 15) 4)
              (Z.shiftr (Z.land (val (at_ data 5)) 240) 4));
    u8 (Z.lor (Z.shiftl (Z.land (val (at_ data 5)) 15) 4)
              (Z.land (val (at_ data 6)) 15));
    at_ data 7 ].

(** [fromVersionFirstBytes(input)]. *)
Definition fromVersionFirstBytes (input data : list byte) : list byte :=
  [ u8 (Z.lor (Z.shiftl (Z.land (val (at_ input 0)) 15) 4)
              (Z.shiftr (Z.land (val (at_ input 1)) 240) 4));
    u8 (Z.lor (Z.shiftl (Z.land (val (at_ input 1)) 15) 4)
              (Z.shiftr (Z.land (val (at_ input 2)) 240) 4));
    u8 (Z.lor (Z.shiftl (Z.land (val (at_ input 2)) 15) 4)
              (Z.shiftr (Z.land (val (at_ input 3)) 240) 4));
    u8 (Z.lor (Z.shiftl (Z.land (val (at_ input 3)) 15) 4)
              (Z.shiftr (Z.land (val (at_ input 4)) 240) 4));
    u8 (Z.lor (Z.shiftl (Z.land (val (at_ input 4)) 15) 4)
              (Z.shiftr (Z.land (val (at_ input 5)) 240) 4));
    u8 (Z.lor (Z.shiftl (Z.land (val (at_ input 5)) 15) 4)
              (Z.shiftr (Z.land (val (at_ input 6)) 240) 4));
    u8 (Z.lor (Z.land (val (at_ input 0)) 240)
              (Z.land (val (at_ input 6)) 15));
    at_ input 7 ]
  ++ skipn kUuidMsbSize data.

(** The fields of the most significant half, as the comments of
    [toTimestampBytes] and [toVersionFirstBytes] lay them out:
    [Timestamp Low (32 bits)][Timestamp Mid (16 bits)][Version (4 bits)]
    [Timestamp High (12 bits)]. *)
Definition time_low (data : list byte) : Z :=
  be_value [at_ data 0; at_ data 1; at_ data 2; at_ data 3].
Definition time_mid (data : list byte) : Z :=
  be_value [at_ data 4; at_ data 5].
Definition version_bits (data : list byte) : Z :=
  (val (at_ data 6) / 16)%Z.
Definition time_high (data : list byte) : Z :=
  ((val (at_ data 6) mod 16) * 256 + val (at_ data 7))%Z.
Definition timestamp (data : list byte) : Z :=
  (time_high data * 2 ^ 48 + time_mid data * 2 ^ 32 + time_low data)%Z.

(** One of the [for] loops of [operator<]: [Some true] when the loop
    returns true, [Some false] when it returns false, [None] when it runs to
    its end.  Both tests of the loop body are [data[i] < other.data[i]]. *)
Fixpoint compare_bytes_loop (idxs : list nat) (a b : list byte) : option bool :=
  match idxs with
  | [] => None
  | i :: rest =>
      if (val (at_ a i) <? val (at_ b i))%Z then Some true
      else if (val (at_ a i) <? val (at_ b i))%Z then Some false
           else compare_bytes_loop rest a b
  end.

Definition or_else (r : option bool) (k : option bool) : option bool :=
  match r with
  | Some v => Some v
  | None => k
  end.

Section Compare.
(** [boost::uuids::uuid::version()] and [version_time_based] belong to
    boost. *)
Variable version : list byte -> Z.
Variable version_time_based : Z.

(** [Uuid::operator<]. *)
Definition less (a b : list byte) : bool :=
  if (version a <? version b)%Z then true
  else if (version b <? version a)%Z then false
  else
    let msb :=
      if (version a =? version_time_based)%Z
      then or_else (compare_bytes_loop [6; 7] a b)
             (or_else (compare_bytes_loop [4; 5] a b)
                      (compare_bytes_loop [0; 1; 2; 3] a b))
      else compare_bytes_loop [0; 1; 2; 3; 4; 5; 6; 7] a b in
    match or_else msb (compare_bytes_loop [8; 9; 10; 11; 12; 13; 14; 15] a b) with
    | Some v => v
    | None => false
    end.

(** [operator>], [operator<=] and [operator>=]. *)
Definition greater (a b : list byte) : bool := less b a.
Definition less_eq (a b : list byte) : bool := negb (less b a).
Definition greater_eq (a b : list byte) : bool := negb (less a b).

End Compare.

End Uuid.

Section UuidFacts.
Import Slice SliceFacts Uuid.
Local Open Scope Z_scope.

Lemma list_of_length_8 (l : list byte) :
  length l = 8%nat ->
  l = [at_ l 0; at_ l 1; at_ l 2; at_ l 3; at_ l 4; at_ l 5; at_ l 6; at_ l 7].
Proof.
  intros H. do 8 (destruct l as [|? l]; [discriminate|]).
  destruct l; [reflexivity|discriminate].
Qed.

Lemma firstn_8_at (l : list byte) :
  (8 <= length l)%nat ->
  firstn 8 l = [at_ l 0; at_ l 1; at_ l 2; at_ l 3; at_ l 4; at_ l 5; at_ l 6; at_ l 7].
Proof.
  intros H. do 8 (destruct l as [|? l]; [cbn [length] in H; lia|]). reflexivity.
Qed.

(** X17.  [fromTimestampBytes] undoes [toTimestampBytes] and the other way
    round: decoding the timestamp bytes of a UUID over that UUID gives the
    UUID back, and the timestamp bytes of a decoded UUID are the bytes that
    were decoded, whatever the UUID held before. *)
Theorem timestamp_bytes_round_trip (data input : list byte) :
  length data = kUuidSize ->
  length input = kUuidMsbSize ->
  fromTimestampBytes (toTimestampBytes data) data = data
  /\ toTimestampBytes (fromTimestampBytes input data) = input
  /\ skipn kUuidMsbSize (fromTimestampBytes input data) = skipn kUuidMsbSize data
  /\ length (fromTimestampBytes input data) = kUuidSize.
Proof.
  unfold kUuidSize, kUuidMsbSize. intros Hd Hi.
  split; [|split; [|split]].
  - unfold fromTimestampBytes, toTimestampBytes, kUuidMsbSize.
    cbn [at_ nth]. fold (at_ data 0) (at_ data 1) (at_ data 2) (at_ data 3)
                        (at_ data 4) (at_ data 5) (at_ data 6) (at_ data 7).
    rewrite <- (firstn_8_at data) by lia. apply firstn_skipn.
  - unfold fromTimestampBytes, toTimestampBytes. cbn [at_ nth app].
    symmetry. apply (list_of_length_8 input Hi).
  - unfold fromTimestampBytes, kUuidMsbSize. cbn [skipn app]. reflexivity.
  - unfold fromTimestampBytes, kUuidMsbSize.
    rewrite length_app, length_skipn. cbn [length]. lia.
Qed.

Definition sample_uuid : list byte :=
  [x12; x34; x56; x78; x9a; xbc; x1d; xef; x80; x01; x02; x03; x04; x05; x06; x07].

Lemma timestamp_bytes_round_trip_witness :
  fromTimestampBytes (toTimestampBytes sample_uuid) sample_uuid = sample_uuid.
Proof.
  apply (timestamp_bytes_round_trip sample_uuid (toTimestampBytes sample_uuid));
    reflexivity.
Defined.

(** Nibble arithmetic on one byte. *)
Lemma val_range b : 0 <= val b < 256.
Proof. apply byte_val_range. Qed.

Lemma land_240 b : Z.land (val b) 240 = 16 * (val b / 16).
Proof. destruct b; reflexivity. Qed.

Lemma land_15 b : Z.land (val b) 15 = val b mod 16.
Proof. destruct b; reflexivity. Qed.

Lemma lor_nibbles h l :
  0 <= h < 16 -> 0 <= l < 16 -> Z.lor (16 * h) l = 16 * h + l.
Proof.
  intros Hh Hl.
  assert (h = 0 \/ h = 1 \/ h = 2 \/ h = 3 \/ h = 4 \/ h = 5 \/ h = 6 \/ h = 7
          \/ h = 8 \/ h = 9 \/ h = 10 \/ h = 11 \/ h = 12 \/ h = 13 \/ h = 14
          \/ h = 15) as Ch by lia.
  assert (l = 0 \/ l = 1 \/ l = 2 \/ l = 3 \/ l = 4 \/ l = 5 \/ l = 6 \/ l = 7
          \/ l = 8 \/ l = 9 \/ l = 10 \/ l = 11 \/ l = 12 \/ l = 13 \/ l = 14
          \/ l = 15) as Cl by lia.
  repeat (destruct Ch as [->|Ch]); try subst h;
    repeat (destruct Cl as [->|Cl]); try subst l; reflexivity.
Qed.

Lemma hi_range b : 0 <= val b / 16 < 16.
Proof.
  pose proof (val_range b).
  split; [apply Z.div_pos; lia|apply Z.div_lt_upper_bound; lia].
Qed.

Lemma lo_range b : 0 <= val b mod 16 < 16.
Proof. apply Z.mod_pos_bound. lia. Qed.

Lemma val_u8 z : 0 <= z < 256 -> val (u8 z) = z.
Proof.
  intros H. unfold val, u8. rewrite byte_val_byte_of_Z. now apply Z.mod_small.
Qed.

(** The four shapes of byte built by the two functions. *)
Lemma mix_hi_hi x y :
  val (u8 (Z.lor (Z.land (val x) 240) (Z.shiftr (Z.land (val y) 240) 4)))
  = 16 * (val x / 16) + val y / 16.
Proof.
  rewrite !land_240, Z.shiftr_div_pow2 by lia.
  change (2 ^ 4) with 16. rewrite (Z.mul_comm 16 (val y / 16)), Z.div_mul by lia.
  pose proof (hi_range x). pose proof (hi_range y).
  rewrite lor_nibbles by lia. apply val_u8. lia.
Qed.

Lemma mix_lo_hi x y :
  val (u8 (Z.lor (Z.shiftl (Z.land (val x) 15) 4) (Z.shiftr (Z.land (val y) 240) 4)))
  = 16 * (val x mod 16) + val y / 16.
Proof.
  rewrite land_240, land_15, Z.shiftr_div_pow2, Z.shiftl_mul_pow2 by lia.
  change (2 ^ 4) with 16. rewrite (Z.mul_comm 16 (val y / 16)), Z.div_mul by lia.
  rewrite (Z.mul_comm (val x mod 16) 16).
  pose proof (lo_range x). pose proof (hi_range y).
  rewrite lor_nibbles by lia. apply val_u8. lia.
Qed.

Lemma mix_lo_lo x y :
  val (u8 (Z.lor (Z.shiftl (Z.land (val x) 15) 4) (Z.land (val y) 15)))
  = 16 * (val x mod 16) + val y mod 16.
Proof.
  rewrite !land_15, Z.shiftl_mul_pow2 by lia.
  change (2 ^ 4) with 16. rewrite (Z.mul_comm (val x mod 16) 16).
  pose proof (lo_range x). pose proof (lo_range y).
  rewrite lor_nibbles by lia. apply val_u8. lia.
Qed.

Lemma mix_hi_lo x y :
  val (u8 (Z.lor (Z.land (val x) 240) (Z.land (val y) 15)))
  = 16 * (val x / 16) + val y mod 16.
Proof.
  rewrite land_240, land_15.
  pose proof (hi_range x). pose proof (lo_range y).
  rewrite lor_nibbles by lia. apply val_u8. lia.
Qed.

Lemma val_inj x y : val x = val y -> x = y.
Proof. apply byte_val_inj. Qed.

Lemma nibbles_of h l :
  0 <= h < 16 -> 0 <= l < 16 ->
  (16 * h + l) / 16 = h /\ (16 * h + l) mod 16 = l.
Proof.
  intros Hh Hl. split.
  - rewrite (Z.mul_comm 16 h), Z.div_add_l by lia. rewrite Z.div_small; lia.
  - rewrite Z.add_comm, (Z.mul_comm 16 h), Z.mod_add by lia. apply Z.mod_small; lia.
Qed.

Lemma byte_from_nibbles (b : byte) h l :
  0 <= h < 16 -> 0 <= l < 16 -> val b = 16 * h + l ->
  val b / 16 = h /\ val b mod 16 = l.
Proof. intros Hh Hl ->. now apply nibbles_of. Qed.

End UuidFacts.

Section UuidCodecFacts.
Import Slice SliceFacts Uuid.
Local Open Scope Z_scope.

Ltac mix_values :=
  repeat (rewrite mix_hi_hi || rewrite mix_lo_hi || rewrite mix_lo_lo
          || rewrite mix_hi_lo).

Lemma nib_div h l : 0 <= h < 16 -> 0 <= l < 16 -> (16 * h + l) / 16 = h.
Proof. intros Hh Hl. now apply nibbles_of. Qed.

Lemma nib_mod h l : 0 <= h < 16 -> 0 <= l < 16 -> (16 * h + l) mod 16 = l.
Proof. intros Hh Hl. now apply nibbles_of. Qed.

Ltac split_nibbles :=
  repeat match goal with
         | R : 0 <= ?v < 256 |- _ =>
             let h := fresh "h" in
             let l := fresh "l" in
             let D := fresh "D" in
             let Hh := fresh "Hh" in
             let Hl := fresh "Hl" in
             pose proof (Z.div_mod v 16 ltac:(lia)) as D;
             assert (0 <= v / 16 < 16) as Hh
                 by (split; [apply Z.div_pos; lia|apply Z.div_lt_upper_bound; lia]);
             pose proof (Z.mod_pos_bound v 16 ltac:(lia)) as Hl;
             set (h := v / 16) in *; set (l := v mod 16) in *;
             clearbody h l; clear R
         end;
  repeat (rewrite nib_div by lia); repeat (rewrite nib_mod by lia).

Ltac name_byte_values l :=
  unfold at_;
  repeat match goal with
         | |- context [val (nth ?i l x00)] =>
             let v := fresh "v" in
             let R := fresh "R" in
             pose proof (val_range (nth i l x00)) as R;
             set (v := val (nth i l x00)) in *; clearbody v
         end.

(** X18.  [fromVersionFirstBytes] undoes [toVersionFirstBytes] and the
    other way round, for every content of the sixteen bytes: no bit of the
    most significant half is lost or moved to a wrong place, and the least
    significant half is not touched. *)
Theorem version_first_bytes_round_trip (data input : list byte) :
  length data = kUuidSize ->
  length input = kUuidMsbSize ->
  fromVersionFirstBytes (toVersionFirstBytes data) data = data
  /\ toVersionFirstBytes (fromVersionFirstBytes input data) = input
  /\ skipn kUuidMsbSize (fromVersionFirstBytes input data) = skipn kUuidMsbSize data.
Proof.
  unfold kUuidSize, kUuidMsbSize. intros Hd Hi. split; [|split].
  - rewrite <- (firstn_skipn 8 data) at 3. rewrite (firstn_8_at data) by lia.
    unfold fromVersionFirstBytes at 1. unfold kUuidMsbSize. f_equal.
    repeat f_equal; apply val_inj; mix_values;
      unfold toVersionFirstBytes; cbn [at_ nth]; mix_values;
      name_byte_values data; split_nibbles; lia.
  - rewrite (list_of_length_8 input Hi) at 2.
    unfold toVersionFirstBytes at 1.
    repeat f_equal; try apply val_inj; mix_values;
      unfold fromVersionFirstBytes; cbn [at_ nth app]; mix_values;
      name_byte_values input; split_nibbles; try lia; reflexivity.
  - unfold fromVersionFirstBytes, kUuidMsbSize. cbn [skipn app]. reflexivity.
Qed.

Lemma version_first_bytes_round_trip_witness :
  fromVersionFirstBytes (toVersionFirstBytes sample_uuid) sample_uuid = sample_uuid.
Proof.
  apply (version_first_bytes_round_trip sample_uuid (toVersionFirstBytes sample_uuid));
    reflexivity.
Defined.


(** Byte strings of the same length compare as the numbers they spell. *)
Lemma compare_as_numbers (a b : list byte) :
  length a = length b -> compare a b = (be_value a ?= be_value b).
Proof.
  intros H. rewrite <- (be_bytes_be_value a) at 1. rewrite <- (be_bytes_be_value b) at 1.
  rewrite H. apply be_bytes_compare; [rewrite <- H|]; apply be_value_range.
Qed.

Lemma be_value_8 b0 b1 b2 b3 b4 b5 b6 b7 :
  be_value [b0; b1; b2; b3; b4; b5; b6; b7]
  = val b0 * 2 ^ 56 + val b1 * 2 ^ 48 + val b2 * 2 ^ 40 + val b3 * 2 ^ 32
    + val b4 * 2 ^ 24 + val b5 * 2 ^ 16 + val b6 * 2 ^ 8 + val b7.
Proof. unfold be_value, val. cbn [fold_left]. lia. Qed.

Lemma be_value_4 b0 b1 b2 b3 :
  be_value [b0; b1; b2; b3]
  = val b0 * 2 ^ 24 + val b1 * 2 ^ 16 + val b2 * 2 ^ 8 + val b3.
Proof. unfold be_value, val. cbn [fold_left]. lia. Qed.

Lemma be_value_2 b0 b1 : be_value [b0; b1] = val b0 * 2 ^ 8 + val b1.
Proof. unfold be_value, val. cbn [fold_left]. lia. Qed.

Lemma timestamp_bytes_value data :
  be_value (toTimestampBytes data) = version_bits data * 2 ^ 60 + timestamp data.
Proof.
  unfold toTimestampBytes, timestamp, time_high, time_mid, time_low, version_bits.
  rewrite be_value_8, be_value_4, be_value_2.
  pose proof (Z.div_mod (val (at_ data 6)) 16 ltac:(lia)). lia.
Qed.

(** X19.  The timestamp bytes of two UUIDs compare, byte by byte, as the
    pairs (version, 60-bit timestamp) of the UUIDs: the version first, then
    the timestamp assembled from its high, mid and low fields.  For equal
    versions the byte order is the order of the timestamps. *)
Theorem toTimestampBytes_orders_by_time (a b : list byte) :
  compare (toTimestampBytes a) (toTimestampBytes b)
  = (version_bits a * 2 ^ 60 + timestamp a ?= version_bits b * 2 ^ 60 + timestamp b)
  /\ (version_bits a = version_bits b ->
      compare (toTimestampBytes a) (toTimestampBytes b)
      = (timestamp a ?= timestamp b)).
Proof.
  assert (compare (toTimestampBytes a) (toTimestampBytes b)
          = (version_bits a * 2 ^ 60 + timestamp a
             ?= version_bits b * 2 ^ 60 + timestamp b)) as H.
  { rewrite compare_as_numbers by reflexivity. now rewrite !timestamp_bytes_value. }
  split; [exact H|]. intros E. rewrite H, E.
  destruct (Z.compare_spec (timestamp a) (timestamp b));
    [apply Z.compare_eq_iff|apply Z.compare_lt_iff|apply Z.compare_gt_iff]; lia.
Qed.

Lemma time_fields_range data :
  0 <= time_low data < 2 ^ 32 /\ 0 <= time_mid data < 2 ^ 16
  /\ 0 <= time_high data < 2 ^ 12 /\ 0 <= version_bits data < 16.
Proof.
  unfold time_low, time_mid, time_high, version_bits.
  rewrite be_value_4, be_value_2.
  pose proof (val_range (at_ data 0)). pose proof (val_range (at_ data 1)).
  pose proof (val_range (at_ data 2)). pose proof (val_range (at_ data 3)).
  pose proof (val_range (at_ data 4)). pose proof (val_range (at_ data 5)).
  pose proof (val_range (at_ data 7)).
  pose proof (hi_range (at_ data 6)). pose proof (lo_range (at_ data 6)).
  lia.
Qed.

Lemma version_first_bytes_value data :
  be_value (toVersionFirstBytes data)
  = version_bits data * 2 ^ 60 + time_low data * 2 ^ 28
    + time_mid data * 2 ^ 12 + time_high data.
Proof.
  unfold toVersionFirstBytes. rewrite be_value_8. mix_values.
  unfold time_high, time_mid, time_low, version_bits.
  rewrite be_value_4, be_value_2.
  name_byte_values data.
  repeat match goal with
         | R : 0 <= ?v < 256 |- _ =>
             pose proof (Z.div_mod v 16 ltac:(lia)); clear R
         end.
  lia.
Qed.

(** X20.  The version-first bytes spell, most significant first, the
    version (4 bits), the low (32 bits), mid (16 bits) and high (12 bits)
    fields of the timestamp; so they compare by version first: a UUID of a
    smaller version has the smaller bytes, whatever the other bits are. *)
Theorem toVersionFirstBytes_orders_by_version (a b : list byte) :
  be_value (toVersionFirstBytes a)
  = version_bits a * 2 ^ 60 + time_low a * 2 ^ 28 + time_mid a * 2 ^ 12 + time_high a
  /\ (version_bits a < version_bits b ->
      compare (toVersionFirstBytes a) (toVersionFirstBytes b) = Lt).
Proof.
  split; [apply version_first_bytes_value|].
  intros Hv. rewrite compare_as_numbers by reflexivity.
  rewrite !version_first_bytes_value. apply Z.compare_lt_iff.
  pose proof (time_fields_range a). pose proof (time_fields_range b). lia.
Qed.

Lemma toVersionFirstBytes_orders_by_version_witness :
  compare (toVersionFirstBytes sample_uuid)
          (toVersionFirstBytes
             [x00; x00; x00; x00; x00; x00; x40; x00;
              x00; x00; x00; x00; x00; x00; x00; x00]) = Lt.
Proof.
  apply (toVersionFirstBytes_orders_by_version sample_uuid
           [x00; x00; x00; x00; x00; x00; x40; x00;
            x00; x00; x00; x00; x00; x00; x00; x00]).
  vm_compute. reflexivity.
Defined.

Lemma compare_bytes_loop_spec idxs a b :
  compare_bytes_loop idxs a b
  = if existsb (fun i => val (at_ a i) <? val (at_ b i)) idxs then Some true else None.
Proof.
  induction idxs as [|i idxs IH]; cbn [compare_bytes_loop existsb]; auto.
  destruct (val (at_ a i) <? val (at_ b i)); cbn [orb]; auto.
Qed.

Lemma or_else_loops f (e1 e2 : list nat) :
  or_else (if existsb f e1 then Some true else None)
          (if existsb f e2 then Some true else None)
  = if existsb f (e1 ++ e2) then Some true else None.
Proof.
  rewrite existsb_app. destruct (existsb f e1), (existsb f e2); reflexivity.
Qed.

Lemma existsb_same_members (f : nat -> bool) (l1 l2 : list nat) :
  (forall i, In i l1 <-> In i l2) -> existsb f l1 = existsb f l2.
Proof.
  intros H. apply Bool.eq_iff_eq_true. rewrite !existsb_exists.
  split; intros (i & Hin & Hf); exists i; split; auto; now apply H.
Qed.

Lemma less_same_version version vtb a b :
  version a = version b ->
  less version vtb a b
  = existsb (fun i => val (at_ a i) <? val (at_ b i))
            (seq 0 16).
Proof.
  intros E. unfold less. rewrite E, Z.ltb_irrefl.
  rewrite !compare_bytes_loop_spec.
  destruct (version b =? vtb); rewrite !or_else_loops;
    match goal with
    | |- match (if existsb ?f ?l then _ else _) with _ => _ end = _ =>
        rewrite (existsb_same_members f l (seq 0 16));
        [destruct (existsb f (seq 0 16)); reflexivity|]
    end; intros i; cbn [app seq In]; tauto.
Qed.

(** X21.  [operator<] decides by the version when the versions differ.  For
    two UUIDs of the same version it is true exactly when some byte of the
    left operand is smaller than the byte of the right operand at the same
    index; in particular no UUID is less than itself. *)
Theorem less_by_version_then_any_byte
        (version : list byte -> Z) (version_time_based : Z) (a b : list byte) :
  (version a < version b -> less version version_time_based a b = true)
  /\ (version b < version a -> less version version_time_based a b = false)
  /\ (version a = version b ->
      (less version version_time_based a b = true
       <-> exists i, (i < 16)%nat /\ val (at_ a i) < val (at_ b i)))
  /\ less version version_time_based a a = false.
Proof.
  split; [|split; [|split]].
  - intros H. unfold less. apply Z.ltb_lt in H. now rewrite H.
  - intros H. unfold less.
    destruct (Z.ltb_spec (version a) (version b)); [lia|].
    apply Z.ltb_lt in H. now rewrite H.
  - intros E. rewrite (less_same_version version version_time_based a b E).
    rewrite existsb_exists. split.
    + intros (i & Hin & Hlt). apply in_seq in Hin. apply Z.ltb_lt in Hlt.
      exists i. split; [lia|exact Hlt].
    + intros (i & Hi & Hlt). exists i. split; [apply in_seq; lia|].
      now apply Z.ltb_lt.
  - rewrite (less_same_version version version_time_based a a eq_refl).
    apply not_true_is_false. intros H. apply existsb_exists in H.
    destruct H as (i & _ & Hlt). apply Z.ltb_lt in Hlt. lia.
Qed.

Lemma toTimestampBytes_orders_by_time_witness :
  compare (toTimestampBytes sample_uuid)
          (toTimestampBytes [xff; xff; xff; xff; xff; xff; x1e; x00;
                             x00; x00; x00; x00; x00; x00; x00; x00])
  = (timestamp sample_uuid
     ?= timestamp [xff; xff; xff; xff; xff; xff; x1e; x00;
                   x00; x00; x00; x00; x00; x00; x00; x00]).
Proof.
  apply (proj2 (toTimestampBytes_orders_by_time
                  sample_uuid
                  [xff; xff; xff; xff; xff; xff; x1e; x00;
                   x00; x00; x00; x00; x00; x00; x00; x00])).
  vm_compute. reflexivity.
Defined.

(** [operator<] tests "smaller" twice where it means "smaller, else
    greater": two UUIDs of one version can each be less than the other. *)
Example less_both_ways :
  let a := [x01; x00; x00; x00; x00; x00; x40; x00;
            x00; x00; x00; x00; x00; x00; x00; x00] in
  let b := [x00; x01; x00; x00; x00; x00; x40; x00;
            x00; x00; x00; x00; x00; x00; x00; x00] in
  less (fun d => val (at_ d 6) / 16) 1 a b = true
  /\ less (fun d => val (at_ d 6) / 16) 1 b a = true.
Proof. vm_compute. split; reflexivity. Qed.

Lemma less_by_version_then_any_byte_witness :
  less (fun d => val (at_ d 6) / 16) 1 sample_uuid
       [x00; x00; x00; x00; x00; x00; x40; x00;
        x00; x00; x00; x00; x00; x00; x00; x00] = true.
Proof.
  apply (proj1 (less_by_version_then_any_byte
                  (fun d => val (at_ d 6) / 16) 1 sample_uuid
                  [x00; x00; x00; x00; x00; x00; x40; x00;
                   x00; x00; x00; x00; x00; x00; x00; x00])).
  vm_compute. reflexivity.
Defined.

End UuidCodecFacts.

(* ===================================================================== *)
(** ** plain_block.h: building a block and parsing its header *)
(* ===================================================================== *)

Module PlainBlockBytes.

(** [kPlainBlockHeaderSize = sizeof(uint32_t) * 2]. *)
Definition kPlainBlockHeaderSize : nat := 8.

Definition uint32 (z : Z) : Z := (z mod 2 ^ 32)%Z.

Section Codec.
(** [TypeTraits<Type>::size], and the fixed-width 32-bit codec of
    util/coding.h, which is not among the sources: [InlineEncodeFixed32]
    writes four bytes, [DecodeFixed32] reads four bytes. *)
Variable size_of_type : Z.
Variable EncodeFixed32 : Z -> list byte.
Variable DecodeFixed32 : list byte -> Z.

(** *** [PlainBlockBuilder] *)

Record Builder : Type := mkBuilder {
  buffer_ : list byte;
  count_ : Z
}.

(** [Reset()]: the buffer is cleared and resized to the header. *)
Definition Reset : Builder :=
  {| buffer_ := repeat x00 kPlainBlockHeaderSize; count_ := 0%Z |}.

(** [Add(vals, count)]: [count * kCppTypeSize] bytes are copied from the
    memory at [vals] to the end of the buffer ([vals] has to hold that many),
    and the [size_t] counter is advanced. *)
Definition Add (b : Builder) (vals : list byte) (count : Z) : Builder :=
  {| buffer_ := buffer_ b ++ firstn (Z.to_nat (count * size_of_type)) vals;
     count_ := ((count_ b + count) mod 2 ^ 64)%Z |}.

Definition IsBlockFull (b : Builder) (limit : Z) : bool :=
  (limit <? Z.of_nat (length (buffer_ b)))%Z.

Definition Count (b : Builder) : Z := count_ b.

(** [Finish(ordinal_pos)]: the header is written over the first eight bytes
    of the buffer, which is returned as the block. *)
Definition Finish (b : Builder) (ordinal_pos : Z) : list byte :=
  EncodeFixed32 (uint32 (count_ b)) ++ EncodeFixed32 (uint32 ordinal_pos)
  ++ skipn kPlainBlockHeaderSize (buffer_ b).

(** [GetFirstKey(key)]: the bytes of the first value. *)
Definition GetFirstKey (b : Builder) : list byte :=
  firstn (Z.to_nat size_of_type) (skipn kPlainBlockHeaderSize (buffer_ b)).

(** *** [PlainBlockDecoder] on the bytes of a block *)

Record Decoder : Type := mkDecoder {
  data_ : list byte;
  parsed_ : bool;
  num_elems_ : Z;
  ordinal_pos_base_ : Z;
  cur_idx_ : Z
}.

(** [PlainBlockDecoder(slice)]. *)
Definition NewDecoder (slice : list byte) : Decoder :=
  {| data_ := slice; parsed_ := false; num_elems_ := 0%Z;
     ordinal_pos_base_ := 0%Z; cur_idx_ := 0%Z |}.

(** [ParseHeader()].  [CHECK(!parsed_)] ends the process ([None]) on a
    decoder that is parsed already.  The two header fields are stored before
    the size is checked; the product [num_elems_ * size_of_type] is computed
    in 32 bits; [SeekToPositionInBlock(0)] leaves the index alone on an empty
    block. *)
Definition ParseHeader (d : Decoder) : option (Status * Decoder) :=
  if parsed_ d then None
  else if (length (data_ d) <? kPlainBlockHeaderSize)%nat then Some (Corruption, d)
  else
    let n := DecodeFixed32 (firstn 4 (data_ d)) in
    let o := DecodeFixed32 (firstn 4 (skipn 4 (data_ d))) in
    if negb (Z.of_nat (length (data_ d))
             =? Z.of_nat kPlainBlockHeaderSize + uint32 (n * size_of_type))%Z
    then Some (Corruption, mkDecoder (data_ d) false n o (cur_idx_ d))
    else Some (OK, mkDecoder (data_ d) true n o
                     (if (n =? 0)%Z then cur_idx_ d else 0%Z)).

(** The bytes of the value at index [i]:
    [&data_[kPlainBlockHeaderSize + i * size_of_type]]. *)
Definition value_bytes (d : Decoder) (i : Z) : list byte :=
  firstn (Z.to_nat size_of_type)
         (skipn (kPlainBlockHeaderSize + Z.to_nat (i * size_of_type)) (data_ d)).

Definition GetFirstRowId (d : Decoder) : Z := ordinal_pos_base_ d.

(** A builder after [Reset] and a sequence of [Add] calls. *)
Fixpoint AddAll (b : Builder) (adds : list (list byte * Z)) : Builder :=
  match adds with
  | [] => b
  | (vals, count) :: rest => AddAll (Add b vals count) rest
  end.

End Codec.

(** A little-endian instance of the 32-bit codec, for the examples. *)
Definition le_EncodeFixed32 (v : Z) : list byte := rev (be_bytes 4 v).
Definition le_DecodeFixed32 (l : list byte) : Z := be_value (rev l).

End PlainBlockBytes.

Section PlainBlockBytesFacts.
Import PlainBlockBytes.
Local Open Scope Z_scope.

Variable size_of_type : Z.
Variable EncodeFixed32 : Z -> list byte.
Variable DecodeFixed32 : list byte -> Z.

Hypothesis size_positive : 0 < size_of_type.
Hypothesis EncodeFixed32_length : forall v, length (EncodeFixed32 v) = 4%nat.
Hypothesis DecodeFixed32_EncodeFixed32 :
  forall v, 0 <= v < 2 ^ 32 -> DecodeFixed32 (EncodeFixed32 v) = v.

Local Abbreviation Add' := (Add size_of_type).
Local Abbreviation AddAll' := (AddAll size_of_type).
Local Abbreviation Finish' := (Finish EncodeFixed32).
Local Abbreviation ParseHeader' := (ParseHeader size_of_type DecodeFixed32).

(** The values handed to [Add] hold [count] values each. *)
Definition adds_well_formed (adds : list (list byte * Z)) : Prop :=
  Forall (fun a => 0 <= snd a
                   /\ Z.of_nat (length (fst a)) = snd a * size_of_type) adds.

Definition total_count (adds : list (list byte * Z)) : Z :=
  fold_right (fun a acc => snd a + acc) 0 adds.

Lemma total_count_nonneg adds : adds_well_formed adds -> 0 <= total_count adds.
Proof.
  induction 1 as [|a adds [Ha _] _ IH]; cbn [total_count fold_right]; [lia|].
  fold (total_count adds). lia.
Qed.

(** The invariant of the builder: the buffer is the header followed by the
    values added so far, and the counter is their number (in 64 bits). *)
Lemma AddAll_buffer adds :
  adds_well_formed adds ->
  forall b,
    buffer_ (AddAll' b adds) = buffer_ b ++ concat (map fst adds)
    /\ count_ (AddAll' b adds) mod 2 ^ 64
       = (count_ b + total_count adds) mod 2 ^ 64
    /\ Z.of_nat (length (concat (map fst adds))) = total_count adds * size_of_type.
Proof.
  induction 1 as [|[vals count] adds [Hc Hl] _ IH]; intros b;
    cbn [AddAll map concat total_count fold_right fst snd] in *.
  - rewrite app_nil_r. cbn [length].
    split; [reflexivity|]. split; [f_equal; lia|lia].
  - fold (total_count adds).
    destruct (IH (Add' b vals count)) as (H1 & H2 & H3).
    rewrite H1, H2. cbn [Add buffer_ count_].
    rewrite firstn_all2 by lia. rewrite <- app_assoc.
    split; [reflexivity|]. split.
    + rewrite Zplus_mod_idemp_l. f_equal. lia.
    + rewrite length_app. lia.
Qed.

Lemma AddAll_count adds :
  adds_well_formed adds ->
  total_count adds < 2 ^ 64 ->
  count_ (AddAll' Reset adds) = total_count adds.
Proof.
  intros Hw Hlt. pose proof (total_count_nonneg adds Hw) as Hn.
  destruct (AddAll_buffer adds Hw Reset) as (_ & Hc & _).
  assert (count_ (AddAll' Reset adds) mod 2 ^ 64 = total_count adds) as Hc'.
  { rewrite Hc. cbn [Reset count_]. apply Z.mod_small. lia. }
  rewrite <- Hc'. symmetry. apply Z.mod_small.
  destruct Hw as [|[vals count] adds' [Hc0 _] _]; cbn [AddAll Reset count_].
  - lia.
  - clear Hc Hc' Hn Hlt.
    assert (forall l b, 0 <= count_ b < 2 ^ 64 ->
                        0 <= count_ (AddAll' b l) < 2 ^ 64) as G.
    { induction l as [|[v c] l IHl]; intros b Hb; cbn [AddAll]; [exact Hb|].
      apply IHl. cbn [Add count_]. apply Z.mod_pos_bound. lia. }
    apply G. cbn [Add count_]. apply Z.mod_pos_bound. lia.
Qed.

Lemma Finish_AddAll adds ordinal_pos :
  adds_well_formed adds ->
  total_count adds < 2 ^ 32 ->
  0 <= ordinal_pos < 2 ^ 32 ->
  Finish' (AddAll' Reset adds) ordinal_pos
  = EncodeFixed32 (total_count adds) ++ EncodeFixed32 ordinal_pos
    ++ concat (map fst adds).
Proof.
  intros Hw Hn32 Ho.
  destruct (AddAll_buffer adds Hw Reset) as (Hb & _ & _).
  pose proof (total_count_nonneg adds Hw) as Hn.
  unfold Finish. rewrite Hb, (AddAll_count adds Hw) by lia.
  unfold uint32. rewrite !Z.mod_small by lia.
  cbn [Reset buffer_]. rewrite skipn_app.
  rewrite skipn_all2 by (rewrite repeat_length; reflexivity).
  rewrite repeat_length, Nat.sub_diag. reflexivity.
Qed.

(** X22.  Build, then parse: the block that [Finish] returns after [Reset]
    and any sequence of [Add] calls is accepted by [ParseHeader], which
    recovers the number of values added and the ordinal position and leaves
    the decoder parsed, at index 0, over a block whose bytes after the header
    are the values in the order they were added.  The size of the values has
    to fit the 32-bit arithmetic of the header check. *)
Theorem build_then_parse_round_trip
        (adds : list (list byte * Z)) (ordinal_pos : Z) :
  adds_well_formed adds ->
  total_count adds * size_of_type < 2 ^ 32 ->
  0 <= ordinal_pos < 2 ^ 32 ->
  let block := Finish' (AddAll' Reset adds) ordinal_pos in
  ParseHeader' (NewDecoder block)
  = Some (OK, mkDecoder block true (total_count adds) ordinal_pos 0)
  /\ skipn kPlainBlockHeaderSize block = concat (map fst adds)
  /\ Count (AddAll' Reset adds) = total_count adds.
Proof.
  intros Hw Hsz Ho block.
  destruct (AddAll_buffer adds Hw Reset) as (_ & _ & Hl).
  pose proof (total_count_nonneg adds Hw) as Hn.
  assert (total_count adds < 2 ^ 32) as Hn32 by nia.
  assert (block = EncodeFixed32 (total_count adds) ++ EncodeFixed32 ordinal_pos
                  ++ concat (map fst adds)) as Hblock
      by (apply Finish_AddAll; assumption).
  assert (firstn 4 block = EncodeFixed32 (total_count adds)) as F1.
  { rewrite Hblock.
    rewrite <- (EncodeFixed32_length (total_count adds)) at 1.
    now rewrite firstn_app, Nat.sub_diag, firstn_all, firstn_O, app_nil_r. }
  assert (skipn 4 block = EncodeFixed32 ordinal_pos ++ concat (map fst adds)) as S1.
  { rewrite Hblock.
    rewrite <- (EncodeFixed32_length (total_count adds)) at 1.
    now rewrite skipn_app, Nat.sub_diag, skipn_all. }
  assert (firstn 4 (skipn 4 block) = EncodeFixed32 ordinal_pos) as F2.
  { rewrite S1. rewrite <- (EncodeFixed32_length ordinal_pos) at 1.
    now rewrite firstn_app, Nat.sub_diag, firstn_all, firstn_O, app_nil_r. }
  assert (skipn 8 block = concat (map fst adds)) as S2.
  { change 8%nat with (4 + 4)%nat. rewrite skipn_plus, S1.
    rewrite <- (EncodeFixed32_length ordinal_pos) at 1.
    now rewrite skipn_app, Nat.sub_diag, skipn_all. }
  assert (Z.of_nat (length block) = 8 + total_count adds * size_of_type) as Hlen.
  { rewrite Hblock, !length_app, !EncodeFixed32_length. lia. }
  split; [|split; [exact S2|unfold Count; apply AddAll_count; [assumption|lia]]].
  unfold ParseHeader. cbn [NewDecoder data_ parsed_ cur_idx_].
  destruct (Nat.ltb_spec (length block) kPlainBlockHeaderSize) as [Hs|_];
    [unfold kPlainBlockHeaderSize in Hs; lia|].
  rewrite F1, F2, !DecodeFixed32_EncodeFixed32 by lia.
  unfold uint32. rewrite (Z.mod_small (total_count adds * size_of_type)) by nia.
  rewrite Hlen. unfold kPlainBlockHeaderSize. rewrite Z.eqb_refl.
  cbn [negb]. destruct (total_count adds =? 0); reflexivity.
Qed.

(** X23.  What [ParseHeader] does on any fresh decoder: it returns; a block
    shorter than the header is Corruption and leaves the decoder as it was;
    whatever is rejected is Corruption and is not marked as parsed; what is
    accepted is marked as parsed, keeps its bytes, and holds the header and
    the announced number of values as long as their size fits 32 bits.  A
    second [ParseHeader] on an accepted decoder ends the process. *)
Theorem ParseHeader_accepts_only_sized_blocks (slice : list byte) :
  exists st d,
    ParseHeader' (NewDecoder slice) = Some (st, d)
    /\ data_ d = slice
    /\ ((length slice < kPlainBlockHeaderSize)%nat ->
        st = Corruption /\ d = NewDecoder slice)
    /\ (st <> OK -> st = Corruption /\ parsed_ d = false)
    /\ (st = OK ->
        parsed_ d = true
        /\ Z.of_nat (length slice) = 8 + uint32 (num_elems_ d * size_of_type)
        /\ (0 <= num_elems_ d * size_of_type < 2 ^ 32 ->
            Z.of_nat (length slice) = 8 + num_elems_ d * size_of_type)
        /\ ParseHeader' d = None).
Proof.
  unfold ParseHeader at 1. cbn [NewDecoder data_ parsed_ cur_idx_].
  destruct (Nat.ltb_spec (length slice) kPlainBlockHeaderSize) as [Hs|Hs].
  { exists Corruption, (NewDecoder slice).
    split; [reflexivity|]. split; [reflexivity|].
    split; [auto|]. split; [auto|]. discriminate. }
  cbv zeta.
  destruct (Z.eqb_spec (Z.of_nat (length slice))
              (Z.of_nat kPlainBlockHeaderSize
               + uint32 (DecodeFixed32 (firstn 4 slice) * size_of_type))) as [E|E];
    cbn [negb].
  - eexists _, _. split; [reflexivity|]. cbn [data_ parsed_ num_elems_].
    split; [reflexivity|]. split; [lia|]. split; [congruence|].
    intros _. unfold kPlainBlockHeaderSize in E.
    split; [reflexivity|]. split; [exact E|]. split; [|reflexivity].
    intros Hr. rewrite E. unfold uint32. now rewrite Z.mod_small.
  - eexists _, _. split; [reflexivity|]. cbn [data_ parsed_].
    split; [reflexivity|]. split; [lia|]. split; [auto|]. discriminate.
Qed.

(** X24.  After [Reset] and a first [Add] of at least one value,
    [GetFirstKey] returns the first value added, however many values follow. *)
Theorem GetFirstKey_is_first_added
        (vals : list byte) (count : Z) (adds : list (list byte * Z)) :
  adds_well_formed ((vals, count) :: adds) ->
  0 < count ->
  GetFirstKey size_of_type (AddAll' Reset ((vals, count) :: adds))
  = firstn (Z.to_nat size_of_type) vals.
Proof.
  intros Hw Hc.
  destruct (AddAll_buffer _ Hw Reset) as (Hb & _ & _).
  unfold GetFirstKey. rewrite Hb. cbn [Reset buffer_ map concat fst].
  rewrite skipn_app. rewrite skipn_all2 by (rewrite repeat_length; reflexivity).
  rewrite repeat_length. cbn [Nat.sub skipn app].
  inversion Hw as [|? ? [_ Hl] _]; subst. cbn [fst snd] in Hl.
  rewrite Nat.sub_diag. cbn [skipn].
  rewrite firstn_app.
  replace (Z.to_nat size_of_type - length vals)%nat with 0%nat by nia.
  now rewrite firstn_O, app_nil_r.
Qed.

(** X25.  [IsBlockFull] after [Reset] and a sequence of [Add] calls compares
    the limit with the header plus the size of the values added: the block
    is full exactly when [8 + count * size] exceeds the limit. *)
Theorem IsBlockFull_counts_header_and_values
        (adds : list (list byte * Z)) (limit : Z) :
  adds_well_formed adds ->
  IsBlockFull (AddAll' Reset adds) limit = true
  <-> limit < 8 + total_count adds * size_of_type.
Proof.
  intros Hw. destruct (AddAll_buffer adds Hw Reset) as (Hb & _ & Hl).
  unfold IsBlockFull. rewrite Hb, length_app. cbn [Reset buffer_].
  rewrite repeat_length. unfold kPlainBlockHeaderSize.
  rewrite Z.ltb_lt. lia.
Qed.

End PlainBlockBytesFacts.

Section PlainBlockBytesSamples.
Import PlainBlockBytes.
Local Open Scope Z_scope.

Lemma le_EncodeFixed32_length (v : Z) : length (le_EncodeFixed32 v) = 4%nat.
Proof. unfold le_EncodeFixed32. now rewrite length_rev, be_bytes_length. Qed.

Lemma le_DecodeFixed32_EncodeFixed32 (v : Z) :
  0 <= v < 2 ^ 32 -> le_DecodeFixed32 (le_EncodeFixed32 v) = v.
Proof.
  intros Hv. unfold le_DecodeFixed32, le_EncodeFixed32.
  rewrite rev_involutive. apply be_value_be_bytes.
  change (256 ^ Z.of_nat 4) with (2 ^ 32). exact Hv.
Qed.

(** Two calls of [Add] on a block of 4-byte values: two values, then one. *)
Definition sample_adds : list (list byte * Z) :=
  [([x01; x00; x00; x00; x02; x00; x00; x00], 2);
   ([x03; x00; x00; x00], 1)].

Lemma sample_adds_well_formed : adds_well_formed 4 sample_adds.
Proof.
  repeat constructor; cbn [fst snd length]; lia.
Qed.

Lemma build_then_parse_round_trip_witness :
  let block := Finish le_EncodeFixed32 (AddAll 4 Reset sample_adds) 7 in
  ParseHeader 4 le_DecodeFixed32 (NewDecoder block)
  = Some (OK, mkDecoder block true 3 7 0)
  /\ skipn kPlainBlockHeaderSize block
     = [x01; x00; x00; x00; x02; x00; x00; x00; x03; x00; x00; x00]
  /\ Count (AddAll 4 Reset sample_adds) = 3.
Proof.
  apply (build_then_parse_round_trip 4 le_EncodeFixed32 le_DecodeFixed32
           ltac:(lia) le_EncodeFixed32_length le_DecodeFixed32_EncodeFixed32
           sample_adds 7 sample_adds_well_formed).
  - vm_compute. reflexivity.
  - lia.
Defined.

Lemma GetFirstKey_is_first_added_witness :
  GetFirstKey 4 (AddAll 4 Reset sample_adds) = [x01; x00; x00; x00].
Proof.
  apply (GetFirstKey_is_first_added 4 ltac:(lia)
           [x01; x00; x00; x00; x02; x00; x00; x00] 2
           [([x03; x00; x00; x00], 1)] sample_adds_well_formed).
  lia.
Defined.

Lemma IsBlockFull_counts_header_and_values_witness :
  IsBlockFull (AddAll 4 Reset sample_adds) 19 = true.
Proof.
  apply (proj2 (IsBlockFull_counts_header_and_values 4 sample_adds 19
                  sample_adds_well_formed)).
  vm_compute. reflexivity.
Defined.

Example ParseHeader_short_block_rejected :
  ParseHeader 4 le_DecodeFixed32 (NewDecoder [x01; x00; x00])
  = Some (Corruption, NewDecoder [x01; x00; x00]).
Proof. reflexivity. Qed.

(** The size check of [ParseHeader] is made in 32 bits: a header that
    announces [2 ^ 30] values of 4 bytes passes it on a block that holds the
    header alone. *)
Example ParseHeader_wrapped_size_accepted :
  let block := le_EncodeFixed32 (2 ^ 30) ++ le_EncodeFixed32 0 in
  length block = 8%nat
  /\ ParseHeader 4 le_DecodeFixed32 (NewDecoder block)
     = Some (OK, mkDecoder block true (2 ^ 30) 0 0).
Proof. vm_compute. split; reflexivity. Qed.

End PlainBlockBytesSamples.
